(** * Presentation rendering and capture engine: a shallow embedding

    The development follows the TypeScript sources:
    - [utils/videoRenderer.ts]: [getLines], [getThemeConfig], [renderVideo]
      with its frame callback [drawFrame];
    - [utils/imageRenderer.ts]: [renderTableImage] with its layout solver
      ([calculateLayout], the font-shrink loop and the padding upscale);
    - [utils/audioSynth.ts]: the class [PresentationAudio].

    Numbers.  JavaScript numbers are IEEE doubles.  Times, widths and
    heights are modelled by exact rationals [Q]; integer-valued quantities
    (step indices, font sizes, counters) by [Z].  The one place where a
    non-finite double is produced on well-formed input, the progress ratio
    [elapsed / totalDuration], is modelled by [JS.num], which has [NaN] and
    the infinities.  The layout solver of the image export divides the
    surplus height by the number of rows and adds the rounded quotients
    up again, so there the rounding of the doubles decides whether the
    table fits: the solver is modelled a second time in binary64
    ([ImageRenderer64], on the kernel's primitive floats), and what is
    said about the fit is said of that model.

    Strings are Rocq strings; [" "] is one byte in UTF-8 and no other code
    point contains it, so splitting on it is the same in both worlds. *)

From stdpp Require Import gmap list.
From stdpp Require Import strings.
From Stdlib Require Import ZArith QArith Qround Lia Lqa Sorted.
From Stdlib Require Import Strings.Ascii.
From Stdlib Require PrimFloat FloatOps Uint63.

Local Open Scope Z_scope.
Local Open Scope string_scope.
Local Open Scope list_scope.

(** ** JavaScript primitives used by the sources *)

Module JS.

(** Strict comparison of rationals, as a boolean. *)
Definition Qltb (a b : Q) : bool := negb (Qle_bool b a).

Definition Qmin (a b : Q) : Q := if Qle_bool a b then a else b.
Definition Qmax (a b : Q) : Q := if Qle_bool a b then b else a.

(** [s.split(" ")]: the pieces between the separators, in order.  The
    result is never empty: [("").split(" ")] is [[""]]. *)
Fixpoint split (sep : ascii) (s : string) : list string :=
  match s with
  | EmptyString => [EmptyString]
  | String c rest =>
      if Ascii.eqb c sep then EmptyString :: split sep rest
      else match split sep rest with
           | w :: ws => String c w :: ws
           | [] => [String c EmptyString]
           end
  end.

(** [a.join(sep)] is [String.concat sep a]. *)
Definition join (sep : string) (a : list string) : string :=
  String.concat sep a.

(** [s.includes(" ")]. *)
Fixpoint includes (c : ascii) (s : string) : bool :=
  match s with
  | EmptyString => false
  | String d rest => Ascii.eqb d c || includes c rest
  end.

(** Doubles that need not be finite. *)
Inductive num : Type :=
| Fin (q : Q)
| PosInf
| NegInf
| NaN.

(** [a / b] on finite doubles: division by zero does not throw, it
    yields [NaN] for [0 / 0] and a signed infinity otherwise. *)
Definition div (a b : Q) : num :=
  if Qeq_bool b 0 then
    if Qeq_bool a 0 then NaN
    else if Qle_bool 0 a then PosInf else NegInf
  else Fin (a / b).

(** [Math.min(x, c)] for a finite [c]: [NaN] is contagious. *)
Definition min_fin (x : num) (c : Q) : num :=
  match x with
  | Fin q => Fin (Qmin q c)
  | PosInf => Fin c
  | NegInf => NegInf
  | NaN => NaN
  end.

(** [x * c] for a finite [c > 0]. *)
Definition mul_pos (x : num) (c : Q) : num :=
  match x with
  | Fin q => Fin (q * c)
  | other => other
  end.

Definition is_finite (x : num) : bool :=
  match x with Fin _ => true | _ => false end.

End JS.

(** ** The 2D drawing context (the part of the Canvas API the sources use) *)

Module Canvas.

(** The value of [ctx.font]: a style prefix (["bold"], ["italic 500"],
    [""]), a pixel size and a family list. *)
Record Font : Type := mkFont {
  fontStyle : string;
  fontPx : Z;
  fontFamily : string
}.

Record Image : Type := mkImage {
  imgSrc : string;
  imgWidth : Q;
  imgHeight : Q
}.

Inductive Paint : Type :=
| Color (css : string)
| LinearGradient (x0 y0 x1 y1 : Q) (stops : list (Q * string)).

Inductive Xform : Type :=
| Translate (dx dy : Q)
| Scale (sx sy : Q).

(** The drawing state that [save] pushes and [restore] pops. *)
Record Style : Type := mkStyle {
  fillStyle : Paint;
  strokeStyle : string;
  lineWidth : Q;
  globalAlpha : Q;
  font : Font;
  textAlign : string;
  textBaseline : string;
  shadowBlur : Q;
  shadowColor : string;
  transform : list Xform;
  clipRounded : option (Q * Q * Q * Q * Q)
}.

(** What reaches the surface: each operation with the state it was
    issued in. *)
Inductive Cmd : Type :=
| FillRect (st : Style) (x y w h : Q)
| FillText (st : Style) (text : string) (x y : Q)
| StrokeLine (st : Style) (x0 y0 x1 y1 : Q)
| DrawImage (st : Style) (img : Image) (x y w h : Q).

Record Context : Type := mkContext {
  cur : Style;
  saved : list Style;
  (** the platform's text metrics, [ctx.measureText(s).width] under a
      given font *)
  measureText : Font -> string -> Q
}.

Definition defaultStyle : Style :=
  {| fillStyle := Color "#000000"; strokeStyle := "#000000";
     lineWidth := 1; globalAlpha := 1;
     font := mkFont "" 10 "sans-serif";
     textAlign := "start"; textBaseline := "alphabetic";
     shadowBlur := 0; shadowColor := "rgba(0, 0, 0, 0)";
     transform := []; clipRounded := None |}.

Definition newContext (metrics : Font -> string -> Q) : Context :=
  {| cur := defaultStyle; saved := []; measureText := metrics |}.

Definition width (ctx : Context) (s : string) : Q :=
  measureText ctx (font (cur ctx)) s.

(** *** A state-and-log monad for drawing code *)

Definition Draw (A : Type) : Type := Context -> A * Context * list Cmd.

Definition ret {A} (a : A) : Draw A := fun ctx => (a, ctx, []).

Definition bind {A B} (m : Draw A) (k : A -> Draw B) : Draw B :=
  fun ctx =>
    let '(a, ctx1, log1) := m ctx in
    let '(b, ctx2, log2) := k a ctx1 in
    (b, ctx2, log1 ++ log2).

Definition get : Draw Context := fun ctx => (ctx, ctx, []).

Definition modify (f : Style -> Style) : Draw unit :=
  fun ctx =>
    (tt, {| cur := f (cur ctx); saved := saved ctx;
            measureText := measureText ctx |}, []).

Definition emit (c : Style -> Cmd) : Draw unit :=
  fun ctx => (tt, ctx, [c (cur ctx)]).

Definition skip : Draw unit := ret tt.

Definition when (b : bool) (m : Draw unit) : Draw unit :=
  if b then m else skip.

(** [for (x of xs) body(i, x)], with the index as [forEach] passes it. *)
Fixpoint forEach_from {A} (i : Z) (xs : list A) (body : Z -> A -> Draw unit)
    : Draw unit :=
  match xs with
  | [] => skip
  | x :: rest => bind (body i x) (fun _ => forEach_from (i + 1) rest body)
  end.

Definition forEach {A} (xs : list A) (body : Z -> A -> Draw unit) : Draw unit :=
  forEach_from 0 xs body.

Definition setFillStyle (p : Paint) : Draw unit :=
  modify (fun s => {| fillStyle := p; strokeStyle := strokeStyle s;
    lineWidth := lineWidth s; globalAlpha := globalAlpha s; font := font s;
    textAlign := textAlign s; textBaseline := textBaseline s;
    shadowBlur := shadowBlur s; shadowColor := shadowColor s;
    transform := transform s; clipRounded := clipRounded s |}).

Definition setStrokeStyle (c : string) : Draw unit :=
  modify (fun s => {| fillStyle := fillStyle s; strokeStyle := c;
    lineWidth := lineWidth s; globalAlpha := globalAlpha s; font := font s;
    textAlign := textAlign s; textBaseline := textBaseline s;
    shadowBlur := shadowBlur s; shadowColor := shadowColor s;
    transform := transform s; clipRounded := clipRounded s |}).

Definition setLineWidth (w : Q) : Draw unit :=
  modify (fun s => {| fillStyle := fillStyle s; strokeStyle := strokeStyle s;
    lineWidth := w; globalAlpha := globalAlpha s; font := font s;
    textAlign := textAlign s; textBaseline := textBaseline s;
    shadowBlur := shadowBlur s; shadowColor := shadowColor s;
    transform := transform s; clipRounded := clipRounded s |}).

Definition setGlobalAlpha (a : Q) : Draw unit :=
  modify (fun s => {| fillStyle := fillStyle s; strokeStyle := strokeStyle s;
    lineWidth := lineWidth s; globalAlpha := a; font := font s;
    textAlign := textAlign s; textBaseline := textBaseline s;
    shadowBlur := shadowBlur s; shadowColor := shadowColor s;
    transform := transform s; clipRounded := clipRounded s |}).

Definition setFont (f : Font) : Draw unit :=
  modify (fun s => {| fillStyle := fillStyle s; strokeStyle := strokeStyle s;
    lineWidth := lineWidth s; globalAlpha := globalAlpha s; font := f;
    textAlign := textAlign s; textBaseline := textBaseline s;
    shadowBlur := shadowBlur s; shadowColor := shadowColor s;
    transform := transform s; clipRounded := clipRounded s |}).

Definition setTextAlign (a : string) : Draw unit :=
  modify (fun s => {| fillStyle := fillStyle s; strokeStyle := strokeStyle s;
    lineWidth := lineWidth s; globalAlpha := globalAlpha s; font := font s;
    textAlign := a; textBaseline := textBaseline s;
    shadowBlur := shadowBlur s; shadowColor := shadowColor s;
    transform := transform s; clipRounded := clipRounded s |}).

Definition setTextBaseline (b : string) : Draw unit :=
  modify (fun s => {| fillStyle := fillStyle s; strokeStyle := strokeStyle s;
    lineWidth := lineWidth s; globalAlpha := globalAlpha s; font := font s;
    textAlign := textAlign s; textBaseline := b;
    shadowBlur := shadowBlur s; shadowColor := shadowColor s;
    transform := transform s; clipRounded := clipRounded s |}).

Definition setShadowBlur (b : Q) : Draw unit :=
  modify (fun s => {| fillStyle := fillStyle s; strokeStyle := strokeStyle s;
    lineWidth := lineWidth s; globalAlpha := globalAlpha s; font := font s;
    textAlign := textAlign s; textBaseline := textBaseline s;
    shadowBlur := b; shadowColor := shadowColor s;
    transform := transform s; clipRounded := clipRounded s |}).

Definition setShadowColor (c : string) : Draw unit :=
  modify (fun s => {| fillStyle := fillStyle s; strokeStyle := strokeStyle s;
    lineWidth := lineWidth s; globalAlpha := globalAlpha s; font := font s;
    textAlign := textAlign s; textBaseline := textBaseline s;
    shadowBlur := shadowBlur s; shadowColor := c;
    transform := transform s; clipRounded := clipRounded s |}).

Definition pushXform (x : Xform) : Draw unit :=
  modify (fun s => {| fillStyle := fillStyle s; strokeStyle := strokeStyle s;
    lineWidth := lineWidth s; globalAlpha := globalAlpha s; font := font s;
    textAlign := textAlign s; textBaseline := textBaseline s;
    shadowBlur := shadowBlur s; shadowColor := shadowColor s;
    transform := transform s ++ [x]; clipRounded := clipRounded s |}).

Definition translate (dx dy : Q) : Draw unit := pushXform (Translate dx dy).
Definition scale (sx sy : Q) : Draw unit := pushXform (Scale sx sy).

(** The rounded-rectangle path of the logo, followed by [ctx.clip()]. *)
Definition clipRoundedRect (x y w h r : Q) : Draw unit :=
  modify (fun s => {| fillStyle := fillStyle s; strokeStyle := strokeStyle s;
    lineWidth := lineWidth s; globalAlpha := globalAlpha s; font := font s;
    textAlign := textAlign s; textBaseline := textBaseline s;
    shadowBlur := shadowBlur s; shadowColor := shadowColor s;
    transform := transform s; clipRounded := Some (x, y, w, h, r) |}).

Definition save : Draw unit :=
  fun ctx =>
    (tt, {| cur := cur ctx; saved := cur ctx :: saved ctx;
            measureText := measureText ctx |}, []).

(** [restore] on an empty stack does nothing. *)
Definition restore : Draw unit :=
  fun ctx =>
    match saved ctx with
    | [] => (tt, ctx, [])
    | s :: rest =>
        (tt, {| cur := s; saved := rest; measureText := measureText ctx |}, [])
    end.

Definition fillRect (x y w h : Q) : Draw unit :=
  emit (fun st => FillRect st x y w h).
Definition fillText (text : string) (x y : Q) : Draw unit :=
  emit (fun st => FillText st text x y).
(** [beginPath; moveTo; lineTo; stroke] of one segment. *)
Definition strokeLine (x0 y0 x1 y1 : Q) : Draw unit :=
  emit (fun st => StrokeLine st x0 y0 x1 y1).
Definition drawImage (img : Image) (x y w h : Q) : Draw unit :=
  emit (fun st => DrawImage st img x y w h).

End Canvas.

Declare Scope draw_scope.
Delimit Scope draw_scope with draw.
Notation "m ;; k" := (Canvas.bind m (fun _ => k))
  (at level 100, k at level 200, right associativity) : draw_scope.
Notation "'let*' x ':=' m 'in' k" := (Canvas.bind m (fun x => k))
  (at level 10, x name, m at level 100, k at level 200) : draw_scope.

(** ** [getLines]: the shared greedy word wrap (videoRenderer.ts) *)

Module WordWrap.
Import Canvas.

(** The body of the [for] loop, over the words that remain. *)
Fixpoint getLines_loop (ctx : Context) (maxWidth : Q)
    (words : list string) (currentLine : string) (lines : list string)
    : list string :=
  match words with
  | [] => lines ++ [currentLine]
  | word :: rest =>
      let w := width ctx (currentLine ++ " " ++ word)%string in
      if JS.Qltb w maxWidth
      then getLines_loop ctx maxWidth rest (currentLine ++ " " ++ word)%string lines
      else getLines_loop ctx maxWidth rest word (lines ++ [currentLine])
  end.

Definition getLines (ctx : Context) (text : string) (maxWidth : Q)
    : list string :=
  match JS.split " " text with
  | [] => []   (* not reached: [split] never returns the empty array *)
  | w0 :: ws => getLines_loop ctx maxWidth ws w0 []
  end.

(** The first word of a line: the piece before its first space. *)
Definition firstWord (line : string) : string :=
  hd EmptyString (JS.split " " line).

End WordWrap.

(** ** [PresentationAudio] (audioSynth.ts) over a store of audio nodes *)

Module AudioSynth.

Inductive CtxState : Type := Suspended | Running | Closed.

(** What a node can be connected to. *)
Inductive Target : Type :=
| CtxDestination
| NodeRef (id : nat).

Inductive NodeKind : Type :=
| OscillatorNode (waveform : string)
| GainNode
| BiquadFilterNode
| AudioBufferSourceNode (samples : list Q)
| MediaStreamAudioDestinationNode.

(** Scheduled parameter changes ([setValueAtTime] and the two ramps). *)
Inductive Automation : Type :=
| SetValueAtTime (param : string) (v t : Q)
| LinearRampToValueAtTime (param : string) (v t : Q)
| ExponentialRampToValueAtTime (param : string) (v t : Q).

Record Node : Type := mkNode {
  kind : NodeKind;
  gainValue : option Q;
  automation : list Automation;
  startAt : option Q;          (* [start(t)] has been called *)
  stopAt : option Q;           (* the latest [stop(t)]; [stop()] is [stop(0)] *)
  outputs : list Target        (* the connections made by [connect] *)
}.

(** Only scheduled sources have a [stop] method. *)
Definition hasStop (k : NodeKind) : bool :=
  match k with
  | OscillatorNode _ | AudioBufferSourceNode _ => true
  | _ => false
  end.

(** The instance fields of the class together with the platform objects
    it reaches: the nodes of its [AudioContext] (by allocation index),
    the window's pending timeouts, and the position in the stream of
    [Math.random()] values. *)
Record State : Type := mkState {
  ctxState : CtxState;
  heap : gmap nat Node;
  nextId : nat;
  destination : Target;
  masterGain : nat;
  voiceGain : nat;
  nodes : list nat;
  streamDestination : option nat;
  isPlaying : bool;
  nextNoteTime : Q;
  timerID : option positive;
  voiceSource : option nat;
  timers : gset positive;
  nextTimer : positive;
  rngPos : nat
}.

Definition scale : list Q :=
  [26163 # 100; 29366 # 100; 32963 # 100; 39200 # 100; 44000 # 100;
   52325 # 100; 58733 # 100; 65925 # 100; 78399 # 100; 88000 # 100;
   104650 # 100]%Q.

(** *** Field updates *)

Definition set_ctxState (v : CtxState) (s : State) : State :=
  mkState v (heap s) (nextId s) (destination s) (masterGain s) (voiceGain s)
    (nodes s) (streamDestination s) (isPlaying s) (nextNoteTime s)
    (timerID s) (voiceSource s) (timers s) (nextTimer s) (rngPos s).
Definition set_heap (v : gmap nat Node) (s : State) : State :=
  mkState (ctxState s) v (nextId s) (destination s) (masterGain s)
    (voiceGain s) (nodes s) (streamDestination s) (isPlaying s)
    (nextNoteTime s) (timerID s) (voiceSource s) (timers s) (nextTimer s)
    (rngPos s).
Definition set_nextId (v : nat) (s : State) : State :=
  mkState (ctxState s) (heap s) v (destination s) (masterGain s)
    (voiceGain s) (nodes s) (streamDestination s) (isPlaying s)
    (nextNoteTime s) (timerID s) (voiceSource s) (timers s) (nextTimer s)
    (rngPos s).
Definition set_nodes (v : list nat) (s : State) : State :=
  mkState (ctxState s) (heap s) (nextId s) (destination s) (masterGain s)
    (voiceGain s) v (streamDestination s) (isPlaying s) (nextNoteTime s)
    (timerID s) (voiceSource s) (timers s) (nextTimer s) (rngPos s).
Definition set_isPlaying (v : bool) (s : State) : State :=
  mkState (ctxState s) (heap s) (nextId s) (destination s) (masterGain s)
    (voiceGain s) (nodes s) (streamDestination s) v (nextNoteTime s)
    (timerID s) (voiceSource s) (timers s) (nextTimer s) (rngPos s).
Definition set_nextNoteTime (v : Q) (s : State) : State :=
  mkState (ctxState s) (heap s) (nextId s) (destination s) (masterGain s)
    (voiceGain s) (nodes s) (streamDestination s) (isPlaying s) v
    (timerID s) (voiceSource s) (timers s) (nextTimer s) (rngPos s).
Definition set_timerID (v : option positive) (s : State) : State :=
  mkState (ctxState s) (heap s) (nextId s) (destination s) (masterGain s)
    (voiceGain s) (nodes s) (streamDestination s) (isPlaying s)
    (nextNoteTime s) v (voiceSource s) (timers s) (nextTimer s) (rngPos s).
Definition set_voiceSource (v : option nat) (s : State) : State :=
  mkState (ctxState s) (heap s) (nextId s) (destination s) (masterGain s)
    (voiceGain s) (nodes s) (streamDestination s) (isPlaying s)
    (nextNoteTime s) (timerID s) v (timers s) (nextTimer s) (rngPos s).
Definition set_timers (v : gset positive) (s : State) : State :=
  mkState (ctxState s) (heap s) (nextId s) (destination s) (masterGain s)
    (voiceGain s) (nodes s) (streamDestination s) (isPlaying s)
    (nextNoteTime s) (timerID s) (voiceSource s) v (nextTimer s) (rngPos s).
Definition set_nextTimer (v : positive) (s : State) : State :=
  mkState (ctxState s) (heap s) (nextId s) (destination s) (masterGain s)
    (voiceGain s) (nodes s) (streamDestination s) (isPlaying s)
    (nextNoteTime s) (timerID s) (voiceSource s) (timers s) v (rngPos s).
Definition set_rngPos (v : nat) (s : State) : State :=
  mkState (ctxState s) (heap s) (nextId s) (destination s) (masterGain s)
    (voiceGain s) (nodes s) (streamDestination s) (isPlaying s)
    (nextNoteTime s) (timerID s) (voiceSource s) (timers s) (nextTimer s) v.

(** *** Platform operations on nodes and timers *)

Definition alloc (n : Node) (s : State) : nat * State :=
  let id := nextId s in
  (id, set_nextId (S id) (set_heap (<[id := n]> (heap s)) s)).

Definition update (id : nat) (f : Node -> Node) (s : State) : State :=
  set_heap (alter f id (heap s)) s.

(** [a.connect(b)] *)
Definition connect (id : nat) (t : Target) (s : State) : State :=
  update id (fun n => mkNode (kind n) (gainValue n) (automation n)
                        (startAt n) (stopAt n) (outputs n ++ [t])) s.

(** A node after [node.disconnect()]: every outgoing connection is
    dropped. *)
Definition detach (n : Node) : Node :=
  mkNode (kind n) (gainValue n) (automation n) (startAt n) (stopAt n) [].

(** [node.disconnect()] never throws. *)
Definition disconnect (id : nat) (s : State) : State := update id detach s.

(** A node after [try { node.stop?.() } catch (e) {}]: a node without
    the method is left alone; a source that was never started makes
    [stop] throw [InvalidStateError], which the [catch] swallows;
    otherwise the node is told to stop at once ([when] defaults to
    [0]). *)
Definition halt (n : Node) : Node :=
  if hasStop (kind n) then
    match startAt n with
    | Some _ =>
        mkNode (kind n) (gainValue n) (automation n) (startAt n)
          (Some 0%Q) (outputs n)
    | None => n
    end
  else n.

Definition try_stop (id : nat) (s : State) : State := update id halt s.

(** [window.setTimeout(f, ms)] hands out a fresh positive handle. *)
Definition setTimeout (s : State) : positive * State :=
  let id := nextTimer s in
  (id, set_nextTimer (Pos.succ id) (set_timers ({[id]} ∪ timers s) s)).

Definition clearTimeout (id : positive) (s : State) : State :=
  set_timers (timers s ∖ {[id]}) s.

(** [new PresentationAudio(forExport)], on a context that the browser
    creates in state [initial]. *)
Definition create (forExport : bool) (initial : CtxState) : State :=
  let empty :=
    mkState initial ∅ 0%nat CtxDestination 0%nat 0%nat [] None false 0%Q
      None None ∅ 1%positive 0%nat in
  let '(mg, s1) := alloc (mkNode GainNode (Some (1 # 2)%Q) [] None None []) empty in
  let '(vg, s2) := alloc (mkNode GainNode (Some 1%Q) [] None None []) s1 in
  let '(sd, dest, s3) :=
    if forExport then
      let '(d, s3) :=
        alloc (mkNode MediaStreamAudioDestinationNode None [] None None []) s2 in
      (Some d, NodeRef d, s3)
    else (None, CtxDestination, s2) in
  let s4 :=
    mkState (ctxState s3) (heap s3) (nextId s3) dest mg vg [] sd false 0%Q
      None None (timers s3) (nextTimer s3) (rngPos s3) in
  connect vg dest (connect mg dest s4).

(** The blocks of [stop()], in their order. *)

(** [if (this.timerID) { window.clearTimeout(this.timerID); this.timerID = null }] *)
Definition stopTimer (s : State) : State :=
  match timerID s with
  | Some id => set_timerID None (clearTimeout id s)
  | None => s
  end.

(** [this.nodes.forEach(node => { stop; disconnect }); this.nodes = []] *)
Definition stopNodes (s : State) : State :=
  set_nodes []
    (fold_left (fun st id => disconnect id (try_stop id st)) (nodes s) s).

(** [if (this.voiceSource) { stop; disconnect; this.voiceSource = null }] *)
Definition stopVoice (s : State) : State :=
  match voiceSource s with
  | Some v => set_voiceSource None (disconnect v (try_stop v s))
  | None => s
  end.

(** The two buses are disconnected from the destination. *)
Definition stopBuses (s : State) : State :=
  disconnect (voiceGain s) (disconnect (masterGain s) s).

(** [if (this.ctx.state !== 'closed') this.ctx.close()]: [close] puts
    the context in the closed state; the promise it returns is not
    awaited. *)
Definition closeContext (s : State) : State :=
  match ctxState s with
  | Closed => s
  | _ => set_ctxState Closed s
  end.

(** [stop()] *)
Definition stop (s : State) : State :=
  closeContext
    (stopBuses (stopVoice (stopNodes (stopTimer (set_isPlaying false s))))).

(** [triggerTransition()], called when the audio clock reads [t]. *)
Definition triggerTransition (t : Q) (s : State) : State :=
  let '(osc, s1) :=
    alloc (mkNode (OscillatorNode "sine") None
             [SetValueAtTime "frequency" 800 t;
              ExponentialRampToValueAtTime "frequency" 1200 (t + (1 # 10));
              ExponentialRampToValueAtTime "frequency" 300 (t + (3 # 10))]%Q
             None None []) s in
  let '(gain, s2) :=
    alloc (mkNode GainNode None
             [SetValueAtTime "gain" 0 t;
              LinearRampToValueAtTime "gain" (1 # 10) (t + (5 # 100));
              ExponentialRampToValueAtTime "gain" (1 # 100) (t + (3 # 10))]%Q
             None None []) s1 in
  let s3 := connect gain (NodeRef (masterGain s2)) (connect osc (NodeRef gain) s2) in
  let s4 :=
    update osc (fun n => mkNode (kind n) (gainValue n) (automation n)
                           (Some t) (Some (t + (4 # 10))%Q) (outputs n)) s3 in
  set_nodes (nodes s4 ++ [osc; gain]) s4.

(** [playPianoTone(freq, time)] *)
Definition playPianoTone (freq time : Q) (s : State) : State :=
  let '(osc, s1) :=
    alloc (mkNode (OscillatorNode "triangle") None
             [SetValueAtTime "frequency" freq time] None None []) s in
  let '(gain, s2) :=
    alloc (mkNode GainNode None
             [SetValueAtTime "gain" 0 time;
              LinearRampToValueAtTime "gain" (3 # 100) (time + (2 # 100));
              ExponentialRampToValueAtTime "gain" (1 # 1000) (time + 4)]%Q
             None None []) s1 in
  let '(filter, s3) :=
    alloc (mkNode BiquadFilterNode None
             [SetValueAtTime "frequency" (freq * 4) time;
              ExponentialRampToValueAtTime "frequency" freq (time + (1 # 2))]%Q
             None None []) s2 in
  let s4 :=
    connect gain (NodeRef (masterGain s3))
      (connect filter (NodeRef gain) (connect osc (NodeRef filter) s3)) in
  let s5 :=
    update osc (fun n => mkNode (kind n) (gainValue n) (automation n)
                           (Some time) (Some (time + (45 # 10))%Q) (outputs n)) s4 in
  set_nodes (nodes s5 ++ [osc; gain; filter]) s5.

(** [this.scale.indexOf(x)] *)
Fixpoint indexOf_from (i : Z) (x : Q) (l : list Q) : Z :=
  match l with
  | [] => -1
  | y :: rest => if Qeq_bool y x then i else indexOf_from (i + 1) x rest
  end.
Definition indexOf (x : Q) (l : list Q) : Z := indexOf_from 0 x l.

(** [this.scale[i]]; the sources only index it inside its bounds. *)
Definition scaleAt (i : Z) : Q := nth (Z.to_nat i) scale 0%Q.

Section WithEnvironment.

(** The successive values of [Math.random()]. *)
Variable random : nat -> Q.
(** [atob] followed by the [Int16Array] view and the division by
    [32768.0]; [None] when one of them throws. *)
Variable decodePcm : string -> option (list Q).

Definition nextRandom (s : State) : Q * State :=
  (random (rngPos s), set_rngPos (S (rngPos s)) s).

(** [playRandomPianoNote(time)] *)
Definition playRandomPianoNote (time : Q) (s : State) : State :=
  let '(r1, s1) := nextRandom s in
  let freq := scaleAt (Qfloor (r1 * 11)) in
  let s2 := playPianoTone freq time s1 in
  let '(r2, s3) := nextRandom s2 in
  if JS.Qltb r2 (3 # 10) then
    let idx := indexOf freq scale in
    if (idx + 2 <? 11)%Z then playPianoTone (scaleAt (idx + 2)) time s3 else s3
  else s3.

(** The [while] loop of the scheduler callback.  Each round moves
    [nextNoteTime] forward by at least two seconds, so [fuel] rounds
    are enough when [fuel] exceeds half the distance to the horizon. *)
Fixpoint noteLoop (fuel : nat) (now : Q) (s : State) : State :=
  match fuel with
  | O => s
  | S fuel' =>
      if JS.Qltb (nextNoteTime s) (now + 1) then
        let s1 := playRandomPianoNote (nextNoteTime s) s in
        let '(r, s2) := nextRandom s1 in
        noteLoop fuel' now
          (set_nextNoteTime (nextNoteTime s2 + (2 + r * (5 # 2)))%Q s2)
      else s
  end.

Definition loopFuel (now : Q) (s : State) : nat :=
  S (Z.to_nat (Qceiling ((now + 1 - nextNoteTime s) / 2))).

(** The closure [scheduler] of [scheduleAmbientPiano], run when the
    audio clock reads [now]. *)
Definition scheduler (now : Q) (s : State) : State :=
  if isPlaying s then
    let s1 := noteLoop (loopFuel now s) now s in
    let '(id, s2) := setTimeout s1 in
    set_timerID (Some id) s2
  else s.

(** The timeout with handle [id] comes due. *)
Definition timerFires (id : positive) (now : Q) (s : State) : State :=
  if decide (id ∈ timers s)
  then scheduler now (clearTimeout id s)
  else s.

(** [start()]; the [await] of [resume()] is taken as one step. *)
Definition start (now : Q) (s : State) : State :=
  let s1 :=
    match ctxState s with
    | Suspended => set_ctxState Running s
    | _ => s
    end in
  if isPlaying s1 then s1
  else scheduler now
         (set_nextNoteTime (now + (1 # 2))%Q (set_isPlaying true s1)).

(** [playSpeech(base64Pcm)].  Everything after the guard runs inside
    one [try]; a throw from the decoding, or from [createBuffer] on a
    zero-length buffer, is logged and leaves what was done before it. *)
Definition playSpeech (base64Pcm : string) (now : Q) (s : State) : State :=
  if String.eqb base64Pcm "" then s
  else
    let s1 :=
      match voiceSource s with
      | Some v => set_voiceSource None (try_stop v s)
      | None => s
      end in
    match decodePcm base64Pcm with
    | None | Some [] => s1
    | Some samples =>
        let '(src, s2) :=
          alloc (mkNode (AudioBufferSourceNode samples) None [] None None []) s1 in
        let s3 := connect src (NodeRef (voiceGain s2)) s2 in
        let s4 :=
          update src (fun n => mkNode (kind n) (gainValue n) (automation n)
                                 (Some (now + (1 # 2))%Q) (stopAt n) (outputs n)) s3 in
        set_voiceSource (Some src) s4
    end.

(** *** Histories of an engine *)

(** What can happen to an engine once it is constructed. *)
Inductive Call : Type :=
| CallStart (now : Q)
| CallStop
| CallPlaySpeech (base64Pcm : string) (now : Q)
| CallTriggerTransition (now : Q)
| TimeoutDue (id : positive) (now : Q).

Definition perform (s : State) (call : Call) : State :=
  match call with
  | CallStart now => start now s
  | CallStop => stop s
  | CallPlaySpeech b now => playSpeech b now s
  | CallTriggerTransition now => triggerTransition now s
  | TimeoutDue id now => timerFires id now s
  end.

(** The engine after a history, from [new PresentationAudio(..)]. *)
Definition after (forExport : bool) (initial : CtxState)
    (history : list Call) : State :=
  fold_left perform history (create forExport initial).

End WithEnvironment.

(** *** Notions used to state properties of the engine *)

(** A node that makes no sound and feeds nothing: it has no outgoing
    connection and, if it is a started source, it has been told to
    stop at once. *)
Definition quiet (n : Node) : Prop :=
  outputs n = []
  /\ (hasStop (kind n) = true -> is_Some (startAt n) -> stopAt n = Some 0%Q).

(** The nodes that the engine synthesizes sound with: oscillators,
    filters, and gains other than its two buses. *)
Definition isSynthesis (s : State) (id : nat) (n : Node) : bool :=
  match kind n with
  | OscillatorNode _ | BiquadFilterNode => true
  | GainNode => negb (Nat.eqb id (masterGain s)) && negb (Nat.eqb id (voiceGain s))
  | _ => false
  end.

(** What every history keeps true of the store: indices from
    [nextId] on are free, and a synthesis node is in the list
    [nodes] unless it is quiet already. *)
Definition nodesTracked (s : State) : Prop :=
  (forall id, (nextId s <= id)%nat -> heap s !! id = None)
  /\ (forall id n,
        heap s !! id = Some n -> isSynthesis s id n = true ->
        In id (nodes s) \/ quiet n).

(** What holds of a source among the nodes: an oscillator has been
    started and told when to stop (at once, 4.5 s after its start for
    a piano tone, 0.4 s after it for a stinger); a narration source
    has been started, and unless it is the current one it has been
    told to stop at once. *)
Definition sourceScheduled (current : option nat) (id : nat) (n : Node)
    : Prop :=
  match kind n with
  | OscillatorNode _ =>
      exists t, startAt n = Some t
                /\ (stopAt n = Some 0%Q \/ stopAt n = Some (t + (45 # 10))%Q
                    \/ stopAt n = Some (t + (4 # 10))%Q)
  | AudioBufferSourceNode _ =>
      is_Some (startAt n) /\ (current = Some id \/ stopAt n = Some 0%Q)
  | _ => True
  end.

Definition sourcesScheduled (s : State) : Prop :=
  forall id n, heap s !! id = Some n -> sourceScheduled (voiceSource s) id n.

(** Two states with the same timeouts. *)
Definition sameTimers (s s' : State) : Prop :=
  timers s' = timers s /\ timerID s' = timerID s /\ isPlaying s' = isPlaying s.

(** What every history keeps true of the timeouts: the only one that
    can be pending is the one in [timerID], and none is pending while
    the engine is not playing. *)
Definition timerTracked (s : State) : Prop :=
  (forall id, id ∈ timers s -> timerID s = Some id)
  /\ (isPlaying s = false -> timers s = ∅).

End AudioSynth.

(** ** The data model (types.ts) *)

Module Types.

Inductive AnimationStyle : Type := FADE_UP | SLIDE_RIGHT | POP.
Inductive Theme : Type := COSMIC | NEON | LUXE | GLASS.
Inductive Layout : Type := STACKED | SPLIT | DIAGONAL | MAGAZINE | LOWER_THIRD.

Record TableData : Type := mkTableData {
  title : option string;
  columns : list string;
  data : list (list string);
  sources : option (list string);
  summary : option string
}.

Record AnimationConfig : Type := mkAnimationConfig {
  style : AnimationStyle;
  theme : Theme;
  layout : Layout;
  rowDelay : Q;
  highlightActive : bool;
  showProgressBar : bool;
  durationPerItem : Q;               (* seconds *)
  backgroundImage : option string;
  backgroundImagePrompt : option string;
  showAppName : bool;
  showAiWatermark : bool
}.

Definition Theme_eqb (a b : Theme) : bool :=
  match a, b with
  | COSMIC, COSMIC | NEON, NEON | LUXE, LUXE | GLASS, GLASS => true
  | _, _ => false
  end.

Definition Layout_eqb (a b : Layout) : bool :=
  match a, b with
  | STACKED, STACKED | SPLIT, SPLIT | DIAGONAL, DIAGONAL
  | MAGAZINE, MAGAZINE | LOWER_THIRD, LOWER_THIRD => true
  | _, _ => false
  end.

(** [x || ""] for an optional string. *)
Definition orEmpty (o : option string) : string :=
  match o with Some s => s | None => "" end.

(** Truthiness of an optional string: present and not empty. *)
Definition truthy (o : option string) : bool :=
  negb (String.eqb (orEmpty o) "").

(** [a[i]] for a number [i] that is an integer: [undefined] outside the
    bounds, negative indices included. *)
Definition at_ {A} (l : list A) (i : Z) : option A :=
  if (i <? 0)%Z then None else nth_error l (Z.to_nat i).

End Types.

(** ** [renderVideo] and its frame callback (videoRenderer.ts) *)

Module VideoRenderer.
Import Canvas Types.

Record ThemeConfig : Type := mkThemeConfig {
  bg : string;
  fontMain : string;
  fontHeader : string;
  subjectColor : string;
  headerColor : string;
  valueColor : string;
  lineColor1 : string;
  lineColor2 : string;
  barColor1 : string;
  barColor2 : string
}.

Definition getThemeConfig (t : Theme) : ThemeConfig :=
  match t with
  | NEON =>
      mkThemeConfig "#000000" "JetBrains Mono, monospace"
        "JetBrains Mono, monospace" "#4ade80" "#ec4899" "#ffffff"
        "#4ade80" "#ec4899" "#22c55e" "#db2777"
  | LUXE =>
      mkThemeConfig "#0a0a0a" "Playfair Display, serif" "Inter, sans-serif"
        "#fef3c7" "#78716c" "#fbbf24" "#d97706" "#b45309" "#b45309" "#fbbf24"
  | GLASS =>
      mkThemeConfig "#0f172a" "Inter, sans-serif" "Inter, sans-serif"
        "#ffffff" "#22d3ee" "#cffafe" "#06b6d4" "#3b82f6" "#06b6d4" "#2563eb"
  | COSMIC =>
      mkThemeConfig "#020617" "Inter, sans-serif" "Inter, sans-serif"
        "#ffffff" "#94a3b8" "#fef9c3" "#a855f7" "#3b82f6" "#3b82f6" "#9333ea"
  end.

(** *** The derived step sequence *)

Definition numCols (d : TableData) : Z := Z.of_nat (length (columns d)).
Definition numAttributes (d : TableData) : Z := Z.max 1 (numCols d - 1).
Definition totalItems (d : TableData) : Z :=
  Z.of_nat (length (data d)) * numAttributes d.

(** [config.durationPerItem * 1000], in milliseconds. *)
Definition durationPerItemMs (c : AnimationConfig) : Q :=
  (durationPerItem c * 1000)%Q.
Definition totalDuration (d : TableData) (c : AnimationConfig) : Q :=
  (inject_Z (totalItems d) * durationPerItemMs c)%Q.
Definition endBuffer : Q := 3000%Q.
Definition totalRunTime (d : TableData) (c : AnimationConfig) : Q :=
  (totalDuration d c + endBuffer)%Q.

(** [Math.floor(elapsed / durationPerItem)].  The divisor is positive
    under the invariant [durationPerItem > 0] of [AnimationConfig]; the
    model does not follow the doubles outside it. *)
Definition rawStepIndex (c : AnimationConfig) (elapsed : Q) : Z :=
  Qfloor (elapsed / durationPerItemMs c).

(** [if (currentStepIndex >= totalSteps) currentStepIndex = totalSteps - 1] *)
Definition clampStep (totalSteps cur : Z) : Z :=
  if (cur >=? totalSteps)%Z then totalSteps - 1 else cur.

(** The step index that the frame is drawn for. *)
Definition stepIndex (d : TableData) (c : AnimationConfig) (elapsed : Q) : Z :=
  clampStep (totalItems d) (rawStepIndex c elapsed).

(** The guard of [audioSynth.triggerTransition()]. *)
Definition transitionDue (totalSteps lastStepIndex cur : Z) : bool :=
  (cur >? lastStepIndex)%Z && (cur <? totalSteps)%Z
  && negb (lastStepIndex =? -1)%Z.

(** [a % b] on numbers: the result has the sign of [a]. *)
Definition Qtrunc (x : Q) : Z :=
  if Qle_bool 0 x then Qfloor x else Qceiling x.
Definition Qrem (a b : Q) : Q := (a - b * inject_Z (Qtrunc (a / b)))%Q.

Definition rowIdx (d : TableData) (cur : Z) : Z := cur / numAttributes d.
Definition attrIdx (d : TableData) (cur : Z) : Z := Z.rem cur (numAttributes d).
Definition colIdx (d : TableData) (cur : Z) : Z :=
  if (numCols d >? 1)%Z then attrIdx d cur + 1 else 0.

(** [currentRow?.[i] || ""] *)
Definition cell (row : option (list string)) (i : Z) : string :=
  match row with
  | Some r => orEmpty (at_ r i)
  | None => ""
  end.

(** *** Drawing one frame *)

Local Open Scope draw_scope.
Local Open Scope Q_scope.

Definition canvasWidth : Q := 1080.
Definition canvasHeight : Q := 1080.

(** The values [x0, x0 + step, ...] below [limit], as the two grid
    loops enumerate them. *)
Fixpoint stepsBelow (fuel : nat) (x step limit : Q) : list Q :=
  match fuel with
  | O => []
  | S fuel' =>
      if JS.Qltb x limit then x :: stepsBelow fuel' (x + step) step limit
      else []
  end.

Definition gridCoords (limit : Q) : list Q :=
  stepsBelow (S (Z.to_nat (Qceiling (limit / 50)))) 0 50 limit.

(** The procedural background of a theme, drawn when there is no
    bitmap. *)
Definition drawFallbackBackground (t : Theme) : Draw unit :=
  match t with
  | COSMIC =>
      setFillStyle (LinearGradient 0 0 canvasWidth canvasHeight
                      [(0, "#0f172a"); (1, "#020617")]);;
      fillRect 0 0 canvasWidth canvasHeight
  | NEON =>
      setStrokeStyle "rgba(0, 255, 0, 0.15)";;
      setLineWidth 1;;
      forEach (gridCoords canvasWidth)
        (fun _ x => strokeLine x 0 x canvasHeight);;
      forEach (gridCoords canvasHeight)
        (fun _ y => strokeLine 0 y canvasWidth y)
  | _ => skip
  end.

Definition drawBackground (d : TableData) (c : AnimationConfig)
    (bgImage : option Image) (elapsed : Q) : Draw unit :=
  setFillStyle (Color (bg (getThemeConfig (theme c))));;
  fillRect 0 0 canvasWidth canvasHeight;;
  match bgImage with
  | Some img =>
      let sc := JS.Qmax (canvasWidth / imgWidth img)
                        (canvasHeight / imgHeight img) in
      let x := canvasWidth / 2 - (imgWidth img / 2) * sc in
      let y := canvasHeight / 2 - (imgHeight img / 2) * sc in
      let zoom := 1 + (elapsed / totalRunTime d c) * (1 # 10) in
      save;;
      translate (canvasWidth / 2) (canvasHeight / 2);;
      scale zoom zoom;;
      translate (- canvasWidth / 2) (- canvasHeight / 2);;
      drawImage img x y (imgWidth img * sc) (imgHeight img * sc);;
      restore;;
      setFillStyle (Color "rgba(0,0,0,0.6)");;
      fillRect 0 0 canvasWidth canvasHeight
  | None => drawFallbackBackground (theme c)
  end.

Section WithPlatform.

(** [String.prototype.toUpperCase] *)
Variable toUpperCase : string -> string.

Definition drawTitle (d : TableData) (c : AnimationConfig) : Draw unit :=
  let mainTitle := orEmpty (title d) in
  when (negb (String.eqb mainTitle ""))
    (setGlobalAlpha (8 # 10);;
     setFont (mkFont "bold" 28 (fontHeader (getThemeConfig (theme c))));;
     setFillStyle (Color "#cbd5e1");;
     setTextAlign "center";;
     setTextBaseline "top";;
     fillText (toUpperCase mainTitle) (canvasWidth / 2) 40).

(** The fade envelope of the attribute block. *)
Definition fadeTime : Q := 300.
Definition opacityAt (c : AnimationConfig) (stepTime : Q) : Q :=
  let o1 := if JS.Qltb stepTime fadeTime then stepTime / fadeTime else 1 in
  if JS.Qltb (durationPerItemMs c - fadeTime) stepTime
  then (durationPerItemMs c - stepTime) / fadeTime
  else o1.

(** What a layout sets on the context before it reads
    [subjectLabel.toUpperCase()]. *)
Definition subjectSetup (c : AnimationConfig) : Draw unit :=
  let ts := getThemeConfig (theme c) in
  if Layout_eqb (layout c) SPLIT then
    setTextAlign "right";;
    setGlobalAlpha (6 # 10);;
    setFont (mkFont "bold" 32 (fontHeader ts));;
    setFillStyle (Color "#93c5fd")
  else
    setTextAlign "center";;
    setTextBaseline "middle";;
    setGlobalAlpha (6 # 10);;
    setFont (mkFont "bold" 42 (fontHeader ts));;
    setFillStyle (Color "#93c5fd").

(** The subject block: label and value of column 0 of the row. *)
Definition drawSubject (d : TableData) (c : AnimationConfig)
    (subjectLabel subject : string) (cur : Z) (stepTime : Q) : Draw unit :=
  let ts := getThemeConfig (theme c) in
  if Layout_eqb (layout c) SPLIT then
    let midX := canvasWidth / 2 in
    fillText (toUpperCase subjectLabel) (midX - 50) (canvasHeight * (45 # 100));;
    setGlobalAlpha 1;;
    setFont (mkFont "900" 60 (fontMain ts));;
    setFillStyle (Color (subjectColor ts));;
    fillText subject (midX - 50) (canvasHeight * (52 # 100))
  else
    fillText (toUpperCase subjectLabel) (canvasWidth / 2)
      (canvasHeight * (26 # 100));;
    let isRowStart := (attrIdx d cur =? 0)%Z in
    let rising := isRowStart && JS.Qltb stepTime 500 in
    let p := stepTime / 500 in
    let subjectY :=
      if rising then canvasHeight * (44 # 100) + (1 - p) * 20
      else canvasHeight * (44 # 100) in
    let subjectOpacity := if rising then p else 1 in
    setGlobalAlpha subjectOpacity;;
    setFont (mkFont "900" 80 (fontMain ts));;
    setFillStyle (Color (subjectColor ts));;
    fillText subject (canvasWidth / 2) subjectY;;
    setGlobalAlpha 1;;
    setFillStyle (Color (lineColor1 ts));;
    fillRect ((canvasWidth - 200) / 2) (canvasHeight * (58 # 100)) 200 4.

(** The attribute block: header and wrapped value of the current
    attribute column.  It is the body of [if (numCols > 1)]. *)
Definition drawAttribute (c : AnimationConfig) (header value : string)
    (opacity : Q) : Draw unit :=
  let ts := getThemeConfig (theme c) in
  if Layout_eqb (layout c) SPLIT then
    let midX := canvasWidth / 2 in
    setTextAlign "left";;
    setGlobalAlpha opacity;;
    setFont (mkFont "italic 500" 40 (fontHeader ts));;
    setFillStyle (Color (headerColor ts));;
    fillText header (midX + 50) (canvasHeight * (45 # 100));;
    setFont (mkFont "bold" 50 (fontMain ts));;
    setFillStyle (Color (valueColor ts));;
    let* ctx := get in
    forEach (WordWrap.getLines ctx value 450)
      (fun i line =>
         fillText line (midX + 50)
           (canvasHeight * (52 # 100) + inject_Z i * 60))
  else
    setGlobalAlpha opacity;;
    setFont (mkFont "italic 500" 50 (fontHeader ts));;
    setFillStyle (Color (headerColor ts));;
    fillText header (canvasWidth / 2) (canvasHeight * (68 # 100));;
    setFont (mkFont "bold" 60 (fontMain ts));;
    setFillStyle (Color (valueColor ts));;
    let* ctx := get in
    forEach (WordWrap.getLines ctx value 900)
      (fun i line =>
         fillText line (canvasWidth / 2)
           (canvasHeight * (81 # 100) + inject_Z i * 80)).

(** The bar at the bottom.  [fillRect] with a width that is not
    finite draws nothing. *)
Definition drawProgressBar (d : TableData) (c : AnimationConfig)
    (elapsed : Q) : Draw unit :=
  when (showProgressBar c)
    (let barHeight := 20 in
     let barY := canvasHeight - barHeight in
     setGlobalAlpha 1;;
     setFillStyle (Color "#1e293b");;
     fillRect 0 barY canvasWidth barHeight;;
     let fillWidth := JS.mul_pos (JS.div elapsed (totalDuration d c)) canvasWidth in
     setFillStyle (Color (barColor1 (getThemeConfig (theme c))));;
     match JS.min_fin fillWidth canvasWidth with
     | JS.Fin w => fillRect 0 barY w barHeight
     | _ => skip
     end).

Definition drawLogo (logoImage : option Image) : Draw unit :=
  match logoImage with
  | Some img =>
      let logoSize := 80 in
      let pad := 30 in
      let lx := canvasWidth - logoSize - pad in
      let ly := pad in
      let imgAspect := imgWidth img / imgHeight img in
      let landscape := JS.Qltb 1 imgAspect in
      let drawW := if landscape then logoSize else logoSize * imgAspect in
      let drawH := if landscape then logoSize / imgAspect else logoSize in
      let dx := if landscape then lx else lx + (logoSize - drawW) / 2 in
      let dy := if landscape then ly + (logoSize - drawH) / 2 else ly in
      save;;
      setGlobalAlpha (9 # 10);;
      clipRoundedRect lx ly logoSize logoSize 12;;
      drawImage img dx dy drawW drawH;;
      restore
  | None => skip
  end.

(** *** The export session *)

Inductive RecorderState : Type := Recording | Inactive.

(** One drawn frame, by the part of [drawFrame] that issued the
    commands. *)
Record Frame : Type := mkFrame {
  stepShown : Z;                  (* [currentStepIndex] after the clamp *)
  background : list Cmd;
  titleBand : list Cmd;
  subjectBlock : list Cmd;
  attributeBlock : list Cmd;
  progressBar : list Cmd;
  logo : list Cmd
}.

(** The encoded output, as the frames that were captured. *)
Record Blob : Type := mkBlob {
  blobType : string;
  captured : list Frame
}.

(** The variables that [renderVideo] closes over, and what has been
    observed from outside: the frames put on the canvas, the calls of
    [onProgress], of [triggerTransition] and of [resolve]. *)
Record Session : Type := mkSession {
  ctx : Context;
  bgImage : option Image;
  logoImage : option Image;
  audioSynth : AudioSynth.State;
  recorder : RecorderState;
  startTime : option Q;
  lastStepIndex : Z;
  frameRequested : bool;          (* a [requestAnimationFrame] is pending *)
  frames : list Frame;
  progressReports : list JS.num;
  transitionCalls : nat;
  resolved : list Blob;
  uncaught : bool                 (* an exception left the callback *)
}.

(** The rest of the platform. *)
Variable random : nat -> Q.
Variable decodePcm : string -> option (list Q).
(** [loadImage(src)]: [None] when the promise rejects. *)
Variable loadImage : string -> option Image.
Variable metrics : Font -> string -> Q.
(** whether [canvas.getContext('2d')] returns a context *)
Variable hasContext : bool.
Variable audioInitial : AudioSynth.CtxState.

Definition exec {A} (m : Draw A) (cx : Context) : Context * list Cmd :=
  let '(_, cx', log) := m cx in (cx', log).



(** [recorder.stop()] with the [onstop] handler it leads to. *)
Definition recorderStop (s : Session) : Session :=
  match recorder s with
  | Recording =>
      mkSession (ctx s) (bgImage s) (logoImage s)
        (AudioSynth.stop (audioSynth s)) Inactive
        (startTime s) (lastStepIndex s) (frameRequested s) (frames s)
        (progressReports s) (transitionCalls s)
        (resolved s ++ [mkBlob "video/webm" (frames s)]) (uncaught s)
  | Inactive =>
      mkSession (ctx s) (bgImage s) (logoImage s) (audioSynth s) Inactive
        (startTime s) (lastStepIndex s) (frameRequested s) (frames s)
        (progressReports s) (transitionCalls s) (resolved s) true
  end.

(** [if (!startTime) startTime = timestamp]: [null] and [0] are both
    falsy. *)
Definition startOf (s : Session) (timestamp : Q) : Q :=
  match startTime s with
  | Some v => if Qeq_bool v 0 then timestamp else v
  | None => timestamp
  end.

(** The part of [drawFrame] below its [--- DRAWING ---] mark, for the
    step [cur] at [elapsed].  The flag tells whether the end of the
    callback was reached: with no column at all [subjectLabel] is
    [undefined] and [subjectLabel.toUpperCase()] throws. *)
Definition paintFrame (d : TableData) (c : AnimationConfig)
    (bgImg logoImg : option Image) (elapsed : Q) (cur : Z)
    (cx : Context) : Context * Frame * bool :=
  let stepTime := Qrem elapsed (durationPerItemMs c) in
  let currentRow := at_ (data d) (rowIdx d cur) in
  let subject := cell currentRow 0 in
  let header := orEmpty (at_ (columns d) (colIdx d cur)) in
  let value := cell currentRow (colIdx d cur) in
  let '(c1, bgLog) := exec (drawBackground d c bgImg elapsed) cx in
  let '(c2, titleLog) := exec (drawTitle d c) c1 in
  let '(c3, _) := exec (subjectSetup c) c2 in
  match at_ (columns d) 0 with
  | None => (c3, mkFrame cur bgLog titleLog [] [] [] [], false)
  | Some subjectLabel =>
      let '(c4, subjLog) :=
        exec (drawSubject d c subjectLabel subject cur stepTime) c3 in
      let '(c5, attrLog) :=
        exec (when (numCols d >? 1)%Z
                (drawAttribute c header value (opacityAt c stepTime))) c4 in
      let '(c6, barLog) := exec (drawProgressBar d c elapsed) c5 in
      let '(c7, logoLog) := exec (drawLogo logoImg) c6 in
      (c7, mkFrame cur bgLog titleLog subjLog attrLog barLog logoLog, true)
  end.

(** [drawFrame(timestamp)], run while the audio clock reads
    [audioNow]. *)
Definition drawFrame (d : TableData) (c : AnimationConfig)
    (timestamp audioNow : Q) (s : Session) : Session :=
  let start := startOf s timestamp in
  let elapsed := timestamp - start in
  if JS.Qltb (totalRunTime d c) elapsed then
    recorderStop
      (mkSession (ctx s) (bgImage s) (logoImage s) (audioSynth s)
         (recorder s) (Some start) (lastStepIndex s) false (frames s)
         (progressReports s) (transitionCalls s) (resolved s) (uncaught s))
  else
    let progress := JS.min_fin (JS.div elapsed (totalDuration d c)) 1 in
    let totalSteps := totalItems d in
    let raw := rawStepIndex c elapsed in
    let fire := transitionDue totalSteps (lastStepIndex s) raw in
    let audio' :=
      if fire then AudioSynth.triggerTransition audioNow (audioSynth s)
      else audioSynth s in
    let calls' := if fire then S (transitionCalls s) else transitionCalls s in
    let cur := clampStep totalSteps raw in
    let '(cx', frame, completed) :=
      paintFrame d c (bgImage s) (logoImage s) elapsed cur (ctx s) in
    (* [requestAnimationFrame(drawFrame)] is the last statement *)
    mkSession cx' (bgImage s) (logoImage s) audio' (recorder s)
      (Some start) raw completed (frames s ++ [frame])
      (progressReports s ++ [progress]) calls' (resolved s)
      (uncaught s || negb completed).

(** What the event loop delivers to the session. *)
Inductive Event : Type :=
| AnimationFrame (timestamp audioNow : Q)
| AudioTimeout (id : positive) (audioNow : Q).

Definition handle (d : TableData) (c : AnimationConfig) (e : Event)
    (s : Session) : Session :=
  match e with
  | AnimationFrame timestamp audioNow =>
      if frameRequested s then drawFrame d c timestamp audioNow s else s
  | AudioTimeout id audioNow =>
      mkSession (ctx s) (bgImage s) (logoImage s)
        (AudioSynth.timerFires random id audioNow (audioSynth s))
        (recorder s) (startTime s) (lastStepIndex s) (frameRequested s)
        (frames s) (progressReports s) (transitionCalls s) (resolved s)
        (uncaught s)
  end.

Definition run (d : TableData) (c : AnimationConfig) (es : list Event)
    (s : Session) : Session :=
  fold_left (fun st e => handle d c e st) es s.

End WithPlatform.

(** *** Notions used to state properties of a session *)

(** The timestamps of the animation frames among the events. *)
Fixpoint stamps (es : list Event) : list Q :=
  match es with
  | [] => []
  | AnimationFrame t _ :: rest => t :: stamps rest
  | AudioTimeout _ _ :: rest => stamps rest
  end.

(** [elapsed] as the callback computes it for a frame at [timestamp]. *)
Definition elapsedAt (s : Session) (timestamp : Q) : Q :=
  timestamp - startOf s timestamp.

(** The invariant [columns.length >= 1] of [TableData], as a boolean. *)
Definition hasColumns (d : TableData) : bool :=
  match columns d with [] => false | _ :: _ => true end.

(** Two sessions that differ at most in their audio engine. *)
Definition sameTimeline (s s' : Session) : Prop :=
  startTime s' = startTime s /\ lastStepIndex s' = lastStepIndex s
  /\ frameRequested s' = frameRequested s
  /\ transitionCalls s' = transitionCalls s
  /\ frames s' = frames s /\ progressReports s' = progressReports s
  /\ resolved s' = resolved s /\ recorder s' = recorder s
  /\ uncaught s' = uncaught s.



(** The context state a command was issued in. *)
Definition styleOf (cmd : Cmd) : Style :=
  match cmd with
  | FillRect st _ _ _ _ | FillText st _ _ _ | StrokeLine st _ _ _ _
  | DrawImage st _ _ _ _ _ => st
  end.

(** All commands of a frame, in the order they were issued. *)
Definition commands (f : Frame) : list Cmd :=
  background f ++ titleBand f ++ subjectBlock f ++ attributeBlock f
  ++ progressBar f ++ logo f.

(** The strings that a list of commands writes, in order. *)
Fixpoint texts (log : list Cmd) : list string :=
  match log with
  | [] => []
  | FillText _ text _ _ :: rest => text :: texts rest
  | _ :: rest => texts rest
  end.

(** A frame that writes what belongs to its step: the title in upper
    case when there is one, the label of column 0 and the subject of
    the row, and, with more than one column, the header of the column
    followed by lines that make up the value of the cell. *)
Definition showsCell (toUpperCase : string -> string) (d : TableData)
    (f : Frame) : Prop :=
  let cur := stepShown f in
  let row := at_ (data d) (rowIdx d cur) in
  texts (titleBand f)
  = (if truthy (title d) then [toUpperCase (orEmpty (title d))] else [])
  /\ (forall label,
        at_ (columns d) 0 = Some label ->
        texts (subjectBlock f) = [toUpperCase label; cell row 0])
  /\ ((1 < numCols d)%Z ->
      exists lines,
        texts (attributeBlock f)
        = orEmpty (at_ (columns d) (colIdx d cur)) :: lines
        /\ JS.join " " lines = cell row (colIdx d cur)).


(** The three phases of an export: the loop is running; the recorder
    was stopped and the promise resolved once; or the callback threw
    (only for a table without columns) and the loop died. *)
Definition phase (d : TableData) (s : Session) : Prop :=
  (frameRequested s = true /\ recorder s = Recording /\ resolved s = []
   /\ uncaught s = false)
  \/ (frameRequested s = false /\ recorder s = Inactive
      /\ length (resolved s) = 1%nat /\ uncaught s = false)
  \/ (frameRequested s = false /\ recorder s = Recording /\ resolved s = []
      /\ uncaught s = true /\ hasColumns d = false).

(** The session as [renderVideo] leaves it: nothing drawn or reported
    yet, the first frame requested. *)
Definition fresh (s : Session) : Prop :=
  startTime s = None /\ lastStepIndex s = (-1)%Z /\ frameRequested s = true
  /\ transitionCalls s = 0%nat /\ frames s = [] /\ progressReports s = []
  /\ resolved s = [] /\ recorder s = Recording /\ uncaught s = false.

End VideoRenderer.

(** ** The layout solver of [renderTableImage] (imageRenderer.ts)

    Heights are exact rationals in this module.  They are the heights
    of the program as long as the row padding is a whole number, that
    is until the surplus step divides; from there on the program
    rounds, and [ImageRenderer64] below follows it. *)

Module ImageRenderer.
Import Canvas Types.

Local Open Scope Q_scope.

Definition width : Q := 2160.
Definition height : Q := 2700.
Definition margin : Q := 100.
Definition contentWidth : Q := width - margin * 2.
Definition footerHeight : Q := 120.
Definition cellPadding : Q := 30.

Record TableLayout : Type := mkTableLayout {
  headerHeight : Q;
  rowHeights : list Q;
  totalHeight : Q;
  headerLines : list (list string);
  rowLines : list (list (list string))
}.

(** The three variables that the solver adjusts, and its counter. *)
Record Sizing : Type := mkSizing {
  fontSize : Z;
  headerFontSize : Z;
  rowPadding : Q;
  attempts : Z
}.

(** [Math.max(...xs)] for a non-empty [xs].  (For [xs = []] JavaScript
    gives [-Infinity]; that arises only for a table without columns,
    which the invariant [columns.length >= 1] excludes.) *)
Definition maxOf (xs : list Z) : Z :=
  match xs with
  | [] => 0
  | x :: rest => fold_left Z.max rest x
  end.

(** [xs.reduce((a, b) => a + b, 0)] *)
Definition sum (xs : list Q) : Q := fold_left Qplus xs 0.

Definition len {A} (l : list A) : Z := Z.of_nat (length l).

Section WithPlatform.

Variable metrics : Font -> string -> Q.
Variable toUpperCase : string -> string.

(** [getLines] under the font that was assigned to [ctx.font] just
    before the call. *)
Definition linesIn (f : Font) (text : string) (maxWidth : Q) : list string :=
  WordWrap.getLines
    {| cur := mkStyle (fillStyle defaultStyle) (strokeStyle defaultStyle)
                (lineWidth defaultStyle) (globalAlpha defaultStyle) f
                (textAlign defaultStyle) (textBaseline defaultStyle)
                (shadowBlur defaultStyle) (shadowColor defaultStyle)
                (transform defaultStyle) (clipRounded defaultStyle);
       saved := []; measureText := metrics |}
    text maxWidth.

Section WithTable.

Variable d : TableData.
Variable c : AnimationConfig.

Let themeStyle := VideoRenderer.getThemeConfig (theme c).

Definition titleLines : list string :=
  linesIn (mkFont "bold" 100 (VideoRenderer.fontHeader themeStyle))
    (toUpperCase (if truthy (title d) then orEmpty (title d) else "Data Table"))
    contentWidth.
Definition titleHeight : Q := inject_Z (len titleLines) * 120.

Definition summaryLines : list string :=
  if truthy (summary d)
  then linesIn (mkFont "italic" 40 (VideoRenderer.fontMain themeStyle))
         (orEmpty (summary d)) contentWidth
  else [].
Definition summaryHeight : Q :=
  if truthy (summary d) then inject_Z (len summaryLines) * 50 + 20 else 0.

Definition headerBlockHeight : Q := titleHeight + summaryHeight + 60.

Definition availableTableHeight : Q :=
  height - margin * 2 - headerBlockHeight - footerHeight.

Definition colCount : Z := len (columns d).
Definition colWidth : Q := contentWidth / inject_Z colCount.
Definition textWidth : Q := colWidth - cellPadding * 2.

(** The lines of the cells of one row: the first cell is measured
    in bold. *)
Fixpoint rowCellLines (fSize : Z) (idx : Z) (row : list string)
    : list (list string) :=
  match row with
  | [] => []
  | cell :: rest =>
      let f :=
        if (idx =? 0)%Z
        then mkFont "bold" fSize (VideoRenderer.fontMain themeStyle)
        else mkFont "" fSize (VideoRenderer.fontMain themeStyle) in
      linesIn f cell textWidth :: rowCellLines fSize (idx + 1) rest
  end.

(** [let maxLines = 1; ... if (lines.length > maxLines) maxLines = lines.length] *)
Definition maxLinesOf (cells : list (list string)) : Z :=
  fold_left (fun m lines => if (len lines >? m)%Z then len lines else m)
    cells 1%Z.

(** [calculateLayout(fSize, hFSize, rPad)] *)
Definition calculateLayout (fSize hFSize : Z) (rPad : Q) : TableLayout :=
  let lHeight := Qfloor (inject_Z fSize * (13 # 10)) in
  let hLHeight := Qfloor (inject_Z hFSize * (13 # 10)) in
  let hLines :=
    map (fun col =>
           linesIn (mkFont "bold" hFSize (VideoRenderer.fontHeader themeStyle))
             (toUpperCase col) textWidth)
        (columns d) in
  let maxHLines := maxOf (map len hLines) in
  let hHeight := inject_Z (maxHLines * hLHeight) + rPad in
  let rLines := map (rowCellLines fSize 0) (data d) in
  let rHeights :=
    map (fun cells =>
           JS.Qmax (inject_Z (maxLinesOf cells * lHeight) + rPad) 80)
        rLines in
  let totHeight := hHeight + sum rHeights in
  mkTableLayout hHeight rHeights totHeight hLines rLines.

Definition layoutOf (z : Sizing) : TableLayout :=
  calculateLayout (fontSize z) (headerFontSize z) (rowPadding z).

Definition initialSizing : Sizing := mkSizing 55 45 40 0.

(** The guard of the downscale loop. *)
Definition mustShrink (avail : Q) (z : Sizing) : bool :=
  JS.Qltb avail (totalHeight (layoutOf z))
  && (fontSize z >? 25)%Z && (attempts z <? 15)%Z.

(** The body of the downscale loop. *)
Definition shrinkStep (z : Sizing) : Sizing :=
  mkSizing (fontSize z - 3)
           (Z.max 25 (headerFontSize z - 2))
           (JS.Qmax 20 (rowPadding z - 4))
           (attempts z + 1).

(** [while (guard) body], unrolled at most [fuel] times. *)
Fixpoint shrinkLoop (fuel : nat) (avail : Q) (z : Sizing) : Sizing :=
  match fuel with
  | O => z
  | S fuel' =>
      if mustShrink avail z then shrinkLoop fuel' avail (shrinkStep z)
      else z
  end.

(** The loop from the initial sizing.  The counter stops it after
    fifteen rounds, so fifteen units of fuel are never used up. *)
Definition shrink (avail : Q) : Sizing := shrinkLoop 15 avail initialSizing.

(** The guard of the upscale step. *)
Definition mustUpscale (avail : Q) (z : Sizing) : bool :=
  JS.Qltb (totalHeight (layoutOf z)) (avail * (85 # 100)).

(** The padding added to every row and to the header. *)
Definition extraPadding (avail : Q) (z : Sizing) : Q :=
  let diff := avail - totalHeight (layoutOf z) in
  let extraPerItem := diff / inject_Z (len (data d) + 1) in
  JS.Qmin extraPerItem 80.

Definition upscale (avail : Q) (z : Sizing) : Sizing :=
  if mustUpscale avail z
  then mkSizing (fontSize z) (headerFontSize z)
         (rowPadding z + extraPadding avail z) (attempts z)
  else z.

(** The sizing and the table layout that [renderTableImage] draws,
    for a table area of height [avail]. *)
Definition solveFor (avail : Q) : Sizing * TableLayout :=
  let z := upscale avail (shrink avail) in
  (z, layoutOf z).

Definition solve : Sizing * TableLayout := solveFor availableTableHeight.

(** *** Notions used to state properties of the solver *)

(** The sizing that the downscale loop tries in round [k]: fonts
    [55 - 3k], from 55 down to the floor 25 at [k = 10]. *)
Definition scheduleAt (k : nat) : Sizing :=
  Nat.iter k shrinkStep initialSizing.

Definition tableHeight (z : Sizing) : Q := totalHeight (layoutOf z).

End WithTable.

End WithPlatform.

(** *** Drawing the title, the summary and the table

    The part of [renderTableImage] between the background and the
    footer.  While it measures, the function assigns [ctx.font] many
    times; every such assignment is overwritten before the next text
    is drawn, so only the other settings of the measuring part are
    kept here ([prepare]). *)

Section Drawing.

Variable metrics : Font -> string -> Q.
Variable toUpperCase : string -> string.
Variable d : TableData.
Variable c : AnimationConfig.

Let themeStyle := VideoRenderer.getThemeConfig (theme c).

Local Open Scope draw_scope.

Definition tableStartY : Q :=
  margin + headerBlockHeight metrics toUpperCase d c.

(** What the measuring part leaves on the context. *)
Definition prepare : Draw unit :=
  setTextAlign "center";;
  setTextBaseline "top";;
  setFont (mkFont "bold" 100 (VideoRenderer.fontHeader themeStyle));;
  setFillStyle (Color (VideoRenderer.subjectColor themeStyle));;
  when (Theme_eqb (theme c) NEON)
    (setShadowBlur 20;;
     setShadowColor (VideoRenderer.subjectColor themeStyle)).

(** [lines.forEach(line => { ctx.fillText(line, x, drawY); drawY += step })];
    the value is [drawY] after the loop. *)
Fixpoint drawLines (lines : list string) (x drawY step : Q) : Draw Q :=
  match lines with
  | [] => ret drawY
  | line :: rest =>
      fillText line x drawY;; drawLines rest x (drawY + step) step
  end.

(** The title and the summary; the value is [drawY] at the end. *)
Definition drawHeaderBlock : Draw Q :=
  setTextAlign "center";;
  setShadowBlur (if Theme_eqb (theme c) NEON then 20 else 0);;
  setFont (mkFont "bold" 100 (VideoRenderer.fontHeader themeStyle));;
  setFillStyle (Color (VideoRenderer.subjectColor themeStyle));;
  let* drawY :=
    drawLines (titleLines metrics toUpperCase d c) (width / 2) margin 120 in
  setShadowBlur 0;;
  if truthy (summary d) then
    setFont (mkFont "italic" 40 (VideoRenderer.fontMain themeStyle));;
    setFillStyle (Color (VideoRenderer.headerColor themeStyle));;
    drawLines (summaryLines metrics d c) (width / 2) (drawY + 20) 50
  else ret drawY.

(** [Math.floor(size * 1.3)], the line height of a font size. *)
Definition lineHeightOf (size : Z) : Z := Qfloor (inject_Z size * (13 # 10)).

(** The lines of one cell:
    [lines.forEach((line, lIdx) => ctx.fillText(line, x, startY + lIdx * lineHeight))]. *)
Definition drawCellLines (lines : list string) (x startY : Q)
    (lineHeight : Z) : Draw unit :=
  forEach lines
    (fun lIdx line => fillText line x (startY + inject_Z (lIdx * lineHeight))).

(** The left edge of the text of column [i]. *)
Definition cellX (i : Z) : Q :=
  margin + inject_Z i * colWidth d + cellPadding.

(** Where the table starts: centred in its area when it is smaller. *)
Definition tableTop (avail : Q) (L : TableLayout) : Q :=
  if JS.Qltb (totalHeight L) avail
  then tableStartY + (avail - totalHeight L) / 2
  else tableStartY.

(** The header band and its texts.  [headerLines] has one entry per
    column, so the lookup is defined. *)
Definition drawTableHeader (z : Sizing) (L : TableLayout) (tableY : Q)
    : Draw unit :=
  setFillStyle
    (Color (if Theme_eqb (theme c) NEON then "rgba(0, 255, 0, 0.1)"
            else "rgba(255, 255, 255, 0.08)"));;
  fillRect margin tableY contentWidth (headerHeight L);;
  setTextAlign "left";;
  setFillStyle (Color (VideoRenderer.headerColor themeStyle));;
  setFont (mkFont "bold" (headerFontSize z) (VideoRenderer.fontHeader themeStyle));;
  let hLHeight := lineHeightOf (headerFontSize z) in
  forEach (columns d)
    (fun i col =>
       match at_ (headerLines L) i with
       | Some lines =>
           let blockH := headerHeight L in
           let textH := inject_Z (len lines * hLHeight) in
           let startY := tableY + (blockH - textH) / 2 in
           drawCellLines lines (cellX i) startY hLHeight
       | None => skip
       end).

(** The font of a body cell: the first column is bold. *)
Definition cellFont (z : Sizing) (cIdx : Z) : Font :=
  if (cIdx =? 0)%Z
  then mkFont "bold" (fontSize z) (VideoRenderer.fontMain themeStyle)
  else mkFont "" (fontSize z) (VideoRenderer.fontMain themeStyle).

(** One cell of a body row of height [h] that starts at [tableY]. *)
Definition drawCell (z : Sizing) (tableY h : Q) (cIdx : Z)
    (lines : list string) : Draw unit :=
  let lHeight := lineHeightOf (fontSize z) in
  setFillStyle
    (Color (if (cIdx =? 0)%Z then VideoRenderer.subjectColor themeStyle
            else VideoRenderer.valueColor themeStyle));;
  setFont (cellFont z cIdx);;
  let textH := inject_Z (len lines * lHeight) in
  let startY := tableY + (h - textH) / 2 in
  drawCellLines lines (cellX cIdx) startY lHeight.

(** One body row: the zebra stripe of an even row, the separator at
    its bottom, and its cells.  [linesGrid] has one entry per cell. *)
Definition drawRow (z : Sizing) (rIdx : Z) (row : list string)
    (tableY h : Q) (linesGrid : list (list string)) : Draw unit :=
  when (Z.rem rIdx 2 =? 0)%Z
    (setFillStyle (Color "rgba(255, 255, 255, 0.03)");;
     fillRect margin tableY contentWidth h);;
  setFillStyle (Color "rgba(255, 255, 255, 0.1)");;
  fillRect margin (tableY + h - 1) contentWidth 1;;
  forEach row
    (fun cIdx cell =>
       match at_ linesGrid cIdx with
       | Some lines => drawCell z tableY h cIdx lines
       | None => skip
       end).

(** [data.data.forEach((row, rIdx) => { ...; tableY += h })]; the
    value is [tableY] after the last row.  [rowHeights] and [rowLines]
    have one entry per row. *)
Fixpoint drawRows (z : Sizing) (L : TableLayout) (rIdx : Z)
    (rows : list (list string)) (tableY : Q) : Draw Q :=
  match rows with
  | [] => ret tableY
  | row :: rest =>
      match at_ (rowHeights L) rIdx, at_ (rowLines L) rIdx with
      | Some h, Some linesGrid =>
          drawRow z rIdx row tableY h linesGrid;;
          drawRows z L (rIdx + 1) rest (tableY + h)
      | _, _ => ret tableY
      end
  end.

(** The table for a sizing, in an area of height [avail]. *)
Definition drawTable (avail : Q) (z : Sizing) : Draw Q :=
  let L := layoutOf metrics toUpperCase d c z in
  let tableY := tableTop avail L in
  drawTableHeader z L tableY;;
  drawRows z L 0 (data d) (tableY + headerHeight L).

(** Title, summary and table as [renderTableImage] draws them. *)
Definition drawContent : Draw Q :=
  prepare;;
  drawHeaderBlock;;
  drawTable (availableTableHeight metrics toUpperCase d c)
    (fst (solve metrics toUpperCase d c)).

End Drawing.

(** *** Notions used to state properties of the drawing *)

(** The vertical extent of a command, a text taking [lineHeight]
    below its top baseline. *)
Definition top (cmd : Cmd) : Q :=
  match cmd with
  | FillRect _ _ y _ _ | FillText _ _ _ y | StrokeLine _ _ y _ _
  | DrawImage _ _ _ y _ _ => y
  end.

Definition bottom (lineHeight : Q) (cmd : Cmd) : Q :=
  match cmd with
  | FillRect _ _ y _ h | DrawImage _ _ _ y _ h => y + h
  | FillText _ _ _ y => y + lineHeight
  | StrokeLine _ _ _ _ y1 => y1
  end.

(** A command that lies between the heights [lo] and [hi]. *)
Definition inBand (lineHeight lo hi : Q) (cmd : Cmd) : Prop :=
  lo <= top cmd /\ bottom lineHeight cmd <= hi.

(** A block of text: the commands [log] write the lines [lines] and
    nothing else, in order, in the font [f], each at [x], the first
    at the height [drawY] and every next one [step] below the one
    before. *)
Fixpoint linesAt (f : Font) (x step : Q) (lines : list string) (drawY : Q)
    (log : list Cmd) : Prop :=
  match lines, log with
  | [], [] => True
  | line :: rest, FillText st text x' y :: log' =>
      text = line /\ font st = f /\ x' = x /\ y == drawY
      /\ linesAt f x step rest (drawY + step) log'
  | _, _ => False
  end.

(** The line height that goes with the font a command was issued in,
    and a command that lies between [lo] and [hi], a text with the
    line height of its font. *)
Definition lineHeightIn (cmd : Cmd) : Q :=
  inject_Z (lineHeightOf (fontPx (font (VideoRenderer.styleOf cmd)))).

Definition within (lo hi : Q) (cmd : Cmd) : Prop :=
  inBand (lineHeightIn cmd) lo hi cmd.

End ImageRenderer.

(** ** The layout solver in the doubles of the program

    The measuring and solving part of [renderTableImage] once more
    (the statements from [ctx.textAlign = 'center'] to the end of the
    upscale step), with every number that the source computes with
    [+], [-], [*], [/], [Math.max] and [Math.min] a binary64 value and
    every operation rounded as IEEE 754 rounds it.  Font sizes, line
    counts and the attempt counter are integers far below 2^53, which
    doubles hold exactly; they stay in [Z] and are converted where the
    source mixes them with other numbers.  [measureText(...).width]
    is a double that the platform returns. *)

Module Binary64.
Import Corelib.Floats.PrimFloat.

(** The double of an integer (exact below 2^53). *)
Definition ofZ (n : Z) : float :=
  if (n <? 0)%Z then (- of_uint63 (Uint63.of_Z (- n)))%float
  else of_uint63 (Uint63.of_Z n).

(** [Math.floor] of a finite double, as an integer: the value of a
    finite double is [m * 2^e], and a shift by a negative [e] rounds
    down.  (For [NaN] and the infinities [Math.floor] returns its
    argument; the solver floors products of a font size and 1.3
    only.) *)
Definition floor (x : float) : Z :=
  match FloatOps.Prim2SF x with
  | SpecFloat.S754_finite s m e =>
      Z.shiftl (if s then Z.neg m else Z.pos m) e
  | _ => 0%Z
  end.

(** [Math.max] and [Math.min] of two numbers (the sign of a zero
    result aside). *)
Definition max (a b : float) : float :=
  if (is_nan a || is_nan b)%bool then nan
  else if (a <? b)%float then b else a.

Definition min (a b : float) : float :=
  if (is_nan a || is_nan b)%bool then nan
  else if (b <? a)%float then b else a.

(** [xs.reduce((a, b) => a + b, 0)] *)
Definition sum (xs : list float) : float := fold_left add xs 0%float.

End Binary64.

Module ImageRenderer64.
Import Canvas Types.
Import Corelib.Floats.PrimFloat.

#[local] Set Warnings "-inexact-float".
Local Open Scope float_scope.

Definition width : float := 2160.
Definition height : float := 2700.
Definition margin : float := 100.
Definition contentWidth : float := width - (margin * 2).
Definition footerHeight : float := 120.
Definition cellPadding : float := 30.

Record TableLayout : Type := mkTableLayout {
  headerHeight : float;
  rowHeights : list float;
  totalHeight : float;
  headerLines : list (list string);
  rowLines : list (list (list string))
}.

(** The three variables that the solver adjusts, and its counter. *)
Record Sizing : Type := mkSizing {
  fontSize : Z;
  headerFontSize : Z;
  rowPadding : float;
  attempts : Z
}.

(** [Math.max(...xs)] of line counts; [-Infinity] for no column. *)
Definition maxOf (xs : list Z) : float :=
  match xs with
  | [] => neg_infinity
  | _ :: _ => Binary64.ofZ (ImageRenderer.maxOf xs)
  end.

(** [getLines] with the widths that [measureText] returns under the
    current font. *)
Fixpoint getLines_loop (measure : string -> float) (maxWidth : float)
    (words : list string) (currentLine : string) (lines : list string)
    : list string :=
  match words with
  | [] => (lines ++ [currentLine])%list
  | word :: rest =>
      let w := measure (currentLine ++ " " ++ word)%string in
      if w <? maxWidth
      then getLines_loop measure maxWidth rest
             (currentLine ++ " " ++ word)%string lines
      else getLines_loop measure maxWidth rest word
             (lines ++ [currentLine])%list
  end.

Definition getLines (measure : string -> float) (text : string)
    (maxWidth : float) : list string :=
  match JS.split " " text with
  | [] => []   (* not reached: [split] never returns the empty array *)
  | w0 :: ws => getLines_loop measure maxWidth ws w0 []
  end.

Section WithPlatform.

Variable metrics : Font -> string -> float.
Variable toUpperCase : string -> string.

Section WithTable.

Variable d : TableData.
Variable c : AnimationConfig.

Let themeStyle := VideoRenderer.getThemeConfig (theme c).

Definition titleLines : list string :=
  getLines (metrics (mkFont "bold" 100 (VideoRenderer.fontHeader themeStyle)))
    (toUpperCase (if truthy (title d) then orEmpty (title d) else "Data Table"))
    contentWidth.
Definition titleHeight : float :=
  Binary64.ofZ (ImageRenderer.len titleLines) * 120.

Definition summaryLines : list string :=
  if truthy (summary d)
  then getLines
         (metrics (mkFont "italic" 40 (VideoRenderer.fontMain themeStyle)))
         (orEmpty (summary d)) contentWidth
  else [].
Definition summaryHeight : float :=
  if truthy (summary d)
  then Binary64.ofZ (ImageRenderer.len summaryLines) * 50 + 20
  else 0.

Definition headerBlockHeight : float := titleHeight + summaryHeight + 60.

Definition availableTableHeight : float :=
  height - (margin * 2) - headerBlockHeight - footerHeight.

Definition colCount : Z := ImageRenderer.len (columns d).
Definition colWidth : float := contentWidth / Binary64.ofZ colCount.
Definition textWidth : float := colWidth - (cellPadding * 2).

(** The lines of the cells of one row: the first cell is measured
    in bold. *)
Fixpoint rowCellLines (fSize : Z) (idx : Z) (row : list string)
    : list (list string) :=
  match row with
  | [] => []
  | cell :: rest =>
      let f :=
        if (idx =? 0)%Z
        then mkFont "bold" fSize (VideoRenderer.fontMain themeStyle)
        else mkFont "" fSize (VideoRenderer.fontMain themeStyle) in
      getLines (metrics f) cell textWidth :: rowCellLines fSize (idx + 1) rest
  end.

(** [calculateLayout(fSize, hFSize, rPad)] *)
Definition calculateLayout (fSize hFSize : Z) (rPad : float) : TableLayout :=
  let lHeight := Binary64.floor (Binary64.ofZ fSize * 1.3) in
  let hLHeight := Binary64.floor (Binary64.ofZ hFSize * 1.3) in
  let hLines :=
    map (fun col =>
           getLines
             (metrics (mkFont "bold" hFSize (VideoRenderer.fontHeader themeStyle)))
             (toUpperCase col) textWidth)
        (columns d) in
  let maxHLines := maxOf (map ImageRenderer.len hLines) in
  let hHeight := (maxHLines * Binary64.ofZ hLHeight) + rPad in
  let rLines := map (rowCellLines fSize 0) (data d) in
  let rHeights :=
    map (fun cells =>
           Binary64.max
             ((Binary64.ofZ (ImageRenderer.maxLinesOf cells)
               * Binary64.ofZ lHeight) + rPad)
             80)
        rLines in
  let totHeight := hHeight + Binary64.sum rHeights in
  mkTableLayout hHeight rHeights totHeight hLines rLines.

Definition layoutOf (z : Sizing) : TableLayout :=
  calculateLayout (fontSize z) (headerFontSize z) (rowPadding z).

Definition initialSizing : Sizing := mkSizing 55 45 40 0.

(** [tableLayout.totalHeight > availableTableHeight] *)
Definition exceeds (avail : float) (z : Sizing) : bool :=
  avail <? totalHeight (layoutOf z).

(** The guard of the downscale loop. *)
Definition mustShrink (avail : float) (z : Sizing) : bool :=
  exceeds avail z && (fontSize z >? 25)%Z && (attempts z <? 15)%Z.

(** The body of the downscale loop. *)
Definition shrinkStep (z : Sizing) : Sizing :=
  mkSizing (fontSize z - 3)%Z
           (Z.max 25 (headerFontSize z - 2))
           (Binary64.max 20 (rowPadding z - 4))
           (attempts z + 1)%Z.

(** [while (guard) body], unrolled at most [fuel] times. *)
Fixpoint shrinkLoop (fuel : nat) (avail : float) (z : Sizing) : Sizing :=
  match fuel with
  | O => z
  | S fuel' =>
      if mustShrink avail z then shrinkLoop fuel' avail (shrinkStep z)
      else z
  end.

(** The loop from the initial sizing.  The counter stops it after
    fifteen rounds, so fifteen units of fuel are never used up. *)
Definition shrink (avail : float) : Sizing := shrinkLoop 15 avail initialSizing.

(** The guard of the upscale step. *)
Definition mustUpscale (avail : float) (z : Sizing) : bool :=
  totalHeight (layoutOf z) <? avail * 0.85.

(** [Math.min(extraPerItem, 80)] *)
Definition extraPadding (avail : float) (z : Sizing) : float :=
  let diff := avail - totalHeight (layoutOf z) in
  let extraPerItem :=
    diff / Binary64.ofZ (ImageRenderer.len (data d) + 1) in
  Binary64.min extraPerItem 80.

Definition upscale (avail : float) (z : Sizing) : Sizing :=
  if mustUpscale avail z
  then mkSizing (fontSize z) (headerFontSize z)
         (rowPadding z + extraPadding avail z) (attempts z)
  else z.

(** The sizing and the table layout that [renderTableImage] draws,
    for a table area of height [avail]. *)
Definition solveFor (avail : float) : Sizing * TableLayout :=
  let z := upscale avail (shrink avail) in
  (z, layoutOf z).

Definition solve : Sizing * TableLayout := solveFor availableTableHeight.

(** The sizing that the downscale loop tries in round [k]: fonts
    [55 - 3k], from 55 down to the floor 25 at [k = 10]. *)
Definition scheduleAt (k : nat) : Sizing :=
  Nat.iter k shrinkStep initialSizing.

End WithTable.

End WithPlatform.

End ImageRenderer64.

(** ** The handlers of the application shell (App.tsx) *)

Module App.
Import Types.

(** [Math.round(x)]: the integer nearest to [x], a tie going up; a
    value that is not finite is returned as it is. *)
Definition round (x : JS.num) : JS.num :=
  match x with
  | JS.Fin q => JS.Fin (inject_Z (Qfloor (q + (1 # 2))))
  | other => other
  end.

(** The progress callback that [handleExportVideo] hands to
    [renderVideo]: the argument of [setExportProgress] is
    [Math.round(progress * 100)]. *)
Definition exportPercent (progress : JS.num) : JS.num :=
  round (JS.mul_pos progress 100).

(** [Object.values] of the three enums, in the order of their
    declarations. *)
Definition themes : list Theme := [COSMIC; NEON; LUXE; GLASS].
Definition styles : list AnimationStyle := [FADE_UP; SLIDE_RIGHT; POP].
Definition layouts : list Layout :=
  [STACKED; SPLIT; DIAGONAL; MAGAZINE; LOWER_THIRD].

(** [xs[Math.floor(r * xs.length)]] *)
Definition pick {A} (xs : list A) (r : Q) : option A :=
  at_ xs (Qfloor (r * inject_Z (Z.of_nat (length xs)))).

(** [handleRandomizeDesign], for the three values [r1], [r2], [r3]
    that [Math.random()] returns to it.  [None] stands for a
    configuration in which one of the three fields is [undefined]. *)
Definition handleRandomizeDesign (r1 r2 r3 : Q) (prev : AnimationConfig)
    : option AnimationConfig :=
  match pick themes r1, pick styles r2, pick layouts r3 with
  | Some randomTheme, Some randomStyle, Some randomLayout =>
      Some (mkAnimationConfig randomStyle randomTheme randomLayout
              (rowDelay prev) (highlightActive prev) (showProgressBar prev)
              (durationPerItem prev) (backgroundImage prev)
              (backgroundImagePrompt prev) (showAppName prev)
              (showAiWatermark prev))
  | _, _, _ => None
  end.

End App.

(** ** The preview component (TablePreview)

    The component keeps one state variable, [currentStep], which an
    interval advances while [isPlaying] holds, and derives what it
    shows from it ([activeInfo]).  [numCols], [numAttributes] and
    [totalSteps] are computed by the expressions of the export. *)

Module Preview.
Import Types.

Definition totalSteps (d : TableData) : Z := VideoRenderer.totalItems d.

Record ActiveInfo : Type := mkActiveInfo {
  rowIdx : Z;
  colIdx : Z;
  subject : string;
  header : string;
  value : string;
  progress : Q
}.

(** The memoised [activeInfo]; [None] is its [null]. *)
Definition activeInfo (d : TableData) (currentStep : Z) : option ActiveInfo :=
  if (Z.of_nat (length (data d)) =? 0)%Z then None
  else
    let numAttributes := VideoRenderer.numAttributes d in
    let safeStep := Z.min currentStep (totalSteps d - 1) in
    let rowIdx := (safeStep / numAttributes)%Z in
    let attrIdx := Z.rem safeStep numAttributes in
    let colIdx := if (VideoRenderer.numCols d >? 1)%Z then attrIdx + 1 else 0 in
    let currentRow := at_ (data d) rowIdx in
    Some (mkActiveInfo rowIdx colIdx
            (VideoRenderer.cell currentRow 0)
            (orEmpty (at_ (columns d) colIdx))
            (VideoRenderer.cell currentRow colIdx)
            (inject_Z (safeStep + 1) / inject_Z (totalSteps d))).

(** The state of a playback: the step shown, whether the interval is
    still set, how often [setTimeout(onAnimationComplete, ...)] was
    called, and how often the sound effect called
    [triggerTransition()]. *)
Record Player : Type := mkPlayer {
  currentStep : Z;
  interval : bool;
  completions : nat;
  transitions : nat
}.

(** The timer effect when [isPlaying] becomes true:
    [setCurrentStep(0)] and [setInterval]. *)
Definition play : Player := mkPlayer 0 true 0 0.

(** One callback of the interval.  The updater handed to
    [setCurrentStep] is applied to the step that the callback before
    it left; when it changes the step, the sound effect runs for the
    new value ([isPlaying && currentStep > 0 && audioRef.current],
    the audio effect having created the engine when the playback
    began).  A cleared interval calls back no more. *)
Definition tick (d : TableData) (p : Player) : Player :=
  if interval p then
    let prev := currentStep p in
    let next := prev + 1 in
    if (next >=? totalSteps d)%Z
    then mkPlayer prev false (S (completions p)) (transitions p)
    else mkPlayer next true (completions p)
           (if (next >? 0)%Z then S (transitions p) else transitions p)
  else p.

(** The playback after [k] periods of the interval. *)
Definition ticks (d : TableData) (k : nat) : Player := Nat.iter k (tick d) play.

End Preview.

(** ** Concrete inputs *)

Module Examples.
Import Canvas Types.
Import Corelib.Floats.PrimFloat.

(** A platform: upper case for ASCII letters, a monospaced text
    measure of six tenths of the font size per character, a constant
    random source, no narration decoder, and an image loader that
    fails for every reference. *)
Definition upperChar (ch : ascii) : ascii :=
  let n := nat_of_ascii ch in
  if (Nat.leb 97 n && Nat.leb n 122)%bool then ascii_of_nat (n - 32) else ch.

Fixpoint upper (s : string) : string :=
  match s with
  | EmptyString => EmptyString
  | String ch rest => String (upperChar ch) (upper rest)
  end.

Definition metrics (f : Font) (s : string) : Q :=
  inject_Z (fontPx f * Z.of_nat (String.length s)) * (6 # 10).

Definition random (n : nat) : Q := 1 # 4.
Definition decodePcm (b : string) : option (list Q) := None.

(** A narration decoder that yields two samples for every input. *)
Definition decodeTwo (b : string) : option (list Q) := Some [0; 1 # 2]%Q.

(** An engine that plays, with one narration replaced by another. *)
Definition narrated : list AudioSynth.Call :=
  [AudioSynth.CallStart 0;
   AudioSynth.CallPlaySpeech "AAAA" 0;
   AudioSynth.CallPlaySpeech "BBBB" 1]%Q.

Definition config : AnimationConfig :=
  mkAnimationConfig FADE_UP COSMIC STACKED 1 true true 2 None None true false.


(** Scenario A of the specification. *)
Definition scenarioA : TableData :=
  mkTableData None ["X"; "Y"] [["a"; "1"]; ["b"; "2"]] None None.

(** Eleven rows of one-word cells under two columns. *)
Definition elevenRows : TableData :=
  mkTableData None ["X"; "Y"] (repeat ["a"; "1"] 11) None None.

(** The monospaced text measure in doubles. *)
Definition metrics64 (f : Font) (s : string) : float :=
  (Binary64.ofZ (fontPx f * Z.of_nat (String.length s))
   * 0x1.3333333333333p-1)%float.

(** Twenty-five rows of one-word cells under two columns: a table
    that the solver has to shrink. *)
Definition twentyFiveRows : TableData :=
  mkTableData None ["X"; "Y"] (repeat ["a"; "1"] 25) None None.

(** Scenario B: no attribute column. *)
Definition scenarioB : TableData :=
  mkTableData None ["X"] [["a"]; ["b"]] None None.

(** An empty dataset. *)
Definition emptyTable : TableData :=
  mkTableData None ["X"] [] None None.

(** The session that [renderVideo] sets up, before any audio. *)
Definition session0 : VideoRenderer.Session :=
  VideoRenderer.mkSession (newContext metrics) None None
    (AudioSynth.create true AudioSynth.Running) VideoRenderer.Recording
    None (-1) true [] [] 0%nat [] false.

(** A playback of scenario A: frames at 0, 1, 2, 4 and 7.1 seconds
    after the first one, and one audio timeout in between. *)
Definition playbackA : list VideoRenderer.Event :=
  [VideoRenderer.AnimationFrame 100 0;
   VideoRenderer.AudioTimeout 1 (1 # 10);
   VideoRenderer.AnimationFrame 1100 1;
   VideoRenderer.AnimationFrame 2100 2;
   VideoRenderer.AnimationFrame 4100 4;
   VideoRenderer.AnimationFrame 7200 (71 # 10)]%Q.

Definition beforeEnd : list VideoRenderer.Event :=
  [VideoRenderer.AnimationFrame 100 0;
   VideoRenderer.AnimationFrame 2100 2]%Q.

End Examples.

(** * Properties *)

(** ** Splitting and joining *)

Section SplitJoin.

Lemma split_nonempty (sep : ascii) (s : string) : JS.split sep s <> [].
Proof.
  destruct s as [|ch rest]; simpl; [discriminate|].
  destruct (Ascii.eqb ch sep); [discriminate|].
  destruct (JS.split sep rest); discriminate.
Qed.

Lemma concat_cons2 (sep a b : string) (l : list string) :
  String.concat sep (a :: b :: l)
  = (a ++ sep ++ String.concat sep (b :: l))%string.
Proof. reflexivity. Qed.

Lemma string_app_cons (ch : ascii) (a b : string) :
  (String ch a ++ b)%string = String ch (a ++ b)%string.
Proof. reflexivity. Qed.

Lemma string_app_assoc (a b c : string) :
  ((a ++ b) ++ c)%string = (a ++ (b ++ c))%string.
Proof.
  induction a as [|ch a IH]; [reflexivity|].
  rewrite !string_app_cons. f_equal. exact IH.
Qed.

Lemma concat_head (sep : string) (ch : ascii) (w : string) (ws : list string) :
  String.concat sep (String ch w :: ws) = String ch (String.concat sep (w :: ws)).
Proof. destruct ws; reflexivity. Qed.

(** Splitting on a character and joining on it again gives the string
    back. *)
Lemma join_split (sep : ascii) (s : string) :
  JS.join (String sep EmptyString) (JS.split sep s) = s.
Proof.
  unfold JS.join. induction s as [|ch rest IH]; simpl; [reflexivity|].
  destruct (Ascii.eqb_spec ch sep) as [->|Hne].
  - pose proof (split_nonempty sep rest) as Hn.
    destruct (JS.split sep rest) as [|w ws]; [contradiction|].
    rewrite concat_cons2, IH. reflexivity.
  - pose proof (split_nonempty sep rest) as Hn.
    destruct (JS.split sep rest) as [|w ws]; [contradiction|].
    rewrite concat_head, IH. reflexivity.
Qed.

(** No piece of a split contains the separator. *)
Lemma split_pieces (sep : ascii) (s : string) :
  Forall (fun w => JS.includes sep w = false) (JS.split sep s).
Proof.
  induction s as [|ch rest IH]; simpl.
  - constructor; [reflexivity | constructor].
  - destruct (Ascii.eqb_spec ch sep) as [->|Hne].
    + constructor; [reflexivity | exact IH].
    + destruct (JS.split sep rest) as [|w ws].
      * constructor; [|constructor]. simpl.
        destruct (Ascii.eqb_spec ch sep); [contradiction | reflexivity].
      * inversion IH as [|? ? Hw Hws]; subst.
        constructor; [|exact Hws]. simpl.
        destruct (Ascii.eqb_spec ch sep); [contradiction | exact Hw].
Qed.

(** Merging two neighbours with the separator does not change the
    joined text. *)
Lemma concat_merge (sep a b : string) (pre post : list string) :
  String.concat sep (pre ++ (a ++ sep ++ b)%string :: post)
  = String.concat sep (pre ++ a :: b :: post).
Proof.
  induction pre as [|p pre IH].
  - simpl app. destruct post as [|q post].
    + reflexivity.
    + rewrite !concat_cons2. now rewrite !string_app_assoc.
  - destruct pre as [|p' pre].
    + simpl app in *. rewrite (concat_cons2 sep p a).
      rewrite concat_cons2. now rewrite IH.
    + simpl app in *. rewrite !(concat_cons2 sep p p'). now rewrite IH.
Qed.

(** A string without the separator is its own only piece. *)
Lemma split_single (sep : ascii) (s : string) :
  JS.includes sep s = false -> JS.split sep s = [s].
Proof.
  induction s as [|ch rest IH]; simpl; [reflexivity|].
  destruct (Ascii.eqb ch sep) eqn:E; simpl; [discriminate|].
  intros H. rewrite (IH H). reflexivity.
Qed.

End SplitJoin.

(** ** The word wrap *)

Section WordWrapFacts.
Import Canvas WordWrap.

Variable ctx : Context.
Variable maxWidth : Q.

Lemma Qltb_lt (a b : Q) : JS.Qltb a b = true <-> (a < b)%Q.
Proof.
  unfold JS.Qltb. rewrite negb_true_iff.
  split; intros H.
  - apply Qnot_le_lt. intros Hle. apply Qle_bool_iff in Hle. congruence.
  - destruct (Qle_bool b a) eqn:E; [|reflexivity].
    apply Qle_bool_iff in E. exfalso. exact (Qlt_not_le _ _ H E).
Qed.

Lemma Qltb_ge (a b : Q) : JS.Qltb a b = false <-> (b <= a)%Q.
Proof.
  unfold JS.Qltb. rewrite negb_false_iff. apply Qle_bool_iff.
Qed.

Lemma getLines_loop_join (ws : list string) :
  forall cur lines,
    JS.join " " (getLines_loop ctx maxWidth ws cur lines)
    = JS.join " " (lines ++ cur :: ws).
Proof.
  unfold JS.join.
  induction ws as [|w ws IH]; intros cur lines; simpl; [reflexivity|].
  destruct (JS.Qltb _ maxWidth).
  - rewrite IH. apply concat_merge.
  - rewrite IH. now rewrite <- app_assoc.
Qed.

(** A line is fine when it is narrower than the limit, or when it is
    one of the words. *)
Local Notation "'fits' line" := (width ctx line < maxWidth)%Q (at level 10).

Lemma getLines_loop_lines (single : string -> Prop) (ws : list string) :
  forall cur lines,
    Forall single ws ->
    fits cur \/ single cur ->
    Forall (fun l => fits l \/ single l) lines ->
    Forall (fun l => fits l \/ single l)
           (getLines_loop ctx maxWidth ws cur lines).
Proof.
  induction ws as [|w ws IH]; intros cur lines Hws Hcur Hlines; simpl.
  - apply Forall_app; split; [exact Hlines|]. constructor; [exact Hcur | constructor].
  - inversion Hws as [|? ? Hw Hrest]; subst.
    destruct (JS.Qltb _ maxWidth) eqn:E.
    + apply IH; [exact Hrest | | exact Hlines].
      left. apply Qltb_lt. exact E.
    + apply IH; [exact Hrest | right; exact Hw |].
      apply Forall_app; split; [exact Hlines|].
      constructor; [exact Hcur | constructor].
Qed.

(** Text without a space is never wrapped. *)
Lemma getLines_single (text : string) :
  JS.includes " " text = false -> getLines ctx text maxWidth = [text].
Proof.
  intros H. unfold getLines. rewrite (split_single " " text H). reflexivity.
Qed.

End WordWrapFacts.

(** C4.  For every text, every limit and every measure, the lines that
    [getLines] produces, joined by single spaces, are the text again; and
    each line is at most as wide as the limit unless it is a single word
    of the text (a piece without a space, which cannot be split), which
    then stands on a line of its own. *)
Theorem getLines_wraps_and_reconstructs :
  forall (ctx : Canvas.Context) (text : string) (maxWidth : Q),
    JS.join " " (WordWrap.getLines ctx text maxWidth) = text
    /\ Forall (fun line =>
                 (Canvas.width ctx line <= maxWidth)%Q
                 \/ (JS.includes " " line = false
                     /\ In line (JS.split " " text)))
              (WordWrap.getLines ctx text maxWidth).
Proof.
  intros ctx text maxWidth. unfold WordWrap.getLines.
  pose proof (split_nonempty " " text) as Hne.
  pose proof (join_split " " text) as Hjoin.
  pose proof (split_pieces " " text) as Hpieces.
  destruct (JS.split " " text) as [|w0 ws] eqn:Hsplit; [contradiction|].
  split.
  - rewrite getLines_loop_join. exact Hjoin.
  - set (single := fun l : string =>
                     JS.includes " " l = false /\ In l (w0 :: ws)).
    assert (Hall : Forall single (w0 :: ws)).
    { apply List.Forall_forall. intros l Hl. split; [|exact Hl].
      rewrite List.Forall_forall in Hpieces. now apply Hpieces. }
    inversion Hall as [|? ? H0 Hrest]; subst.
    pose proof (getLines_loop_lines ctx maxWidth single ws w0 []
                  Hrest (or_intror H0) (List.Forall_nil _)) as H.
    eapply List.Forall_impl; [|exact H].
    intros l [Hfit|Hs]; [left | right; exact Hs].
    apply Qlt_le_weak. exact Hfit.
Qed.

(** ** The timeline: from elapsed time to the step on screen *)

Section StepIndex.
Import Types VideoRenderer.

Variable d : TableData.
Variable c : AnimationConfig.
Hypothesis duration_pos : (0 < durationPerItem c)%Q.

Lemma durationMs_pos : (0 < durationPerItemMs c)%Q.
Proof. unfold durationPerItemMs. lra. Qed.

Lemma rawStepIndex_mono (e1 e2 : Q) :
  (e1 <= e2)%Q -> rawStepIndex c e1 <= rawStepIndex c e2.
Proof.
  intros H. unfold rawStepIndex. apply Qfloor_resp_le.
  unfold Qdiv. apply Qmult_le_compat_r; [exact H|].
  apply Qlt_le_weak, Qinv_lt_0_compat, durationMs_pos.
Qed.

Lemma rawStepIndex_zero (e : Q) : (e == 0)%Q -> rawStepIndex c e = 0.
Proof.
  intros H. unfold rawStepIndex. rewrite H.
  unfold Qdiv. rewrite Qmult_0_l. reflexivity.
Qed.

Lemma rawStepIndex_nonneg (e : Q) : (0 <= e)%Q -> 0 <= rawStepIndex c e.
Proof.
  intros H. rewrite <- (rawStepIndex_zero 0) by reflexivity.
  now apply rawStepIndex_mono.
Qed.

(** A frame later than the run time lies beyond the last step. *)
Lemma rawStepIndex_after_run (e : Q) :
  (totalRunTime d c < e)%Q -> totalItems d <= rawStepIndex c e.
Proof.
  intros H. unfold rawStepIndex.
  rewrite <- (Qfloor_Z (totalItems d)). apply Qfloor_resp_le.
  pose proof durationMs_pos as Hpos.
  apply Qle_shift_div_l; [exact Hpos|].
  unfold totalRunTime, totalDuration, endBuffer in H. lra.
Qed.

Lemma clampStep_min (t cur : Z) : clampStep t cur = Z.min (t - 1) cur.
Proof. unfold clampStep. destruct (Z.geb_spec cur t); lia. Qed.

End StepIndex.

(** ** One frame *)

Section FrameFacts.
Import Canvas Types VideoRenderer.

Variable toUpperCase : string -> string.
Variable d : TableData.
Variable c : AnimationConfig.

Ltac split_execs :=
  repeat match goal with
         | |- context [exec ?m ?x] =>
             let cx := fresh "cx" in
             let log := fresh "log" in
             let E := fresh "E" in
             destruct (exec m x) as [cx log] eqn:E
         end.

Lemma at_0_columns :
  at_ (columns d) 0 = match columns d with [] => None | x :: _ => Some x end.
Proof. unfold at_. simpl. destruct (columns d); reflexivity. Qed.

Lemma paintFrame_completed bgImg logoImg elapsed cur cx :
  snd (paintFrame toUpperCase d c bgImg logoImg elapsed cur cx) = hasColumns d.
Proof.
  unfold paintFrame, hasColumns. rewrite at_0_columns.
  split_execs. destruct (columns d); [reflexivity|].
  split_execs. reflexivity.
Qed.

Lemma paintFrame_stepShown bgImg logoImg elapsed cur cx :
  stepShown (snd (fst (paintFrame toUpperCase d c bgImg logoImg elapsed cur cx)))
  = cur.
Proof.
  unfold paintFrame. split_execs.
  destruct (at_ (columns d) 0); [|reflexivity].
  split_execs. reflexivity.
Qed.

Lemma paintFrame_background bgImg logoImg elapsed cur cx :
  background (snd (fst (paintFrame toUpperCase d c bgImg logoImg elapsed cur cx)))
  = snd (exec (drawBackground d c bgImg elapsed) cx).
Proof.
  unfold paintFrame. split_execs.
  destruct (at_ (columns d) 0); [|reflexivity].
  split_execs. reflexivity.
Qed.

Lemma paintFrame_attribute_skipped bgImg logoImg elapsed cur cx :
  (numCols d >? 1) = false ->
  attributeBlock
    (snd (fst (paintFrame toUpperCase d c bgImg logoImg elapsed cur cx))) = [].
Proof.
  intros Hcols. unfold paintFrame. rewrite Hcols. split_execs.
  destruct (at_ (columns d) 0); [|reflexivity].
  split_execs. simpl.
  match goal with H : exec (when false _) _ = _ |- _ =>
    unfold when, skip, ret, exec in H; inversion H; reflexivity end.
Qed.

End FrameFacts.

(** ** The frame callback as a transition of the session *)

Section SessionFacts.
Import Canvas Types VideoRenderer.

Variable toUpperCase : string -> string.
Variable random : nat -> Q.
Variable d : TableData.
Variable c : AnimationConfig.

Local Abbreviation drawFrame := (VideoRenderer.drawFrame toUpperCase d c).
Local Abbreviation handle := (VideoRenderer.handle toUpperCase random d c).
Local Abbreviation run := (VideoRenderer.run toUpperCase random d c).

(** Past the run time the callback stops the recorder and returns. *)
Lemma drawFrame_late timestamp audioNow s :
  JS.Qltb (totalRunTime d c) (elapsedAt s timestamp) = true ->
  drawFrame timestamp audioNow s
  = recorderStop
      (mkSession (ctx s) (bgImage s) (logoImage s) (audioSynth s)
         (recorder s) (Some (startOf s timestamp)) (lastStepIndex s) false
         (frames s) (progressReports s) (transitionCalls s) (resolved s)
         (uncaught s)).
Proof.
  unfold elapsedAt. intros H. unfold VideoRenderer.drawFrame.
  rewrite H. reflexivity.
Qed.

(** Otherwise it reports progress, draws one frame and asks for the
    next one. *)
Lemma drawFrame_drawn timestamp audioNow s :
  JS.Qltb (totalRunTime d c) (elapsedAt s timestamp) = false ->
  let elapsed := elapsedAt s timestamp in
  let raw := rawStepIndex c elapsed in
  let fire := transitionDue (totalItems d) (lastStepIndex s) raw in
  let painted :=
    paintFrame toUpperCase d c (bgImage s) (logoImage s) elapsed
      (stepIndex d c elapsed) (ctx s) in
  drawFrame timestamp audioNow s
  = mkSession (fst (fst painted)) (bgImage s) (logoImage s)
      (if fire then AudioSynth.triggerTransition audioNow (audioSynth s)
       else audioSynth s)
      (recorder s) (Some (startOf s timestamp)) raw (snd painted)
      (frames s ++ [snd (fst painted)])
      (progressReports s
         ++ [JS.min_fin (JS.div elapsed (totalDuration d c)) 1])
      (if fire then S (transitionCalls s) else transitionCalls s)
      (resolved s) (uncaught s || negb (snd painted)).
Proof.
  unfold elapsedAt. intros H. cbv zeta. unfold VideoRenderer.drawFrame.
  rewrite H. unfold stepIndex.
  destruct (paintFrame _ _ _ _ _ _ _ _) as [[cx' fr] ok]. reflexivity.
Qed.

Lemma recorderStop_fields s :
  transitionCalls (recorderStop s) = transitionCalls s
  /\ frameRequested (recorderStop s) = frameRequested s
  /\ frames (recorderStop s) = frames s
  /\ progressReports (recorderStop s) = progressReports s
  /\ lastStepIndex (recorderStop s) = lastStepIndex s
  /\ startTime (recorderStop s) = startTime s.
Proof. unfold recorderStop. destruct (recorder s); repeat split. Qed.

(** Once no frame is requested, nothing that the caller can see
    changes any more. *)
Lemma run_idle (es : list Event) :
  forall s,
    frameRequested s = false ->
    let s' := run es s in
    frameRequested s' = false
    /\ transitionCalls s' = transitionCalls s
    /\ frames s' = frames s
    /\ progressReports s' = progressReports s
    /\ resolved s' = resolved s
    /\ recorder s' = recorder s.
Proof.
  unfold VideoRenderer.run.
  induction es as [|e es IH]; intros s Hidle; cbv zeta in *.
  { simpl. repeat split. exact Hidle. }
  simpl. destruct e as [t a|id a]; simpl.
  - rewrite Hidle. now apply IH.
  - specialize (IH (mkSession (ctx s) (bgImage s) (logoImage s)
                      (AudioSynth.timerFires random id a (audioSynth s))
                      (recorder s) (startTime s) (lastStepIndex s)
                      (frameRequested s) (frames s) (progressReports s)
                      (transitionCalls s) (resolved s) (uncaught s)) Hidle).
    exact IH.
Qed.

End SessionFacts.

(** C1.  With at least one step and a positive duration per item, the
    step that the render loop computes at [elapsed >= 0] is
    [floor(elapsed / (durationPerItem * 1000))] clamped to
    [[0, totalSteps - 1]], where
    [totalSteps = data.length * max(1, columns.length - 1)]; it does not
    decrease when [elapsed] grows; and it is the step of the frame that
    [drawFrame] draws at that elapsed time. *)
Theorem stepIndex_is_clamped_floor :
  forall (d : Types.TableData) (c : Types.AnimationConfig) (elapsed : Q),
    0 < VideoRenderer.totalItems d ->
    (0 < Types.durationPerItem c)%Q ->
    (0 <= elapsed)%Q ->
    let clamped :=
      Z.max 0 (Z.min (VideoRenderer.totalItems d - 1)
                 (Qfloor (elapsed / (Types.durationPerItem c * 1000)))) in
    VideoRenderer.totalItems d
      = Z.of_nat (length (Types.data d))
        * Z.max 1 (Z.of_nat (length (Types.columns d)) - 1)
    /\ VideoRenderer.stepIndex d c elapsed = clamped
    /\ (forall later : Q,
          (elapsed <= later)%Q ->
          VideoRenderer.stepIndex d c elapsed <= VideoRenderer.stepIndex d c later)
    /\ (forall (toUpperCase : string -> string) (s : VideoRenderer.Session)
               (timestamp audioNow : Q),
          VideoRenderer.elapsedAt s timestamp = elapsed ->
          (elapsed <= VideoRenderer.totalRunTime d c)%Q ->
          exists frame,
            VideoRenderer.frames
              (VideoRenderer.drawFrame toUpperCase d c timestamp audioNow s)
            = VideoRenderer.frames s ++ [frame]
            /\ VideoRenderer.stepShown frame = clamped).
Proof.
  intros d c elapsed Hsteps Hdur Hel clamped.
  assert (Hclamp : VideoRenderer.stepIndex d c elapsed = clamped).
  { unfold VideoRenderer.stepIndex. rewrite clampStep_min.
    pose proof (rawStepIndex_nonneg c Hdur elapsed Hel) as H0.
    subst clamped.
    unfold VideoRenderer.rawStepIndex, VideoRenderer.durationPerItemMs in *.
    lia. }
  split; [reflexivity|]. split; [exact Hclamp|]. split.
  - intros later Hle. unfold VideoRenderer.stepIndex.
    rewrite !clampStep_min.
    pose proof (rawStepIndex_mono c Hdur elapsed later Hle). lia.
  - intros toUpperCase s timestamp audioNow Hat Hrun.
    assert (Hlate : JS.Qltb (VideoRenderer.totalRunTime d c)
                      (VideoRenderer.elapsedAt s timestamp) = false).
    { apply Qltb_ge. rewrite Hat. exact Hrun. }
    pose proof (drawFrame_drawn toUpperCase d c timestamp audioNow s Hlate) as H.
    cbv zeta in H. rewrite H. simpl. eexists. split; [reflexivity|].
    rewrite paintFrame_stepShown, Hat. exact Hclamp.
Qed.

(** ** Counting the transition events of one playback *)

Section TransitionCount.
Import Canvas Types VideoRenderer.

Variable toUpperCase : string -> string.
Variable random : nat -> Q.
Variable d : TableData.
Variable c : AnimationConfig.
Hypothesis duration_pos : (0 < durationPerItem c)%Q.
Hypothesis columns_present : hasColumns d = true.

Local Abbreviation run := (VideoRenderer.run toUpperCase random d c).
Local Abbreviation T := (totalItems d).

Variable t0 : Q.
Hypothesis t0_nonzero : Qeq_bool t0 0 = false.

(** The raw step of a frame at timestamp [t] of a playback that
    started at [t0]. *)
Local Abbreviation rawAt := (fun t : Q => rawStepIndex c (t - t0)).

Lemma startOf_started s t : startTime s = Some t0 -> startOf s t = t0.
Proof. intros H. unfold startOf. now rewrite H, t0_nonzero. Qed.

Lemma transitionDue_spec last cur :
  transitionDue T last cur = true <-> (last < cur /\ cur < T /\ last <> -1).
Proof.
  unfold transitionDue. rewrite !andb_true_iff, negb_true_iff.
  rewrite Z.gtb_lt, Z.ltb_lt, Z.eqb_neq. tauto.
Qed.

(** From a started session whose last step is [last]: when the frames
    to come visit every step above [last] in order, the transition is
    triggered once for each of these steps. *)
Lemma run_counts (es : list Event) :
  forall s last,
    startTime s = Some t0 ->
    lastStepIndex s = last ->
    0 <= last ->
    frameRequested s = true ->
    StronglySorted Z.le (last :: map rawAt (stamps es)) ->
    (forall k, last < k < T -> In k (map rawAt (stamps es))) ->
    Z.of_nat (transitionCalls (run es s))
    = Z.of_nat (transitionCalls s) + Z.max 0 (T - 1 - last).
Proof.
  unfold VideoRenderer.run.
  induction es as [|e es IH]; intros s last Hstart Hlast Hpos Hreq Hsorted Hcover.
  - simpl in *.
    assert (T - 1 - last <= 0).
    { destruct (Z_lt_le_dec (last + 1) T) as [Hlt|]; [|lia].
      destruct (Hcover (last + 1)); lia. }
    lia.
  - destruct e as [t a|id a]; simpl.
    + rewrite Hreq.
      simpl in Hsorted, Hcover.
      apply StronglySorted_inv in Hsorted as [Htail Hall].
      inversion Hall as [|? ? Hle Hrest]; subst.
      pose proof Htail as Htail'.
      apply StronglySorted_inv in Htail' as [_ Hge].
      rewrite List.Forall_forall in Hge.
      destruct (JS.Qltb (totalRunTime d c) (elapsedAt s t)) eqn:Hlate.
      * (* the recorder is stopped: nothing is counted any more *)
        rewrite (drawFrame_late toUpperCase d c t a s Hlate).
        pose proof (run_idle toUpperCase random d c es
                      (recorderStop
                         (mkSession (ctx s) (bgImage s) (logoImage s)
                            (audioSynth s) (recorder s)
                            (Some (startOf s t)) (lastStepIndex s) false
                            (frames s) (progressReports s)
                            (transitionCalls s) (resolved s) (uncaught s))))
          as Hidle.
        pose proof (recorderStop_fields
                      (mkSession (ctx s) (bgImage s) (logoImage s)
                         (audioSynth s) (recorder s)
                         (Some (startOf s t)) (lastStepIndex s) false
                         (frames s) (progressReports s)
                         (transitionCalls s) (resolved s) (uncaught s)))
          as (Hc & Hf & _).
        simpl in Hc, Hf. specialize (Hidle Hf). cbv zeta in Hidle.
        destruct Hidle as (_ & Hcalls & _).
        unfold VideoRenderer.run in Hcalls. rewrite Hcalls, Hc.
        apply Qltb_lt in Hlate. unfold elapsedAt in Hlate.
        rewrite (startOf_started s t Hstart) in Hlate.
        pose proof (rawStepIndex_after_run d c duration_pos _ Hlate) as Hbeyond.
        assert (T - 1 - lastStepIndex s <= 0).
        { destruct (Z_lt_le_dec (lastStepIndex s + 1) T) as [Hlt|]; [|lia].
          destruct (Hcover (lastStepIndex s + 1) ltac:(lia)) as [Heq|Hin].
          - lia.
          - specialize (Hge _ Hin). lia. }
        lia.
      * pose proof (drawFrame_drawn toUpperCase d c t a s Hlate) as Hdraw.
        cbv zeta in Hdraw. rewrite Hdraw. clear Hdraw.
        unfold elapsedAt. rewrite (startOf_started s t Hstart).
        set (cur := rawStepIndex c (t - t0)) in *.
        rewrite IH with (last := cur); simpl; try reflexivity; try lia.
        -- destruct (transitionDue T (lastStepIndex s) cur) eqn:Hdue.
           ++ apply transitionDue_spec in Hdue.
              assert (cur = lastStepIndex s + 1).
              { destruct (Hcover (lastStepIndex s + 1) ltac:(lia)) as [Heq|Hin].
                - lia.
                - specialize (Hge _ Hin). lia. }
              lia.
           ++ assert (Hnot : ~ (lastStepIndex s < cur /\ cur < T
                                /\ lastStepIndex s <> -1)).
              { rewrite <- transitionDue_spec. congruence. }
              destruct (Z.eq_dec cur (lastStepIndex s)) as [->|Hne]; [lia|].
              assert (T - 1 - lastStepIndex s <= 0).
              { destruct (Z_lt_le_dec (lastStepIndex s + 1) T) as [Hlt|]; [|lia].
                destruct (Hcover (lastStepIndex s + 1) ltac:(lia)) as [Heq|Hin].
                - lia.
                - specialize (Hge _ Hin). lia. }
              lia.
        -- rewrite paintFrame_completed. exact columns_present.
        -- exact Htail.
        -- intros k Hk. destruct (Hcover k ltac:(lia)) as [Heq|Hin]; [lia|exact Hin].
    + rewrite IH with (last := last); simpl; auto.
Qed.

End TransitionCount.

Section Playback.
Import Canvas Types VideoRenderer.

Variable toUpperCase : string -> string.
Variable random : nat -> Q.
Variable d : TableData.
Variable c : AnimationConfig.
Hypothesis duration_pos : (0 < durationPerItem c)%Q.
Hypothesis columns_present : hasColumns d = true.

Local Abbreviation run := (VideoRenderer.run toUpperCase random d c).

Lemma totalItems_nonneg : 0 <= totalItems d.
Proof. unfold totalItems, numAttributes. apply Z.mul_nonneg_nonneg; lia. Qed.

Lemma totalDuration_nonneg : (0 <= totalDuration d c)%Q.
Proof.
  unfold totalDuration. apply Qmult_le_0_compat.
  - change 0%Q with (inject_Z 0). rewrite <- Zle_Qle. apply totalItems_nonneg.
  - apply Qlt_le_weak, durationMs_pos, duration_pos.
Qed.

Lemma totalRunTime_pos : (0 < totalRunTime d c)%Q.
Proof.
  pose proof totalDuration_nonneg. unfold totalRunTime, endBuffer. lra.
Qed.

(** Audio timeouts alone leave the timeline as it is. *)
Lemma run_no_frames (es : list Event) :
  forall s, stamps es = [] -> sameTimeline s (run es s).
Proof.
  unfold VideoRenderer.run, sameTimeline.
  induction es as [|e es IH]; intros s Hnone; simpl.
  - repeat split.
  - destruct e as [t a|id a]; [discriminate|]. simpl in Hnone.
    specialize (IH (handle toUpperCase random d c (AudioTimeout id a) s) Hnone).
    simpl in IH. exact IH.
Qed.

(** The first frame of a playback starts the clock at its timestamp,
    shows step 0 and triggers nothing. *)
Lemma first_frame t a s :
  startTime s = None -> lastStepIndex s = -1 -> frameRequested s = true ->
  let s' := VideoRenderer.drawFrame toUpperCase d c t a s in
  startTime s' = Some t /\ lastStepIndex s' = 0 /\ frameRequested s' = true
  /\ transitionCalls s' = transitionCalls s
  /\ length (frames s') = S (length (frames s)).
Proof.
  intros Hstart Hlast Hreq. cbv zeta.
  assert (Hs : startOf s t = t) by (unfold startOf; now rewrite Hstart).
  assert (Hel : (elapsedAt s t == 0)%Q) by (unfold elapsedAt; rewrite Hs; ring).
  assert (Hlate : JS.Qltb (totalRunTime d c) (elapsedAt s t) = false).
  { apply Qltb_ge. rewrite Hel. apply Qlt_le_weak, totalRunTime_pos. }
  pose proof (drawFrame_drawn toUpperCase d c t a s Hlate) as Hdraw.
  cbv zeta in Hdraw. rewrite Hdraw. simpl.
  rewrite Hs, Hlast, paintFrame_completed, columns_present.
  rewrite (rawStepIndex_zero c _ Hel).
  repeat split.
  - unfold transitionDue. simpl. now rewrite andb_false_r.
  - rewrite length_app. simpl. lia.
Qed.

Lemma run_first (es : list Event) :
  forall s t0 ts,
    startTime s = None -> lastStepIndex s = -1 -> frameRequested s = true ->
    stamps es = t0 :: ts ->
    exists post s1,
      run es s = run post s1 /\ stamps post = ts
      /\ startTime s1 = Some t0 /\ lastStepIndex s1 = 0
      /\ frameRequested s1 = true
      /\ transitionCalls s1 = transitionCalls s.
Proof.
  unfold VideoRenderer.run.
  induction es as [|e es IH]; intros s t0 ts Hstart Hlast Hreq Hst; [discriminate|].
  destruct e as [t a|id a]; simpl in Hst.
  - inversion Hst; subst. exists es.
    exists (VideoRenderer.drawFrame toUpperCase d c t0 a s).
    pose proof (first_frame t0 a s Hstart Hlast Hreq) as H. cbv zeta in H.
    simpl. rewrite Hreq. intuition.
  - destruct (IH (handle toUpperCase random d c (AudioTimeout id a) s) t0 ts)
      as (post & s1 & H); auto.
    exists post, s1. exact H.
Qed.

Lemma sorted_raws (t0 : Q) (ts : list Q) :
  StronglySorted Qle (t0 :: ts) ->
  StronglySorted Z.le (0 :: map (fun t => rawStepIndex c (t - t0)) ts).
Proof.
  intros Hs. apply StronglySorted_inv in Hs as [Hts Hall].
  constructor.
  - clear Hall. induction Hts as [|x l Hl IH Hx]; simpl; constructor.
    + exact IH.
    + rewrite List.Forall_forall in *. intros z Hz.
      apply in_map_iff in Hz as (y & <- & Hy).
      apply (rawStepIndex_mono c duration_pos). specialize (Hx y Hy). lra.
  - rewrite List.Forall_forall in *. intros z Hz.
    apply in_map_iff in Hz as (y & <- & Hy).
    apply (rawStepIndex_nonneg c duration_pos). specialize (Hall y Hy). lra.
Qed.

End Playback.

(** C2.  A playback with at least one step is driven from a fresh
    session by frames with ascending timestamps, the first one at
    [t0 > 0], and at least one frame falls inside every step interval.
    Then [triggerTransition] is called exactly [totalSteps - 1] times
    (once for each step boundary), and not at all up to and including
    the first frame. *)
Theorem transitions_once_per_boundary :
  forall (toUpperCase : string -> string) (random : nat -> Q)
         (d : Types.TableData) (c : Types.AnimationConfig)
         (es : list VideoRenderer.Event) (s : VideoRenderer.Session)
         (t0 : Q) (ts : list Q),
    1 <= VideoRenderer.totalItems d ->
    (0 < Types.durationPerItem c)%Q ->
    VideoRenderer.hasColumns d = true ->
    VideoRenderer.fresh s ->
    VideoRenderer.stamps es = t0 :: ts ->
    (0 < t0)%Q ->
    StronglySorted Qle (t0 :: ts) ->
    (forall k, 0 <= k < VideoRenderer.totalItems d ->
               exists t, In t (t0 :: ts)
                         /\ VideoRenderer.rawStepIndex c (t - t0) = k) ->
    VideoRenderer.transitionCalls (VideoRenderer.run toUpperCase random d c es s)
      = Z.to_nat (VideoRenderer.totalItems d - 1)
    /\ forall pre post,
         es = pre ++ post ->
         (length (VideoRenderer.stamps pre) <= 1)%nat ->
         VideoRenderer.transitionCalls
           (VideoRenderer.run toUpperCase random d c pre s) = 0%nat.
Proof.
  intros toUpperCase random d c es s t0 ts Hsteps Hdur Hcols Hfresh Hst Ht0
         Hsorted Hcover.
  destruct Hfresh as (Hstart & Hlast & Hreq & Hcalls & _).
  split.
  - destruct (run_first toUpperCase random d c Hdur Hcols es s t0 ts
                Hstart Hlast Hreq Hst)
      as (post & s1 & Hrun & Hpost & Hstart1 & Hlast1 & Hreq1 & Hcalls1).
    rewrite Hrun.
    assert (Hnz : Qeq_bool t0 0 = false).
    { destruct (Qeq_bool t0 0) eqn:E; [|reflexivity].
      apply Qeq_bool_iff in E. lra. }
    pose proof (run_counts toUpperCase random d c Hdur Hcols t0 Hnz post s1 0
                  Hstart1 Hlast1 ltac:(lia) Hreq1) as Hcount.
    rewrite Hpost in Hcount.
    specialize (Hcount (sorted_raws c Hdur t0 ts Hsorted)).
    assert (Hcov : forall k, 0 < k < VideoRenderer.totalItems d ->
                     In k (map (fun t => VideoRenderer.rawStepIndex c (t - t0)) ts)).
    { intros k Hk. destruct (Hcover k ltac:(lia)) as (t & [<-|Hin] & Hraw).
      - rewrite (rawStepIndex_zero c (t0 - t0)) in Hraw by ring. lia.
      - apply in_map_iff. exists t. split; [exact Hraw | exact Hin]. }
    specialize (Hcount Hcov). rewrite Hcalls1, Hcalls in Hcount. lia.
  - intros pre post Hes Hlen.
    destruct (VideoRenderer.stamps pre) as [|t1 rest] eqn:Hpre.
    + destruct (run_no_frames toUpperCase random d c pre s Hpre)
        as (_ & _ & _ & H & _). congruence.
    + destruct rest; [|simpl in Hlen; lia].
      destruct (run_first toUpperCase random d c Hdur Hcols pre s t1 []
                  Hstart Hlast Hreq Hpre)
        as (post' & s1 & Hrun & Hpost & _ & _ & _ & Hcalls1).
      rewrite Hrun.
      destruct (run_no_frames toUpperCase random d c post' s1 Hpost)
        as (_ & _ & _ & H & _). congruence.
Qed.

(** ** What holds of every frame of a run *)

Section RunInvariants.
Import Canvas Types VideoRenderer.

Variable toUpperCase : string -> string.
Variable random : nat -> Q.
Variable d : TableData.
Variable c : AnimationConfig.

Local Abbreviation handle := (VideoRenderer.handle toUpperCase random d c).
Local Abbreviation run := (VideoRenderer.run toUpperCase random d c).

Lemma run_invariant (P : Session -> Prop) :
  (forall e s, P s -> P (handle e s)) ->
  forall es s, P s -> P (run es s).
Proof.
  intros Hstep. unfold VideoRenderer.run.
  induction es as [|e es IH]; intros s Hs; simpl; [exact Hs|].
  apply IH, Hstep, Hs.
Qed.

Lemma run_app (es1 es2 : list Event) (s : Session) :
  run (es1 ++ es2) s = run es2 (run es1 s).
Proof. unfold VideoRenderer.run. apply fold_left_app. Qed.

(** The two ways in which the callback returns. *)
Lemma drawFrame_cases t a s :
  let s' := VideoRenderer.drawFrame toUpperCase d c t a s in
  (JS.Qltb (totalRunTime d c) (elapsedAt s t) = true
   /\ sameTimeline
        (mkSession (ctx s) (bgImage s) (logoImage s) (audioSynth s)
           Inactive (Some (startOf s t)) (lastStepIndex s) false (frames s)
           (progressReports s) (transitionCalls s)
           (match recorder s with
            | Recording => resolved s ++ [mkBlob "video/webm" (frames s)]
            | Inactive => resolved s
            end)
           (match recorder s with
            | Recording => uncaught s
            | Inactive => true
            end)) s'
   /\ audioSynth s'
      = match recorder s with
        | Recording => AudioSynth.stop (audioSynth s)
        | Inactive => audioSynth s
        end
   /\ bgImage s' = bgImage s /\ logoImage s' = logoImage s)
  \/ (JS.Qltb (totalRunTime d c) (elapsedAt s t) = false
      /\ exists cx' fr ok,
           paintFrame toUpperCase d c (bgImage s) (logoImage s)
             (elapsedAt s t) (stepIndex d c (elapsedAt s t)) (ctx s)
           = (cx', fr, ok)
           /\ frames s' = frames s ++ [fr]
           /\ progressReports s'
              = progressReports s
                ++ [JS.min_fin (JS.div (elapsedAt s t) (totalDuration d c)) 1]
           /\ frameRequested s' = ok
           /\ recorder s' = recorder s /\ resolved s' = resolved s
           /\ uncaught s' = (uncaught s || negb ok)
           /\ bgImage s' = bgImage s /\ logoImage s' = logoImage s
           /\ startTime s' = Some (startOf s t)).
Proof.
  cbv zeta.
  destruct (JS.Qltb (totalRunTime d c) (elapsedAt s t)) eqn:Hlate; [left | right].
  - split; [reflexivity|]. rewrite (drawFrame_late _ _ _ _ _ _ Hlate).
    unfold recorderStop, sameTimeline. simpl.
    destruct (recorder s); simpl; repeat split.
  - split; [reflexivity|].
    pose proof (drawFrame_drawn toUpperCase d c t a s Hlate) as H.
    cbv zeta in H. rewrite H.
    destruct (paintFrame _ _ _ _ _ _ _ _) as [[cx' fr] ok] eqn:E.
    exists cx', fr, ok. simpl. repeat split.
Qed.


(** A property of frames that every newly painted frame has holds of
    all frames of a run. *)
Lemma run_frames (P : Frame -> Prop) (Q : Session -> Prop) :
  (forall e s, Q s -> Q (handle e s)) ->
  (forall s elapsed cur,
     Q s ->
     P (snd (fst (paintFrame toUpperCase d c (bgImage s) (logoImage s)
                    elapsed cur (ctx s))))) ->
  forall es s, Q s -> Forall P (frames s) -> Forall P (frames (run es s)).
Proof.
  intros HQ HP es s Hq Hfr.
  apply (run_invariant (fun s => Q s /\ Forall P (frames s))); [|auto].
  clear es s Hq Hfr. intros e s [Hq Hfr]. split; [now apply HQ|].
  destruct e as [t a|id a]; simpl; [|exact Hfr].
  destruct (frameRequested s); [|exact Hfr].
  destruct (drawFrame_cases t a s) as [(_ & Hsame & _)|(_ & H)].
  - destruct Hsame as (_ & _ & _ & _ & Hf & _). simpl in Hf. now rewrite Hf.
  - destruct H as (cx' & fr & ok & Hpaint & Hf & _). rewrite Hf.
    apply Forall_app; split; [exact Hfr|]. constructor; [|constructor].
    specialize (HP s (elapsedAt s t) (stepIndex d c (elapsedAt s t)) Hq).
    now rewrite Hpaint in HP.
Qed.

End RunInvariants.

(** C9.  With exactly one column there is one attribute per row, as
    many steps as rows, the column on screen is column 0, and no frame
    of a run contains an attribute block. *)
Theorem single_column_has_no_attribute_block :
  forall (toUpperCase : string -> string) (random : nat -> Q)
         (d : Types.TableData) (c : Types.AnimationConfig)
         (s : VideoRenderer.Session) (es : list VideoRenderer.Event),
    length (Types.columns d) = 1%nat ->
    VideoRenderer.fresh s ->
    VideoRenderer.numAttributes d = 1
    /\ VideoRenderer.totalItems d = Z.of_nat (length (Types.data d))
    /\ (forall cur, VideoRenderer.colIdx d cur = 0)
    /\ Forall (fun f => VideoRenderer.attributeBlock f = [])
              (VideoRenderer.frames (VideoRenderer.run toUpperCase random d c es s)).
Proof.
  intros toUpperCase random d c s es Hone Hfresh.
  assert (Hcols : VideoRenderer.numCols d = 1).
  { unfold VideoRenderer.numCols. rewrite Hone. reflexivity. }
  assert (Hattr : VideoRenderer.numAttributes d = 1).
  { unfold VideoRenderer.numAttributes. rewrite Hcols. reflexivity. }
  split; [exact Hattr|]. split.
  { unfold VideoRenderer.totalItems. rewrite Hattr. lia. }
  split.
  { intros cur. unfold VideoRenderer.colIdx. rewrite Hcols. reflexivity. }
  apply (run_frames toUpperCase random d c
           (fun f => VideoRenderer.attributeBlock f = []) (fun _ => True));
    auto.
  - intros s0 elapsed cur _. apply paintFrame_attribute_skipped.
    rewrite Hcols. reflexivity.
  - destruct Hfresh as (_ & _ & _ & _ & Hf & _). rewrite Hf. constructor.
Qed.

(** ** The end of an export *)

Section Completion.
Import Canvas Types VideoRenderer.

Variable toUpperCase : string -> string.
Variable random : nat -> Q.
Variable d : TableData.
Variable c : AnimationConfig.

Local Abbreviation handle := (VideoRenderer.handle toUpperCase random d c).
Local Abbreviation run := (VideoRenderer.run toUpperCase random d c).

Lemma fresh_phase s : fresh s -> phase d s.
Proof.
  intros (_ & _ & Hreq & _ & _ & _ & Hres & Hrec & Hun). left. auto.
Qed.

Lemma handle_phase e s : phase d s -> phase d (handle e s).
Proof.
  intros Hph. destruct e as [t a|id a]; simpl; [|exact Hph].
  destruct (frameRequested s) eqn:Hreq; [|exact Hph].
  destruct Hph as [(_ & Hrec & Hres & Hun)|[(Hf & _)|(Hf & _)]];
    try congruence.
  destruct (drawFrame_cases toUpperCase d c t a s)
    as [(_ & Hsame & _)|(_ & H)].
  - destruct Hsame as (_ & _ & Hr & _ & _ & _ & Hres' & Hrec' & Hun').
    simpl in *. rewrite Hrec in *. right; left.
    rewrite Hr, Hrec', Hres', Hun', Hres. auto.
  - destruct H as (cx' & fr & ok & Hpaint & _ & _ & Hr & Hrec' & Hres'
                   & Hun' & _).
    pose proof (paintFrame_completed toUpperCase d c (bgImage s)
                  (logoImage s) (elapsedAt s t)
                  (stepIndex d c (elapsedAt s t)) (ctx s)) as Hok.
    rewrite Hpaint in Hok. simpl in Hok. rewrite Hok in Hr, Hun'.
    rewrite Hun in Hun'. simpl in Hun'.
    destruct (hasColumns d) eqn:Hc.
    + left. rewrite Hr, Hrec', Hres', Hun'. auto.
    + right; right. rewrite Hr, Hrec', Hres', Hun'. auto.
Qed.

Lemma run_phase es s : phase d s -> phase d (run es s).
Proof. apply (run_invariant toUpperCase random d c (phase d)), handle_phase. Qed.

(** The frame that comes too late for a running export ends it, and
    nothing that is observable happens afterwards. *)
Lemma late_frame_stops (s : Session) (after : list Event) (timestamp audioNow : Q) :
  phase d s ->
  frameRequested s = true ->
  (totalRunTime d c < elapsedAt s timestamp)%Q ->
  let s1 := handle (AnimationFrame timestamp audioNow) s in
  let s2 := run after s1 in
  frames s1 = frames s
  /\ progressReports s1 = progressReports s
  /\ recorder s1 = Inactive
  /\ audioSynth s1 = AudioSynth.stop (audioSynth s)
  /\ resolved s1 = [mkBlob "video/webm" (frames s)]
  /\ frames s2 = frames s
  /\ progressReports s2 = progressReports s
  /\ resolved s2 = resolved s1
  /\ recorder s2 = Inactive.
Proof.
  intros Hph Hreq Hlate s1 s2.
  destruct Hph as [(_ & Hrec & Hres & _)|[(Hf & _)|(Hf & _)]]; try congruence.
  assert (Hq : JS.Qltb (totalRunTime d c) (elapsedAt s timestamp) = true).
  { apply Qltb_lt. exact Hlate. }
  subst s1 s2. simpl VideoRenderer.handle. rewrite Hreq.
  destruct (drawFrame_cases toUpperCase d c timestamp audioNow s)
    as [(_ & Hsame & Haudio & _)|(Hno & _)]; [|congruence].
  destruct Hsame as (_ & _ & Hr & _ & Hfr & Hpr & Hres' & Hrec' & _).
  simpl in Hr, Hfr, Hpr, Hres', Hrec'. rewrite Hrec in *. rewrite Hres in *.
  pose proof (run_idle toUpperCase random d c after _ Hr) as Hidle.
  cbv zeta in Hidle.
  destruct Hidle as (_ & _ & Hfr2 & Hpr2 & Hres2 & Hrec2).
  rewrite Hfr2, Hpr2, Hres2, Hrec2.
  repeat split; assumption.
Qed.

End Completion.

(** C6.  In an export that is still running, the frame callback that
    finds [elapsed > totalDuration + 3000] draws nothing and reports no
    progress; it stops the recorder, which runs [stop()] of the audio
    engine and resolves the promise with the blob of the frames drawn so
    far.  Whatever the event loop delivers afterwards, no frame is
    drawn, no progress is reported and the promise is not resolved a
    second time. *)
Theorem export_stops_after_run_time :
  forall (toUpperCase : string -> string) (random : nat -> Q)
         (d : Types.TableData) (c : Types.AnimationConfig)
         (s0 : VideoRenderer.Session) (before after : list VideoRenderer.Event)
         (timestamp audioNow : Q),
    VideoRenderer.fresh s0 ->
    let s := VideoRenderer.run toUpperCase random d c before s0 in
    VideoRenderer.frameRequested s = true ->
    (VideoRenderer.totalDuration d c + 3000 < VideoRenderer.elapsedAt s timestamp)%Q ->
    let s1 := VideoRenderer.handle toUpperCase random d c
                (VideoRenderer.AnimationFrame timestamp audioNow) s in
    let s2 := VideoRenderer.run toUpperCase random d c after s1 in
    VideoRenderer.frames s1 = VideoRenderer.frames s
    /\ VideoRenderer.progressReports s1 = VideoRenderer.progressReports s
    /\ VideoRenderer.recorder s1 = VideoRenderer.Inactive
    /\ VideoRenderer.audioSynth s1 = AudioSynth.stop (VideoRenderer.audioSynth s)
    /\ VideoRenderer.resolved s1
       = [VideoRenderer.mkBlob "video/webm" (VideoRenderer.frames s)]
    /\ VideoRenderer.frames s2 = VideoRenderer.frames s
    /\ VideoRenderer.progressReports s2 = VideoRenderer.progressReports s
    /\ VideoRenderer.resolved s2 = VideoRenderer.resolved s1
    /\ VideoRenderer.recorder s2 = VideoRenderer.Inactive.
Proof.
  intros toUpperCase random d c s0 before after timestamp audioNow Hfresh s
         Hreq Hlate.
  apply late_frame_stops; [|exact Hreq|exact Hlate].
  apply run_phase, fresh_phase, Hfresh.
Qed.

(** ** The background without a bitmap *)

Section Background.
Import Canvas Types VideoRenderer.

Lemma exec_bind {A B} (m : Draw A) (k : A -> Draw B) cx :
  exec (bind m k) cx
  = let '(a, cx1, log1) := m cx in
    let '(cx2, log2) := exec (k a) cx1 in
    (cx2, log1 ++ log2).
Proof.
  unfold exec, bind. destruct (m cx) as [[a cx1] log1].
  destruct (k a cx1) as [[b cx2] log2]. reflexivity.
Qed.


End Background.

Section Setup.
Import Canvas Types VideoRenderer.

Variable random : nat -> Q.
Variable decodePcm : string -> option (list Q).
Variable loadImage : string -> option Image.
Variable metrics : Font -> string -> Q.
Variable audioInitial : AudioSynth.CtxState.


End Setup.


(** ** The layout solver in exact arithmetic

    Facts about [ImageRenderer], where heights are rationals: the
    sizes and signs that the properties of the drawing rest on.
    Whether the solved table fits its area is decided by the rounding
    of the doubles and is settled on [ImageRenderer64] further
    down. *)

Section Sums.

Lemma Qmin_le_l (a b : Q) : (JS.Qmin a b <= a)%Q.
Proof.
  unfold JS.Qmin. destruct (Qle_bool a b) eqn:E; [apply Qle_refl|].
  apply Qlt_le_weak, Qnot_le_lt. intros H. apply Qle_bool_iff in H. congruence.
Qed.

Lemma Qmin_le_r (a b : Q) : (JS.Qmin a b <= b)%Q.
Proof.
  unfold JS.Qmin. destruct (Qle_bool a b) eqn:E; [|apply Qle_refl].
  now apply Qle_bool_iff.
Qed.

Lemma Qmin_glb (a b x : Q) : (x <= a)%Q -> (x <= b)%Q -> (x <= JS.Qmin a b)%Q.
Proof. unfold JS.Qmin. now destruct (Qle_bool a b). Qed.

Lemma Qmax_le_r (a b : Q) : (b <= JS.Qmax a b)%Q.
Proof.
  unfold JS.Qmax. destruct (Qle_bool a b) eqn:E; [apply Qle_refl|].
  apply Qlt_le_weak, Qnot_le_lt. intros H. apply Qle_bool_iff in H. congruence.
Qed.

Lemma Qmax_le_l (a b : Q) : (a <= JS.Qmax a b)%Q.
Proof.
  unfold JS.Qmax. destruct (Qle_bool a b) eqn:E; [|apply Qle_refl].
  now apply Qle_bool_iff.
Qed.

Lemma Qmax_lub (a b x : Q) : (a <= x)%Q -> (b <= x)%Q -> (JS.Qmax a b <= x)%Q.
Proof. unfold JS.Qmax. now destruct (Qle_bool a b). Qed.

Lemma fold_plus_acc (l : list Q) :
  forall a, (fold_left Qplus l a == a + ImageRenderer.sum l)%Q.
Proof.
  unfold ImageRenderer.sum.
  induction l as [|x l IH]; intros a; simpl.
  - ring.
  - rewrite (IH (a + x)%Q), (IH (0 + x)%Q). ring.
Qed.

Lemma sum_cons (x : Q) (l : list Q) :
  (ImageRenderer.sum (x :: l) == x + ImageRenderer.sum l)%Q.
Proof.
  unfold ImageRenderer.sum at 1. simpl. rewrite fold_plus_acc. ring.
Qed.

Lemma sum_nonneg (l : list Q) :
  Forall (fun x => (0 <= x)%Q) l -> (0 <= ImageRenderer.sum l)%Q.
Proof.
  induction 1 as [|x l Hx Hl IH].
  - unfold ImageRenderer.sum. simpl. lra.
  - rewrite sum_cons. lra.
Qed.

End Sums.

Section Solver.
Import Canvas Types ImageRenderer.

Variable metrics : Font -> string -> Q.
Variable toUpperCase : string -> string.
Variable d : TableData.
Variable c : AnimationConfig.
Variable avail : Q.

Local Abbreviation layoutOf := (ImageRenderer.layoutOf metrics toUpperCase d c).
Local Abbreviation tableHeight := (ImageRenderer.tableHeight metrics toUpperCase d c).
Local Abbreviation mustShrink := (ImageRenderer.mustShrink metrics toUpperCase d c avail).
Local Abbreviation shrinkLoop := (ImageRenderer.shrinkLoop metrics toUpperCase d c).
Local Abbreviation upscale := (ImageRenderer.upscale metrics toUpperCase d c avail).
Local Abbreviation extraPadding := (ImageRenderer.extraPadding metrics toUpperCase d c avail).

(** *** The downscale loop *)

(** The loop returns the first sizing of its sequence at which the
    guard fails, unless the fuel ends before. *)
Lemma shrinkLoop_spec (fuel : nat) :
  forall z,
  exists j,
    (j <= fuel)%nat
    /\ shrinkLoop fuel avail z = Nat.iter j shrinkStep z
    /\ (forall i, (i < j)%nat -> mustShrink (Nat.iter i shrinkStep z) = true)
    /\ (j = fuel \/ mustShrink (Nat.iter j shrinkStep z) = false).
Proof.
  induction fuel as [|fuel IH]; intros z.
  - exists 0%nat. simpl. split; [lia|]. split; [reflexivity|].
    split; [intros i Hi; lia | left; reflexivity].
  - simpl. destruct (ImageRenderer.mustShrink _ _ _ _ _ z) eqn:Hguard.
    + destruct (IH (shrinkStep z)) as (j & Hj & Heq & Hbefore & Hexit).
      exists (S j). rewrite !Nat.iter_succ_r. repeat split.
      * lia.
      * exact Heq.
      * intros [|i] Hi; [exact Hguard|].
        rewrite Nat.iter_succ_r. apply Hbefore. lia.
      * destruct Hexit as [->|Hexit]; [left; reflexivity | right; exact Hexit].
    + exists 0%nat. simpl. split; [lia|]. split; [reflexivity|].
      split; [intros i Hi; lia | right; exact Hguard].
Qed.

Lemma schedule_fontSize (k : nat) :
  fontSize (scheduleAt k) = 55 - 3 * Z.of_nat k.
Proof.
  unfold scheduleAt. induction k as [|k IH]; [reflexivity|].
  rewrite Nat.iter_succ. cbn [shrinkStep fontSize]. rewrite IH. lia.
Qed.

Lemma schedule_attempts (k : nat) : attempts (scheduleAt k) = Z.of_nat k.
Proof.
  unfold scheduleAt. induction k as [|k IH]; [reflexivity|].
  rewrite Nat.iter_succ. cbn [shrinkStep attempts]. rewrite IH. lia.
Qed.

Lemma schedule_headerFontSize (k : nat) : 25 <= headerFontSize (scheduleAt k).
Proof.
  unfold scheduleAt. destruct k as [|k]; [simpl; lia|].
  rewrite Nat.iter_succ. cbn [shrinkStep headerFontSize]. lia.
Qed.

Lemma schedule_rowPadding (k : nat) : (20 <= rowPadding (scheduleAt k))%Q.
Proof.
  unfold scheduleAt. destruct k as [|k]; [simpl; lra|].
  rewrite Nat.iter_succ. cbn [shrinkStep rowPadding]. apply Qmax_le_l.
Qed.

(** Round ten of the schedule is the floor: fonts 25 and 25, padding 20. *)
Lemma schedule_floor : scheduleAt 10 = mkSizing 25 25 20 10.
Proof. vm_compute. reflexivity. Qed.

(** The loop stops by its own guard after at most ten rounds: the
    fifteen units of fuel are never used up. *)
Lemma shrink_exit :
  exists j,
    (j <= 10)%nat
    /\ shrink metrics toUpperCase d c avail = scheduleAt j
    /\ (forall i, (i < j)%nat -> mustShrink (scheduleAt i) = true)
    /\ mustShrink (scheduleAt j) = false.
Proof.
  unfold shrink.
  destruct (shrinkLoop_spec 15 initialSizing) as (j & Hj & Heq & Hbefore & Hexit).
  fold (scheduleAt j) in *.
  assert (Hten : (j <= 10)%nat).
  { destruct j as [|j]; [lia|].
    specialize (Hbefore j ltac:(lia)). fold (scheduleAt j) in Hbefore.
    unfold ImageRenderer.mustShrink in Hbefore.
    rewrite !andb_true_iff in Hbefore. destruct Hbefore as [[_ Hf] _].
    rewrite schedule_fontSize in Hf. lia. }
  exists j. repeat split; auto.
  destruct Hexit as [->|Hexit]; [lia | exact Hexit].
Qed.

(** *** Heights *)

Lemma maxOf_nonneg (xs : list Z) : Forall (fun x => 0 <= x) xs -> 0 <= maxOf xs.
Proof.
  unfold maxOf. destruct 1 as [|x l Hx Hl]; [lia|].
  revert x Hx. induction Hl as [|y l Hy Hl IH]; intros x Hx; simpl; [exact Hx|].
  apply IH. lia.
Qed.

Lemma len_nonneg {A} (l : list A) : 0 <= len l.
Proof. unfold len. lia. Qed.

Lemma tableHeight_pos (z : Sizing) :
  0 <= headerFontSize z -> (0 < rowPadding z)%Q -> (0 < tableHeight z)%Q.
Proof.
  intros Hh Hp. unfold ImageRenderer.tableHeight, ImageRenderer.layoutOf,
    calculateLayout. cbn [totalHeight].
  set (hLines := map _ (columns d)).
  set (rHeights := map _ (map _ (data d))).
  assert (H1 : 0 <= maxOf (map len hLines)).
  { apply maxOf_nonneg, List.Forall_forall. intros x Hx.
    apply in_map_iff in Hx as (l & <- & _). apply len_nonneg. }
  assert (H2 : 0 <= Qfloor (inject_Z (headerFontSize z) * (13 # 10))).
  { change 0 with (Qfloor 0). apply Qfloor_resp_le.
    apply Qmult_le_0_compat; [|lra].
    change 0%Q with (inject_Z 0). now rewrite <- Zle_Qle. }
  assert (H3 : (0 <= inject_Z (maxOf (map len hLines)
                               * Qfloor (inject_Z (headerFontSize z) * (13 # 10))))%Q).
  { change 0%Q with (inject_Z 0). rewrite <- Zle_Qle.
    now apply Z.mul_nonneg_nonneg. }
  assert (H4 : (0 <= ImageRenderer.sum rHeights)%Q).
  { apply sum_nonneg, List.Forall_forall. intros x Hx.
    apply in_map_iff in Hx as (cells & <- & _).
    pose proof (Qmax_le_r
                  (inject_Z (maxLinesOf cells
                             * Qfloor (inject_Z (fontSize z) * (13 # 10)))
                   + rowPadding z) 80). lra. }
  lra.
Qed.

(** *** The upscale step *)

Lemma extraPadding_bounds (z : Sizing) :
  (tableHeight z <= avail)%Q ->
  (0 <= extraPadding z)%Q
  /\ (extraPadding z <= 80)%Q
  /\ (extraPadding z <= (avail - tableHeight z) / inject_Z (len (data d) + 1))%Q
  /\ (inject_Z (len (data d) + 1) * extraPadding z <= avail - tableHeight z)%Q.
Proof.
  intros Hfit. unfold ImageRenderer.extraPadding.
  fold (tableHeight z).
  set (diff := (avail - tableHeight z)%Q).
  set (n := inject_Z (len (data d) + 1)).
  assert (Hn : (0 < n)%Q).
  { unfold n. change 0%Q with (inject_Z 0). rewrite <- Zlt_Qlt.
    pose proof (len_nonneg (data d)). lia. }
  assert (Hdiff : (0 <= diff)%Q) by (unfold diff; lra).
  assert (Hq : (0 <= diff / n)%Q).
  { apply Qle_shift_div_l; [exact Hn | lra]. }
  repeat split.
  - apply Qmin_glb; [exact Hq | lra].
  - apply Qmin_le_r.
  - apply Qmin_le_l.
  - pose proof (Qmin_le_l (diff / n) 80) as Hle.
    assert (Hmul : (n * JS.Qmin (diff / n) 80 <= n * (diff / n))%Q).
    { rewrite !(Qmult_comm n). apply Qmult_le_compat_r; [exact Hle | lra]. }
    rewrite Qmult_div_r in Hmul; [exact Hmul|]. lra.
Qed.

Lemma upscale_fonts (z : Sizing) :
  fontSize (upscale z) = fontSize z
  /\ headerFontSize (upscale z) = headerFontSize z
  /\ attempts (upscale z) = attempts z.
Proof.
  unfold ImageRenderer.upscale.
  destruct (ImageRenderer.mustUpscale _ _ _ _ _ z); repeat split.
Qed.

End Solver.

(** ** The solver in the doubles of the program

    What follows is about [ImageRenderer64].  The downscale loop is
    steered by the outcome of one comparison and by two integers, so
    what it does can be said of every table, every text measure and
    every available height without a word about rounding. *)

Section Solver64.
Import Canvas Types ImageRenderer64.

Variable metrics : Font -> string -> PrimFloat.float.
Variable toUpperCase : string -> string.
Variable d : TableData.
Variable c : AnimationConfig.
Variable avail : PrimFloat.float.

Local Abbreviation exceeds := (ImageRenderer64.exceeds metrics toUpperCase d c avail).
Local Abbreviation mustShrink := (ImageRenderer64.mustShrink metrics toUpperCase d c avail).
Local Abbreviation shrinkLoop := (ImageRenderer64.shrinkLoop metrics toUpperCase d c).
Local Abbreviation upscale := (ImageRenderer64.upscale metrics toUpperCase d c avail).





(** Round ten of the schedule is the floor: fonts 25 and 25, padding
    20 (the paddings 40, 36, ..., 20 are whole numbers, which the
    doubles hold exactly). *)
Lemma schedule64_floor :
  fontSize (scheduleAt 10) = 25 /\ headerFontSize (scheduleAt 10) = 25
  /\ rowPadding (scheduleAt 10) = Binary64.ofZ 20
  /\ attempts (scheduleAt 10) = 10.
Proof. repeat split. Qed.




End Solver64.


Section Rounding.
Import Corelib.Floats.PrimFloat.
Import Examples.

Local Open Scope float_scope.

Local Abbreviation avail :=
  (ImageRenderer64.availableTableHeight metrics64 upper elevenRows config).
Local Abbreviation shrunk :=
  (ImageRenderer64.shrink metrics64 upper elevenRows config avail).
Local Abbreviation heightOf z :=
  (ImageRenderer64.totalHeight
     (ImageRenderer64.layoutOf metrics64 upper elevenRows config z)).
Local Abbreviation returned :=
  (ImageRenderer64.solve metrics64 upper elevenRows config).


(** C10 at the same table.  The shrink phase ends at once with a
    table of height 1319 in an area of 2200; 1319 is below 85% of 2200
    (1870), so the surplus step runs; the surplus 881 is divided by the
    twelve items, and the quotient is rounded to the double
    73.41666666666667 ([0x1.25aaaaaaaaaabp+6]); the padding becomes
    113.41666666666667; the header becomes 171.41666666666669 high and
    each row 184.41666666666669, both rounded up; and the heights that
    [calculateLayout] adds up again come to 2200.0000000000005
    ([0x1.1300000000001p+11]), one unit in the last place above the
    2200 that are available. *)
Theorem upscale_overflows_by_rounding :
  avail = 2200
  /\ heightOf shrunk = 1319
  /\ (heightOf shrunk <=? avail) = true
  /\ ImageRenderer64.mustUpscale metrics64 upper elevenRows config avail shrunk
     = true
  /\ ImageRenderer64.extraPadding metrics64 upper elevenRows config avail shrunk
     = 0x1.25aaaaaaaaaabp+6
  /\ ImageRenderer64.rowPadding (fst returned) = 0x1.c5aaaaaaaaaabp+6
  /\ ImageRenderer64.fontSize (fst returned) = 55%Z
  /\ ImageRenderer64.totalHeight (snd returned) = 0x1.1300000000001p+11
  /\ (avail <? ImageRenderer64.totalHeight (snd returned)) = true
  /\ (ImageRenderer64.totalHeight (snd returned) <=? avail) = false.
Proof. vm_compute. repeat split. Qed.

End Rounding.

(** ** The audio engine: what [stop()] leaves behind *)

Section AudioStop.
Import AudioSynth.

(** *** Nodes *)

Lemma quiet_detach (n : Node) : quiet n -> quiet (detach n).
Proof. intros [_ H]. split; [reflexivity | exact H]. Qed.

Lemma quiet_halt (n : Node) : quiet n -> quiet (halt n).
Proof.
  intros Hq. unfold halt.
  destruct (hasStop (kind n)) eqn:Hk; [|exact Hq].
  destruct (startAt n) eqn:Hs; [|exact Hq].
  destruct Hq as [Hout _]. split; [exact Hout | reflexivity].
Qed.

(** After [stop] and [disconnect] a node is quiet, whatever it was. *)
Lemma quiet_hush (n : Node) : quiet (detach (halt n)).
Proof.
  split; [reflexivity|]. unfold halt. simpl.
  destruct (hasStop (kind n)) eqn:Hk; simpl.
  - destruct (startAt n) eqn:Hs; simpl; [reflexivity|].
    intros _ [x Hx]. congruence.
  - intros H. congruence.
Qed.

Lemma detach_quiet_id (n : Node) : outputs n = [] -> detach n = n.
Proof. destruct n; simpl; intros ->; reflexivity. Qed.

(** *** The store *)

Lemma lookup_update (id : nat) (f : Node -> Node) (s : State) (j : nat) :
  heap (update id f s) !! j
  = if decide (id = j) then f <$> heap s !! id else heap s !! j.
Proof. unfold update. simpl. apply lookup_alter. Qed.

Lemma update_same (id : nat) (f : Node -> Node) (s : State) :
  (forall n, heap s !! id = Some n -> f n = n) -> update id f s = s.
Proof.
  intros H. unfold update. rewrite (alter_id f (heap s) id H).
  destruct s; reflexivity.
Qed.

(** One step that applies a quiet-preserving function to one node. *)
Lemma update_quiet (id : nat) (f : Node -> Node) (s : State) (j : nat) (n' : Node) :
  (forall n, quiet n -> quiet (f n)) ->
  heap (update id f s) !! j = Some n' ->
  exists n, heap s !! j = Some n /\ (quiet n -> quiet n')
            /\ (id = j -> n' = f n).
Proof.
  intros Hf. rewrite lookup_update. destruct (decide (id = j)) as [->|Hne].
  - destruct (heap s !! j) as [n|] eqn:E; simpl; [|discriminate].
    intros [= <-]. exists n. auto.
  - intros H. exists n'. split; [exact H|]. split; [auto | contradiction].
Qed.

(** The sweep over the node list. *)
Local Abbreviation sweep :=
  (fold_left (fun st id => disconnect id (try_stop id st))).

Lemma sweep_lookup (l : list nat) :
  forall s j n',
    heap (sweep l s) !! j = Some n' ->
    exists n, heap s !! j = Some n /\ (quiet n -> quiet n')
              /\ (In j l -> quiet n').
Proof.
  induction l as [|id l IH]; intros s j n' H; simpl in *.
  - exists n'. split; [exact H|]. split; [auto | contradiction].
  - destruct (IH _ _ _ H) as (n1 & H1 & Hq1 & Hin1).
    unfold disconnect in H1.
    destruct (update_quiet _ _ _ _ _ quiet_detach H1) as (n2 & H2 & Hq2 & Hd2).
    unfold try_stop in H2.
    destruct (update_quiet _ _ _ _ _ quiet_halt H2) as (n & H3 & Hq3 & Hd3).
    exists n. split; [exact H3|]. split; [auto|].
    intros [->|Hin]; [|auto].
    apply Hq1. rewrite (Hd2 eq_refl), (Hd3 eq_refl). apply quiet_hush.
Qed.

Lemma halt_kind_eq (n : Node) : kind (halt n) = kind n.
Proof. unfold halt. destruct (hasStop (kind n)), (startAt n); reflexivity. Qed.

Lemma detach_kind (n : Node) : kind (detach n) = kind n.
Proof. reflexivity. Qed.

Lemma update_kind (id : nat) (f : Node -> Node) (s : State) (j : nat) (n' : Node) :
  (forall n, kind (f n) = kind n) ->
  heap (update id f s) !! j = Some n' ->
  exists n, heap s !! j = Some n /\ kind n' = kind n.
Proof.
  intros Hf. rewrite lookup_update. case_decide; subst.
  - destruct (heap s !! j) as [n|]; simpl; [|discriminate].
    intros [= <-]. exists n. auto.
  - intros Hl. exists n'. auto.
Qed.

Lemma sweep_kind (l : list nat) :
  forall s j n',
    heap (sweep l s) !! j = Some n' ->
    exists n, heap s !! j = Some n /\ kind n' = kind n.
Proof.
  induction l as [|id l IH]; intros s j n' H; simpl in *.
  - exists n'. auto.
  - destruct (IH _ _ _ H) as (n1 & H1 & Hk1).
    unfold disconnect, try_stop in H1. rewrite !lookup_update in H1.
    repeat case_decide; subst; try congruence.
    + destruct (heap s !! j) as [n|] eqn:E; simpl in H1; [|discriminate].
      injection H1 as <-. exists n. split; [reflexivity|].
      rewrite Hk1. simpl. apply halt_kind_eq.
    + exists n1. auto.
Qed.

Lemma sweep_fields (l : list nat) :
  forall s,
    let s' := sweep l s in
    ctxState s' = ctxState s /\ nextId s' = nextId s
    /\ destination s' = destination s /\ masterGain s' = masterGain s
    /\ voiceGain s' = voiceGain s /\ nodes s' = nodes s
    /\ streamDestination s' = streamDestination s
    /\ isPlaying s' = isPlaying s /\ nextNoteTime s' = nextNoteTime s
    /\ timerID s' = timerID s /\ voiceSource s' = voiceSource s
    /\ timers s' = timers s /\ nextTimer s' = nextTimer s
    /\ rngPos s' = rngPos s.
Proof.
  induction l as [|id l IH]; intros s; cbv zeta; simpl.
  - repeat split.
  - specialize (IH (disconnect id (try_stop id s))). cbv zeta in IH.
    simpl in IH. exact IH.
Qed.

End AudioStop.

Section AudioStopEffects.
Import AudioSynth.

Variable s : State.

Local Abbreviation s1 := (stopTimer (set_isPlaying false s)).
Local Abbreviation s2 := (stopNodes s1).
Local Abbreviation s3 := (stopVoice s2).
Local Abbreviation s4 := (stopBuses s3).

Lemma stopTimer_fields (t : State) :
  heap (stopTimer t) = heap t /\ nodes (stopTimer t) = nodes t
  /\ voiceSource (stopTimer t) = voiceSource t
  /\ masterGain (stopTimer t) = masterGain t
  /\ voiceGain (stopTimer t) = voiceGain t
  /\ isPlaying (stopTimer t) = isPlaying t
  /\ ctxState (stopTimer t) = ctxState t
  /\ timerID (stopTimer t) = None
  /\ timers (stopTimer t)
     = match timerID t with Some id => timers t ∖ {[id]} | None => timers t end.
Proof. unfold stopTimer. destruct (timerID t) eqn:E; simpl; repeat split; auto. Qed.

Lemma stopNodes_fields (t : State) :
  nodes (stopNodes t) = [] /\ voiceSource (stopNodes t) = voiceSource t
  /\ masterGain (stopNodes t) = masterGain t
  /\ voiceGain (stopNodes t) = voiceGain t
  /\ isPlaying (stopNodes t) = isPlaying t
  /\ ctxState (stopNodes t) = ctxState t
  /\ timerID (stopNodes t) = timerID t /\ timers (stopNodes t) = timers t.
Proof.
  unfold stopNodes. simpl.
  pose proof (sweep_fields (nodes t) t) as H. cbv zeta in H.
  destruct H as (H1 & _ & _ & H4 & H5 & _ & _ & H8 & _ & H10 & H11 & H12 & _).
  repeat split; assumption.
Qed.

Lemma stopVoice_fields (t : State) :
  nodes (stopVoice t) = nodes t /\ voiceSource (stopVoice t) = None
  /\ masterGain (stopVoice t) = masterGain t
  /\ voiceGain (stopVoice t) = voiceGain t
  /\ isPlaying (stopVoice t) = isPlaying t
  /\ ctxState (stopVoice t) = ctxState t
  /\ timerID (stopVoice t) = timerID t /\ timers (stopVoice t) = timers t.
Proof. unfold stopVoice. destruct (voiceSource t) eqn:E; simpl; repeat split; auto. Qed.

Lemma closeContext_fields (t : State) :
  heap (closeContext t) = heap t /\ nodes (closeContext t) = nodes t
  /\ voiceSource (closeContext t) = voiceSource t
  /\ masterGain (closeContext t) = masterGain t
  /\ voiceGain (closeContext t) = voiceGain t
  /\ isPlaying (closeContext t) = isPlaying t
  /\ ctxState (closeContext t) = Closed
  /\ timerID (closeContext t) = timerID t
  /\ timers (closeContext t) = timers t.
Proof. unfold closeContext. destruct (ctxState t) eqn:E; simpl; repeat split; auto. Qed.

Lemma heap_set_nodes (l : list nat) (t : State) : heap (set_nodes l t) = heap t.
Proof. reflexivity. Qed.

Lemma heap_set_voiceSource (v : option nat) (t : State) :
  heap (set_voiceSource v t) = heap t.
Proof. reflexivity. Qed.

Lemma stopVoice_lookup (t : State) (j : nat) (n' : Node) :
  heap (stopVoice t) !! j = Some n' ->
  exists n, heap t !! j = Some n /\ (quiet n -> quiet n')
            /\ (voiceSource t = Some j -> quiet n').
Proof.
  unfold stopVoice. destruct (voiceSource t) as [v|] eqn:Ev.
  - rewrite heap_set_voiceSource. unfold disconnect, try_stop. intros H.
    destruct (update_quiet _ _ _ _ _ quiet_detach H) as (na & Ha & Hqa & Hda).
    destruct (update_quiet _ _ _ _ _ quiet_halt Ha) as (nb & Hb & Hqb & Hdb).
    exists nb. split; [exact Hb|]. split; [auto|].
    intros [= ->]. rewrite (Hda eq_refl), (Hdb eq_refl). apply quiet_hush.
  - intros H. exists n'. split; [exact H|]. split; [auto | discriminate].
Qed.

(** The fields of the instance after [stop()]. *)
Lemma stop_fields :
  nodes (stop s) = [] /\ voiceSource (stop s) = None
  /\ isPlaying (stop s) = false /\ timerID (stop s) = None
  /\ ctxState (stop s) = Closed
  /\ masterGain (stop s) = masterGain s /\ voiceGain (stop s) = voiceGain s
  /\ timers (stop s)
     = match timerID s with Some id => timers s ∖ {[id]} | None => timers s end.
Proof.
  unfold stop.
  destruct (closeContext_fields s4) as (_ & Hn & Hv & Hm & Hg & Hp & Hc & Ht & Hts).
  rewrite Hn, Hv, Hp, Hc, Ht, Hm, Hg, Hts. simpl.
  destruct (stopVoice_fields s2) as (Hn3 & Hv3 & Hm3 & Hg3 & Hp3 & _ & Ht3 & Hts3).
  rewrite Hn3, Hv3, Hp3, Ht3, Hm3, Hg3, Hts3.
  destruct (stopNodes_fields s1) as (Hn2 & _ & Hm2 & Hg2 & Hp2 & _ & Ht2 & Hts2).
  rewrite Hn2, Hp2, Ht2, Hm2, Hg2, Hts2.
  destruct (stopTimer_fields (set_isPlaying false s))
    as (_ & _ & _ & Hm1 & Hg1 & Hp1 & _ & Ht1 & Hts1).
  rewrite Hp1, Ht1, Hm1, Hg1, Hts1. simpl. repeat split.
Qed.

(** The nodes after [stop()]: none is added, a quiet node stays
    quiet, and the nodes of the list and the narration source are
    quiet. *)
Lemma stop_lookup (j : nat) (n' : Node) :
  heap (stop s) !! j = Some n' ->
  exists n, heap s !! j = Some n
            /\ (quiet n -> quiet n')
            /\ (In j (nodes s) \/ voiceSource s = Some j -> quiet n').
Proof.
  unfold stop. destruct (closeContext_fields s4) as (Hh & _). rewrite Hh.
  unfold stopBuses, disconnect at 1 2. intros H.
  destruct (update_quiet _ _ _ _ _ quiet_detach H) as (n3b & H3b & Hq3b & _).
  destruct (update_quiet _ _ _ _ _ quiet_detach H3b) as (n3 & H3 & Hq3 & _).
  clear H H3b.
  destruct (stopVoice_lookup _ _ _ H3) as (n2 & H2 & Hq2 & Hv2).
  unfold stopNodes in H2. rewrite heap_set_nodes in H2.
  destruct (sweep_lookup _ _ _ _ H2) as (n1 & H1 & Hq1 & Hin1).
  destruct (stopTimer_fields (set_isPlaying false s))
    as (Hh1 & Hn1 & Hv1 & _).
  rewrite Hh1 in H1. simpl in H1. rewrite Hn1 in Hin1. simpl in Hin1.
  destruct (stopNodes_fields s1) as (_ & Hvs & _).
  rewrite Hvs, Hv1 in Hv2. simpl in Hv2.
  exists n1. split; [exact H1|]. split; [auto|].
  intros [Hin|Hv]; auto.
Qed.

(** [stop()] changes no kind and allocates nothing. *)
Lemma stop_lookup_kind (j : nat) (n' : Node) :
  heap (stop s) !! j = Some n' ->
  exists n, heap s !! j = Some n /\ kind n' = kind n
            /\ (quiet n -> quiet n')
            /\ (In j (nodes s) \/ voiceSource s = Some j -> quiet n').
Proof.
  intros H. destruct (stop_lookup j n' H) as (n & Hn & Hq & Hin).
  exists n. split; [exact Hn|]. split; [|split; [exact Hq | exact Hin]].
  revert H. unfold stop. destruct (closeContext_fields s4) as (Hh & _).
  rewrite Hh. unfold stopBuses, disconnect. intros H.
  destruct (update_kind _ _ _ _ _ detach_kind H) as (n3b & H3b & Hk3b).
  destruct (update_kind _ _ _ _ _ detach_kind H3b) as (n3 & H3 & Hk3).
  assert (Hvoice : exists n2, heap s2 !! j = Some n2 /\ kind n3 = kind n2).
  { revert H3. unfold stopVoice. destruct (voiceSource s2) as [v|].
    - rewrite heap_set_voiceSource. unfold disconnect, try_stop. intros H3.
      destruct (update_kind _ _ _ _ _ detach_kind H3) as (na & Ha & Hka).
      destruct (update_kind _ _ _ _ _ halt_kind_eq Ha) as (nb & Hb & Hkb).
      exists nb. split; [exact Hb | congruence].
    - intros H3. exists n3. auto. }
  destruct Hvoice as (n2 & H2 & Hk2).
  unfold stopNodes in H2. rewrite heap_set_nodes in H2.
  destruct (sweep_kind _ _ _ _ H2) as (n1 & H1 & Hk1).
  destruct (stopTimer_fields (set_isPlaying false s)) as (Hh1 & _).
  rewrite Hh1 in H1. simpl in H1. congruence.
Qed.

Lemma stop_nextId : nextId (stop s) = nextId s.
Proof.
  unfold stop, closeContext, stopBuses, stopVoice, stopNodes, stopTimer.
  pose proof (sweep_fields
                (nodes match timerID (set_isPlaying false s) with
                       | Some id => set_timerID None
                                      (clearTimeout id (set_isPlaying false s))
                       | None => set_isPlaying false s
                       end)
                match timerID (set_isPlaying false s) with
                | Some id => set_timerID None
                               (clearTimeout id (set_isPlaying false s))
                | None => set_isPlaying false s
                end) as H.
  cbv zeta in H. destruct H as (_ & Hid & _ & _ & _ & _ & _ & _ & _ & _ & Hv & _).
  repeat match goal with
         | |- context [match ?x with _ => _ end] => destruct x eqn:?
         end; simpl in *; try rewrite Hid; try reflexivity;
    destruct (timerID s); simpl; reflexivity.
Qed.

(** The two buses are left without connections. *)
Lemma stop_buses (j : nat) (n' : Node) :
  j = masterGain s \/ j = voiceGain s ->
  heap (stop s) !! j = Some n' -> outputs n' = [].
Proof.
  intros Hj. unfold stop. destruct (closeContext_fields s4) as (Hh & _).
  rewrite Hh. unfold stopBuses, disconnect. rewrite !lookup_update.
  destruct (stopVoice_fields s2) as (_ & _ & Hm3 & Hg3 & _).
  destruct (stopNodes_fields s1) as (_ & _ & Hm2 & Hg2 & _).
  destruct (stopTimer_fields (set_isPlaying false s)) as (_ & _ & _ & Hm1 & Hg1 & _).
  assert (Hm : masterGain s3 = masterGain s) by (rewrite Hm3, Hm2, Hm1; reflexivity).
  assert (Hg : voiceGain s3 = voiceGain s) by (rewrite Hg3, Hg2, Hg1; reflexivity).
  simpl masterGain. simpl voiceGain. rewrite Hm, Hg.
  repeat case_decide; subst;
    try (destruct Hj; congruence);
    repeat match goal with
           | |- context [heap ?t !! ?k] => destruct (heap t !! k)
           end;
    simpl; try discriminate; intros [= <-]; reflexivity.
Qed.

End AudioStopEffects.

Section AudioStopTwice.
Import AudioSynth.

Lemma set_isPlaying_same (b : bool) (t : State) :
  isPlaying t = b -> set_isPlaying b t = t.
Proof. destruct t; simpl; intros <-; reflexivity. Qed.

Lemma set_nodes_same (l : list nat) (t : State) :
  nodes t = l -> set_nodes l t = t.
Proof. destruct t; simpl; intros <-; reflexivity. Qed.

(** A second [stop()] changes nothing. *)
Lemma stop_twice (s : State) : stop (stop s) = stop s.
Proof.
  destruct (stop_fields s) as (Hn & Hv & Hp & Ht & Hc & Hm & Hg & _).
  pose proof (stop_buses s) as Hbus.
  set (t := stop s) in *.
  unfold stop at 1.
  rewrite (set_isPlaying_same false t Hp).
  assert (E1 : stopTimer t = t) by (unfold stopTimer; now rewrite Ht).
  rewrite E1.
  assert (E2 : stopNodes t = t).
  { unfold stopNodes. rewrite Hn. simpl. now apply set_nodes_same. }
  rewrite E2.
  assert (E3 : stopVoice t = t) by (unfold stopVoice; now rewrite Hv).
  rewrite E3.
  assert (E4 : stopBuses t = t).
  { unfold stopBuses, disconnect.
    rewrite (update_same (masterGain t) detach t).
    - apply update_same. intros n Hn'. apply detach_quiet_id.
      apply (Hbus (voiceGain t) n); [right; exact Hg | exact Hn'].
    - intros n Hn'. apply detach_quiet_id.
      apply (Hbus (masterGain t) n); [left; exact Hm | exact Hn']. }
  rewrite E4.
  unfold closeContext. now rewrite Hc.
Qed.

End AudioStopTwice.

(** ** The audio engine: what every history keeps true *)

Section AudioInvariant.
Import AudioSynth.

Variable random : nat -> Q.
Variable decodePcm : string -> option (list Q).

(** *** The store *)

(** Steps that leave the store, the list and the buses alone. *)
Lemma tracked_same (s s' : State) :
  heap s' = heap s -> nodes s' = nodes s -> nextId s' = nextId s ->
  masterGain s' = masterGain s -> voiceGain s' = voiceGain s ->
  nodesTracked s -> nodesTracked s'.
Proof.
  intros Hh Hn Hi Hm Hg [Hfree Hsyn]. split.
  - intros id Hid. rewrite Hh. apply Hfree. lia.
  - intros id n Hl Hs. rewrite Hh in Hl. rewrite Hn.
    apply (Hsyn id n Hl). unfold isSynthesis in *. now rewrite <- Hm, <- Hg.
Qed.

(** A step that rewrites one node without changing its kind and
    without waking it up. *)
Lemma tracked_update (id : nat) (f : Node -> Node) (s : State) :
  (forall n, kind (f n) = kind n) ->
  (forall n, quiet n -> quiet (f n)) ->
  nodesTracked s -> nodesTracked (update id f s).
Proof.
  intros Hk Hq [Hfree Hsyn]. split.
  - intros j Hj. rewrite lookup_update. case_decide; subst.
    + now rewrite (Hfree _ Hj).
    + now apply Hfree.
  - intros j n' Hl Hs. rewrite lookup_update in Hl.
    change (nodes (update id f s)) with (nodes s).
    case_decide; subst.
    + destruct (heap s !! j) as [n|] eqn:E; simpl in Hl; [|discriminate].
      injection Hl as <-.
      destruct (Hsyn j n E) as [Hin|Hqn]; [|left; exact Hin|right; auto].
      unfold isSynthesis in *. rewrite Hk in Hs. exact Hs.
    + apply (Hsyn j n' Hl). exact Hs.
Qed.

Lemma tracked_try_stop (id : nat) (s : State) :
  nodesTracked s -> nodesTracked (try_stop id s).
Proof. apply tracked_update; [apply halt_kind_eq | apply quiet_halt]. Qed.

Lemma tracked_disconnect (id : nat) (s : State) :
  nodesTracked s -> nodesTracked (disconnect id s).
Proof. apply tracked_update; [reflexivity | apply quiet_detach]. Qed.

(** A step that allocates nodes, touches only those, and puts the
    synthesis nodes among them on the list. *)
Lemma tracked_grow (s s' : State) :
  (nextId s <= nextId s')%nat ->
  masterGain s' = masterGain s -> voiceGain s' = voiceGain s ->
  (forall j, (j < nextId s)%nat -> heap s' !! j = heap s !! j) ->
  (forall j, (nextId s' <= j)%nat -> heap s' !! j = None) ->
  (forall j, In j (nodes s) -> In j (nodes s')) ->
  (forall j n', (nextId s <= j)%nat -> heap s' !! j = Some n' ->
                In j (nodes s') \/ isSynthesis s' j n' = false) ->
  nodesTracked s -> nodesTracked s'.
Proof.
  intros Hle Hm Hg Hold Hfree' Hincl Hnew [Hfree Hsyn]. split; [exact Hfree'|].
  intros j n' Hl Hs.
  destruct (Nat.lt_ge_cases j (nextId s)) as [Hlt|Hge].
  - rewrite (Hold j Hlt) in Hl.
    destruct (Hsyn j n' Hl) as [Hin|Hq]; [|left; auto|right; exact Hq].
    unfold isSynthesis in *. now rewrite <- Hm, <- Hg.
  - destruct (Hnew j n' Hge Hl) as [Hin|Hno]; [left; exact Hin | congruence].
Qed.

Lemma tracked_playPianoTone (freq time : Q) (s : State) :
  nodesTracked s -> nodesTracked (playPianoTone freq time s).
Proof.
  intros Hinv. pose proof Hinv as [Hfree _].
  apply (tracked_grow s); try exact Hinv; unfold playPianoTone, alloc, connect,
    update; cbn [nextId masterGain voiceGain heap nodes set_nodes set_heap
                 set_nextId fst snd].
  - lia.
  - reflexivity.
  - reflexivity.
  - intros j Hj. rewrite !lookup_alter, !lookup_insert.
    repeat case_decide; try lia. reflexivity.
  - intros j Hj. rewrite !lookup_alter, !lookup_insert.
    repeat case_decide; try lia. apply Hfree. lia.
  - intros j Hj. apply in_or_app. left. exact Hj.
  - intros j n' Hj Hl. left. apply in_or_app. right.
    rewrite !lookup_alter, !lookup_insert in Hl.
    repeat case_decide; subst; simpl; auto.
    rewrite Hfree in Hl by lia. discriminate.
Qed.

Lemma tracked_triggerTransition (t : Q) (s : State) :
  nodesTracked s -> nodesTracked (triggerTransition t s).
Proof.
  intros Hinv. pose proof Hinv as [Hfree _].
  apply (tracked_grow s); try exact Hinv; unfold triggerTransition, alloc,
    connect, update; cbn [nextId masterGain voiceGain heap nodes set_nodes
                            set_heap set_nextId fst snd].
  - lia.
  - reflexivity.
  - reflexivity.
  - intros j Hj. rewrite !lookup_alter, !lookup_insert.
    repeat case_decide; try lia. reflexivity.
  - intros j Hj. rewrite !lookup_alter, !lookup_insert.
    repeat case_decide; try lia. apply Hfree. lia.
  - intros j Hj. apply in_or_app. left. exact Hj.
  - intros j n' Hj Hl. left. apply in_or_app. right.
    rewrite !lookup_alter, !lookup_insert in Hl.
    repeat case_decide; subst; simpl; auto.
    rewrite Hfree in Hl by lia. discriminate.
Qed.

Lemma tracked_playRandomPianoNote (time : Q) (s : State) :
  nodesTracked s -> nodesTracked (playRandomPianoNote random time s).
Proof.
  intros Hinv. unfold playRandomPianoNote, nextRandom.
  assert (H1 : nodesTracked
                 (playPianoTone (scaleAt (Qfloor (random (rngPos s) * 11)))
                    time (set_rngPos (S (rngPos s)) s))).
  { apply tracked_playPianoTone. now apply (tracked_same s). }
  set (s2 := playPianoTone _ time _) in *.
  assert (H3 : nodesTracked (set_rngPos (S (rngPos s2)) s2))
    by now apply (tracked_same s2).
  destruct (JS.Qltb _ _); [|exact H3].
  destruct (_ <? 11)%Z; [|exact H3].
  now apply tracked_playPianoTone.
Qed.

Lemma tracked_noteLoop (fuel : nat) (now : Q) :
  forall s, nodesTracked s -> nodesTracked (noteLoop random fuel now s).
Proof.
  induction fuel as [|fuel IH]; intros s Hinv; simpl; [exact Hinv|].
  destruct (JS.Qltb _ _); [|exact Hinv].
  apply IH. unfold nextRandom.
  pose proof (tracked_playRandomPianoNote (nextNoteTime s) s Hinv) as H.
  set (s1 := playRandomPianoNote random (nextNoteTime s) s) in *.
  now apply (tracked_same s1).
Qed.

Lemma tracked_scheduler (now : Q) (s : State) :
  nodesTracked s -> nodesTracked (scheduler random now s).
Proof.
  intros Hinv. unfold scheduler. destruct (isPlaying s); [|exact Hinv].
  pose proof (tracked_noteLoop (loopFuel now s) now s Hinv) as H.
  set (s1 := noteLoop random _ now s) in *.
  now apply (tracked_same s1).
Qed.

Lemma tracked_timerFires (id : positive) (now : Q) (s : State) :
  nodesTracked s -> nodesTracked (timerFires random id now s).
Proof.
  intros Hinv. unfold timerFires. case_decide; [|exact Hinv].
  apply tracked_scheduler. now apply (tracked_same s).
Qed.

Lemma tracked_start (now : Q) (s : State) :
  nodesTracked s -> nodesTracked (start random now s).
Proof.
  intros Hinv. unfold start.
  assert (H1 : nodesTracked
                 match ctxState s with
                 | Suspended => set_ctxState Running s
                 | _ => s
                 end).
  { destruct (ctxState s); exact Hinv. }
  set (s1 := match ctxState s with Suspended => _ | _ => s end) in *.
  destruct (isPlaying s1); [exact H1|].
  apply tracked_scheduler. now apply (tracked_same s1).
Qed.

Lemma tracked_playSpeech (b : string) (now : Q) (s : State) :
  nodesTracked s -> nodesTracked (playSpeech decodePcm b now s).
Proof.
  intros Hinv. unfold playSpeech. destruct (String.eqb b ""); [exact Hinv|].
  assert (H1 : nodesTracked
                 match voiceSource s with
                 | Some v => set_voiceSource None (try_stop v s)
                 | None => s
                 end).
  { destruct (voiceSource s) as [v|]; [|exact Hinv].
    apply (tracked_same (try_stop v s)); try reflexivity.
    now apply tracked_try_stop. }
  set (s1 := match voiceSource s with Some v => _ | None => s end) in *.
  destruct (decodePcm b) as [[|x samples]|]; try exact H1.
  pose proof H1 as [Hfree _].
  apply (tracked_grow s1); try exact H1; unfold alloc, connect, update;
    cbn [nextId masterGain voiceGain heap nodes set_voiceSource set_heap
         set_nextId fst snd].
  - lia.
  - reflexivity.
  - reflexivity.
  - intros j Hj. rewrite !lookup_alter, !lookup_insert.
    repeat case_decide; try lia. reflexivity.
  - intros j Hj. rewrite !lookup_alter, !lookup_insert.
    repeat case_decide; try lia. apply Hfree. lia.
  - intros j Hj. exact Hj.
  - intros j n' Hj Hl. right.
    rewrite !lookup_alter, !lookup_insert in Hl.
    repeat case_decide; subst; simpl in Hl;
      try (injection Hl as <-; reflexivity);
      try (rewrite Hfree in Hl by lia; discriminate); try lia.
Qed.

(** After [stop()] every synthesis node is quiet. *)
Lemma stop_silences (s : State) :
  nodesTracked s ->
  forall id n', heap (stop s) !! id = Some n' ->
                isSynthesis (stop s) id n' = true -> quiet n'.
Proof.
  intros [_ Hsyn] id n' Hl Hs.
  destruct (stop_lookup_kind s id n' Hl) as (n & Hn & Hk & Hq & Hin).
  destruct (stop_fields s) as (_ & _ & _ & _ & _ & Hm & Hg & _).
  destruct (Hsyn id n Hn) as [H|H]; auto.
  unfold isSynthesis in *. now rewrite <- Hk, <- Hm, <- Hg.
Qed.

Lemma tracked_stop (s : State) : nodesTracked s -> nodesTracked (stop s).
Proof.
  intros Hinv. split.
  - destruct Hinv as [Hfree _]. intros id Hid.
    destruct (heap (stop s) !! id) as [n'|] eqn:E; [|reflexivity].
    destruct (stop_lookup_kind s id n' E) as (n & Hn & _).
    rewrite Hfree in Hn; [discriminate|].
    now rewrite <- (stop_nextId s).
  - intros id n' Hl Hs. right. exact (stop_silences s Hinv id n' Hl Hs).
Qed.

(** The store and the fields right after the constructor. *)
Lemma create_heap (forExport : bool) (initial : CtxState) :
  heap (create forExport initial)
  = alter (fun n => mkNode (kind n) (gainValue n) (automation n) (startAt n)
                      (stopAt n)
                      (outputs n ++ [if forExport then NodeRef 2 else CtxDestination]))
      1%nat
      (alter (fun n => mkNode (kind n) (gainValue n) (automation n) (startAt n)
                         (stopAt n)
                         (outputs n ++ [if forExport then NodeRef 2 else CtxDestination]))
         0%nat
         (let base :=
            <[1%nat := mkNode GainNode (Some 1%Q) [] None None []]>
              (<[0%nat := mkNode GainNode (Some (1 # 2)%Q) [] None None []]> ∅) in
          if forExport
          then <[2%nat := mkNode MediaStreamAudioDestinationNode None [] None None []]> base
          else base)).
Proof. destruct forExport; reflexivity. Qed.

Lemma create_fields (forExport : bool) (initial : CtxState) :
  nextId (create forExport initial) = (if forExport then 3 else 2)%nat
  /\ masterGain (create forExport initial) = 0%nat
  /\ voiceGain (create forExport initial) = 1%nat
  /\ nodes (create forExport initial) = []
  /\ timers (create forExport initial) = ∅
  /\ timerID (create forExport initial) = None
  /\ isPlaying (create forExport initial) = false
  /\ voiceSource (create forExport initial) = None
  /\ ctxState (create forExport initial) = initial.
Proof. destruct forExport; repeat split. Qed.

Lemma tracked_create (forExport : bool) (initial : CtxState) :
  nodesTracked (create forExport initial).
Proof.
  destruct (create_fields forExport initial) as (Hid & Hm & Hg & Hn & _).
  split.
  - intros id Hid'. rewrite Hid in Hid'. rewrite create_heap.
    rewrite !lookup_alter.
    destruct forExport; cbv zeta; rewrite !lookup_insert;
      repeat case_decide; try lia; apply lookup_empty.
  - intros id n Hl Hs. exfalso.
    unfold isSynthesis in Hs. rewrite Hm, Hg in Hs.
    rewrite create_heap, !lookup_alter in Hl.
    destruct forExport; cbv zeta in Hl; rewrite !lookup_insert in Hl;
      repeat case_decide; subst; simpl in Hl;
      try (injection Hl as <-; simpl in Hs; discriminate);
      try (rewrite lookup_empty in Hl; discriminate); try lia.
Qed.

Lemma tracked_perform (s : State) (call : Call) :
  nodesTracked s -> nodesTracked (perform random decodePcm s call).
Proof.
  destruct call; simpl.
  - apply tracked_start.
  - apply tracked_stop.
  - apply tracked_playSpeech.
  - apply tracked_triggerTransition.
  - apply tracked_timerFires.
Qed.

End AudioInvariant.

Section AudioTimers.
Import AudioSynth.

Variable random : nat -> Q.
Variable decodePcm : string -> option (list Q).

Lemma sameTimers_tracked (s s' : State) :
  sameTimers s s' -> timerTracked s -> timerTracked s'.
Proof. intros (Ht & Hi & Hp) [H1 H2]. split; rewrite ?Ht, ?Hi, ?Hp; auto. Qed.

Lemma sameTimers_trans (s s' s'' : State) :
  sameTimers s s' -> sameTimers s' s'' -> sameTimers s s''.
Proof. intros (A & B & C) (A' & B' & C'). repeat split; congruence. Qed.

Lemma sameTimers_playPianoTone (freq time : Q) (s : State) :
  sameTimers s (playPianoTone freq time s).
Proof. repeat split. Qed.

Lemma sameTimers_triggerTransition (t : Q) (s : State) :
  sameTimers s (triggerTransition t s).
Proof. repeat split. Qed.

Lemma sameTimers_playRandomPianoNote (time : Q) (s : State) :
  sameTimers s (playRandomPianoNote random time s).
Proof.
  unfold playRandomPianoNote, nextRandom.
  destruct (JS.Qltb _ _); [|repeat split].
  destruct (_ <? 11)%Z; repeat split.
Qed.

Lemma sameTimers_noteLoop (fuel : nat) (now : Q) :
  forall s, sameTimers s (noteLoop random fuel now s).
Proof.
  induction fuel as [|fuel IH]; intros s; simpl; [repeat split|].
  destruct (JS.Qltb _ _); [|repeat split].
  eapply sameTimers_trans; [|apply IH].
  unfold nextRandom.
  destruct (sameTimers_playRandomPianoNote (nextNoteTime s) s) as (A & B & C).
  repeat split; simpl; assumption.
Qed.

Lemma sameTimers_playSpeech (b : string) (now : Q) (s : State) :
  sameTimers s (playSpeech decodePcm b now s).
Proof.
  unfold playSpeech. destruct (String.eqb b ""); [repeat split|].
  destruct (voiceSource s), (decodePcm b) as [[|x l]|]; repeat split.
Qed.

(** The scheduler, entered with no timeout pending, leaves at most the
    one it records. *)
Lemma timers_scheduler (now : Q) (s : State) :
  timers s = ∅ -> timerTracked (scheduler random now s).
Proof.
  intros Hnone. unfold scheduler. destruct (isPlaying s) eqn:Hp.
  - destruct (sameTimers_noteLoop (loopFuel now s) now s) as (A & B & C).
    unfold setTimeout, set_timerID, set_nextTimer, set_timers.
    split; cbn [timers timerID isPlaying fst snd].
    + intros id Hid. rewrite A, Hnone in Hid. f_equal.
      apply elem_of_union in Hid as [Hid|Hid].
      * apply elem_of_singleton in Hid. now symmetry.
      * now apply not_elem_of_empty in Hid.
    + rewrite C, Hp. discriminate.
  - split; [rewrite Hnone; set_solver | auto].
Qed.

Lemma timers_timerFires (id : positive) (now : Q) (s : State) :
  timerTracked s -> timerTracked (timerFires random id now s).
Proof.
  intros [H1 H2]. unfold timerFires. case_decide as Hin; [|split; assumption].
  apply timers_scheduler. unfold clearTimeout. simpl.
  apply set_eq. intros e. split; [|set_solver].
  intros He. apply elem_of_difference in He as [He Hne].
  pose proof (H1 e He) as E1. pose proof (H1 id Hin) as E2.
  rewrite E1 in E2. injection E2 as ->. set_solver.
Qed.

Lemma timers_start (now : Q) (s : State) :
  timerTracked s -> timerTracked (start random now s).
Proof.
  intros [H1 H2]. unfold start.
  set (s1 := match ctxState s with Suspended => _ | _ => s end).
  assert (Hs1 : sameTimers s s1) by (subst s1; destruct (ctxState s); repeat split).
  destruct (isPlaying s1) eqn:Hp.
  - apply (sameTimers_tracked s); [exact Hs1 | split; assumption].
  - apply timers_scheduler. simpl. destruct Hs1 as (A & _ & C).
    rewrite A. apply H2. congruence.
Qed.

Lemma timers_stop (s : State) :
  timerTracked s -> timerTracked (stop s) /\ timers (stop s) = ∅.
Proof.
  intros [H1 H2].
  destruct (stop_fields s) as (_ & _ & Hp & Ht & _ & _ & _ & Hts).
  assert (Hnone : timers (stop s) = ∅).
  { rewrite Hts. apply set_eq. intros e. split; [|set_solver].
    destruct (timerID s) as [id|] eqn:E.
    - intros He. apply elem_of_difference in He as [He Hne].
      specialize (H1 e He). injection H1 as ->. set_solver.
    - intros He. specialize (H1 e He). discriminate. }
  split; [|exact Hnone]. split.
  - rewrite Hnone. set_solver.
  - intros _. exact Hnone.
Qed.

Lemma timers_create (forExport : bool) (initial : CtxState) :
  timerTracked (create forExport initial).
Proof.
  destruct (create_fields forExport initial) as (_ & _ & _ & _ & Ht & _).
  split; [rewrite Ht; set_solver | intros _; exact Ht].
Qed.

Lemma timers_perform (s : State) (call : Call) :
  timerTracked s -> timerTracked (perform random decodePcm s call).
Proof.
  destruct call; simpl.
  - apply timers_start.
  - apply timers_stop.
  - apply sameTimers_tracked, sameTimers_playSpeech.
  - apply sameTimers_tracked, sameTimers_triggerTransition.
  - apply timers_timerFires.
Qed.

(** Both invariants hold after every history. *)
Lemma after_tracked (forExport : bool) (initial : CtxState) (history : list Call) :
  nodesTracked (after random decodePcm forExport initial history)
  /\ timerTracked (after random decodePcm forExport initial history).
Proof.
  unfold after.
  assert (H : forall s, nodesTracked s /\ timerTracked s ->
              nodesTracked (fold_left (perform random decodePcm) history s)
              /\ timerTracked (fold_left (perform random decodePcm) history s)).
  { induction history as [|call history IH]; intros s Hs; simpl; [exact Hs|].
    apply IH. destruct Hs as [Hn Ht]. split.
    - now apply tracked_perform.
    - now apply timers_perform. }
  apply H. split; [apply tracked_create | apply timers_create].
Qed.

End AudioTimers.

(** ** The ambient scheduler: its loop ends by its guard *)

Section AudioScheduler.
Import AudioSynth.

Variable random : nat -> Q.
(** [Math.random()] is never negative. *)
Hypothesis random_nonneg : forall n, (0 <= random n)%Q.

Lemma playRandomPianoNote_time (time : Q) (s : State) :
  nextNoteTime (playRandomPianoNote random time s) = nextNoteTime s.
Proof.
  unfold playRandomPianoNote, nextRandom.
  destruct (JS.Qltb _ _); [|reflexivity].
  destruct (_ <? 11)%Z; reflexivity.
Qed.

(** With fuel for more than half the distance to the horizon, the loop
    runs until the next note lies at or beyond the horizon. *)
Lemma noteLoop_horizon (fuel : nat) (now : Q) :
  forall s,
    (now + 1 - nextNoteTime s < 2 * inject_Z (Z.of_nat fuel))%Q ->
    (now + 1 <= nextNoteTime (noteLoop random fuel now s))%Q.
Proof.
  induction fuel as [|fuel IH]; intros s Hfuel.
  - cbn [noteLoop]. change (inject_Z (Z.of_nat 0)) with 0%Q in Hfuel. lra.
  - cbn [noteLoop].
    destruct (JS.Qltb (nextNoteTime s) (now + 1)) eqn:Hguard.
    + apply IH. unfold nextRandom. cbn [nextNoteTime set_nextNoteTime fst snd].
      cbn [nextNoteTime set_rngPos]. rewrite playRandomPianoNote_time.
      rewrite Nat2Z.inj_succ in Hfuel. unfold Z.succ in Hfuel.
      rewrite inject_Z_plus in Hfuel. change (inject_Z 1) with 1%Q in Hfuel.
      pose proof (random_nonneg
                    (rngPos (playRandomPianoNote random (nextNoteTime s) s))).
      lra.
    + apply Qltb_ge in Hguard. exact Hguard.
Qed.

(** The fuel that the scheduler is given is enough. *)
Lemma loopFuel_enough (now : Q) (s : State) :
  (now + 1 <= nextNoteTime (noteLoop random (loopFuel now s) now s))%Q.
Proof.
  apply noteLoop_horizon. unfold loopFuel.
  set (x := ((now + 1 - nextNoteTime s) / 2)%Q).
  rewrite Nat2Z.inj_succ. unfold Z.succ. rewrite inject_Z_plus.
  change (inject_Z 1) with 1%Q.
  pose proof (Qle_ceiling x) as Hceil.
  assert (Hmax : (inject_Z (Qceiling x) <= inject_Z (Z.of_nat (Z.to_nat (Qceiling x))))%Q).
  { rewrite <- Zle_Qle. lia. }
  assert (Hx : (now + 1 - nextNoteTime s == 2 * x)%Q) by (unfold x; field).
  lra.
Qed.

End AudioScheduler.

(** C7.  Take the engine after any history of calls and timeouts since
    its construction, and call [stop()].  Then the node list is empty;
    every synthesis node in the store (every oscillator, filter and
    non-bus gain that was ever created) is quiet, that is stopped and
    disconnected; no timeout is pending and [timerID] is cleared; the
    narration source, if there was one, is stopped, disconnected and
    cleared; the context is closed; and a second [stop()] leaves the
    state as it is. *)
Theorem stop_leaves_nothing_active :
  forall (random : nat -> Q) (decodePcm : string -> option (list Q))
         (forExport : bool) (initial : AudioSynth.CtxState)
         (history : list AudioSynth.Call),
    let s := AudioSynth.after random decodePcm forExport initial history in
    let s' := AudioSynth.stop s in
    AudioSynth.nodes s' = []
    /\ (forall id n, AudioSynth.heap s' !! id = Some n ->
                     AudioSynth.isSynthesis s' id n = true ->
                     AudioSynth.quiet n)
    /\ (forall id n, In id (AudioSynth.nodes s) ->
                     AudioSynth.heap s' !! id = Some n -> AudioSynth.quiet n)
    /\ AudioSynth.isPlaying s' = false
    /\ AudioSynth.timerID s' = None
    /\ AudioSynth.timers s' = ∅
    /\ AudioSynth.voiceSource s' = None
    /\ (forall v n, AudioSynth.voiceSource s = Some v ->
                    AudioSynth.heap s' !! v = Some n -> AudioSynth.quiet n)
    /\ AudioSynth.ctxState s' = AudioSynth.Closed
    /\ AudioSynth.stop s' = s'.
Proof.
  intros random decodePcm forExport initial history s s'.
  destruct (after_tracked random decodePcm forExport initial history)
    as [Hnodes Htimers].
  fold s in Hnodes, Htimers.
  destruct (stop_fields s) as (Hn & Hv & Hp & Ht & Hc & _).
  destruct (timers_stop s Htimers) as [_ Hnone].
  subst s'.
  split; [exact Hn|].
  split; [exact (stop_silences s Hnodes)|].
  split.
  { intros id n Hin Hl.
    destruct (stop_lookup s id n Hl) as (n0 & _ & _ & Hq). apply Hq. now left. }
  split; [exact Hp|]. split; [exact Ht|]. split; [exact Hnone|].
  split; [exact Hv|].
  split.
  { intros v n Hvs Hl.
    destruct (stop_lookup s v n Hl) as (n0 & _ & _ & Hq). apply Hq. now right. }
  split; [exact Hc | apply stop_twice].
Qed.

(** * The properties on concrete inputs *)

Section Scenarios.
Import Examples.

(** Scenario A of the specification: two steps; step 0 at the start,
    step 1 from two seconds on, also during the hold. *)
Example scenarioA_steps :
  VideoRenderer.totalItems scenarioA = 2
  /\ VideoRenderer.stepIndex scenarioA config 0 = 0
  /\ VideoRenderer.stepIndex scenarioA config 1999 = 0
  /\ VideoRenderer.stepIndex scenarioA config 2000 = 1
  /\ VideoRenderer.stepIndex scenarioA config 6500 = 1.
Proof. repeat split. Qed.

Example scenarioA_playback :
  let s := VideoRenderer.run upper random scenarioA config playbackA session0 in
  VideoRenderer.transitionCalls s = 1%nat
  /\ length (VideoRenderer.frames s) = 4%nat
  /\ map VideoRenderer.stepShown (VideoRenderer.frames s) = [0; 0; 1; 1]
  /\ length (VideoRenderer.resolved s) = 1%nat
  /\ VideoRenderer.recorder s = VideoRenderer.Inactive
  /\ AudioSynth.nodes (VideoRenderer.audioSynth s) = [].
Proof. vm_compute. repeat split. Qed.

Example wrap_short_words :
  WordWrap.getLines (Canvas.newContext metrics) "to be or not to be" 40
  = ["to be"; "or not"; "to be"].
Proof. vm_compute. reflexivity. Qed.

(** A word wider than the limit stands alone and stays too wide. *)
Example wrap_long_word :
  WordWrap.getLines (Canvas.newContext metrics) "a incomprehensibilities b" 40
  = ["a"; "incomprehensibilities"; "b"].
Proof. vm_compute. reflexivity. Qed.

Example solve_scenarioA :
  let '(z, layout) := ImageRenderer.solve metrics upper scenarioA config in
  ImageRenderer.fontSize z = 55
  /\ (ImageRenderer.rowPadding z == 120)%Q
  /\ (ImageRenderer.totalHeight layout == 560)%Q
  /\ (ImageRenderer.availableTableHeight metrics upper scenarioA config == 2200)%Q.
Proof. vm_compute. repeat split. Qed.

(** The grid of the NEON background has 22 lines each way, the last
    one at 1050. *)
Example grid_lines :
  length (VideoRenderer.gridCoords VideoRenderer.canvasWidth) = 22%nat
  /\ last (VideoRenderer.gridCoords VideoRenderer.canvasWidth) = Some 1050%Q.
Proof. vm_compute. split; reflexivity. Qed.

(** An engine that played a chord and a stinger holds eight synthesis
    nodes and one pending timeout; [stop()] leaves none of either. *)
Example engine_history :
  let s := AudioSynth.after random decodePcm true AudioSynth.Running
             [AudioSynth.CallStart 0;
              AudioSynth.TimeoutDue 1 (1 # 10);
              AudioSynth.CallTriggerTransition 2]%Q in
  length (AudioSynth.nodes s) = 8%nat
  /\ AudioSynth.timerID s = Some 2%positive
  /\ AudioSynth.nodes (AudioSynth.stop s) = []
  /\ AudioSynth.timerID (AudioSynth.stop s) = None
  /\ AudioSynth.ctxState (AudioSynth.stop s) = AudioSynth.Closed.
Proof. vm_compute. repeat split. Qed.

End Scenarios.

Section Witnesses.
Import Examples.

Lemma session0_fresh : VideoRenderer.fresh session0.
Proof. unfold VideoRenderer.fresh. repeat split. Defined.

(** C1 at scenario A, 2.5 seconds into the playback. *)
Lemma stepIndex_is_clamped_floor_witness :
  0 < VideoRenderer.totalItems scenarioA
  /\ (0 < Types.durationPerItem config)%Q
  /\ (0 <= 2500)%Q
  /\ VideoRenderer.stepIndex scenarioA config 2500 = 1.
Proof.
  assert (H1 : 0 < VideoRenderer.totalItems scenarioA) by reflexivity.
  assert (H2 : (0 < Types.durationPerItem config)%Q) by reflexivity.
  assert (H3 : (0 <= 2500)%Q) by (vm_compute; discriminate).
  split; [exact H1|]. split; [exact H2|]. split; [exact H3|].
  destruct (stepIndex_is_clamped_floor scenarioA config 2500 H1 H2 H3)
    as (_ & H & _).
  rewrite H. reflexivity.
Defined.

(** C2 at the playback of scenario A: one boundary, one transition. *)
Lemma transitions_once_per_boundary_witness :
  VideoRenderer.transitionCalls
    (VideoRenderer.run upper random scenarioA config playbackA session0)
  = 1%nat.
Proof.
  assert (H1 : 1 <= VideoRenderer.totalItems scenarioA)
    by (vm_compute; discriminate).
  assert (H2 : (0 < Types.durationPerItem config)%Q) by reflexivity.
  assert (H3 : VideoRenderer.hasColumns scenarioA = true) by reflexivity.
  assert (H4 : VideoRenderer.stamps playbackA
               = (100 :: [1100; 2100; 4100; 7200])%Q) by reflexivity.
  assert (H5 : (0 < 100)%Q) by reflexivity.
  assert (H6 : StronglySorted Qle (100 :: [1100; 2100; 4100; 7200])%Q).
  { repeat constructor; vm_compute; discriminate. }
  assert (H7 : forall k,
             0 <= k < VideoRenderer.totalItems scenarioA ->
             exists t, In t (100 :: [1100; 2100; 4100; 7200])%Q
                       /\ VideoRenderer.rawStepIndex config (t - 100) = k).
  { intros k Hk.
    assert (E : VideoRenderer.totalItems scenarioA = 2) by reflexivity.
    rewrite E in Hk.
    assert (Hcases : k = 0 \/ k = 1) by lia.
    destruct Hcases as [-> | ->].
    - exists 100%Q. split; [simpl; auto | reflexivity].
    - exists 2100%Q. split; [simpl; auto | reflexivity]. }
  destruct (transitions_once_per_boundary upper random scenarioA config
              playbackA session0 100 [1100; 2100; 4100; 7200]%Q
              H1 H2 H3 session0_fresh H4 H5 H6 H7) as [H _].
  rewrite H. reflexivity.
Defined.

(** C6 at scenario A: the frame at 7.1 seconds ends the export. *)
Lemma export_stops_after_run_time_witness :
  let s := VideoRenderer.run upper random scenarioA config beforeEnd session0 in
  let s1 := VideoRenderer.handle upper random scenarioA config
              (VideoRenderer.AnimationFrame 7200 7) s in
  VideoRenderer.frames s1 = VideoRenderer.frames s
  /\ VideoRenderer.recorder s1 = VideoRenderer.Inactive
  /\ length (VideoRenderer.resolved s1) = 1%nat.
Proof.
  assert (H1 : VideoRenderer.frameRequested
                 (VideoRenderer.run upper random scenarioA config beforeEnd
                    session0) = true) by (vm_compute; reflexivity).
  assert (H2 : (VideoRenderer.totalDuration scenarioA config + 3000
                < VideoRenderer.elapsedAt
                    (VideoRenderer.run upper random scenarioA config beforeEnd
                       session0) 7200)%Q) by (vm_compute; reflexivity).
  pose proof (export_stops_after_run_time upper random scenarioA config
                session0 beforeEnd [] 7200 7 session0_fresh H1 H2) as H.
  cbv zeta in *. destruct H as (Hf & _ & Hr & _ & Hres & _).
  split; [exact Hf|]. split; [exact Hr|]. rewrite Hres. reflexivity.
Defined.


(** C9 at scenario B. *)
Lemma single_column_has_no_attribute_block_witness :
  VideoRenderer.numAttributes scenarioB = 1
  /\ VideoRenderer.totalItems scenarioB = 2
  /\ Forall (fun f => VideoRenderer.attributeBlock f = [])
            (VideoRenderer.frames
               (VideoRenderer.run upper random scenarioB config playbackA
                  session0)).
Proof.
  destruct (single_column_has_no_attribute_block upper random scenarioB config
              session0 playbackA eq_refl session0_fresh)
    as (H1 & H2 & _ & H4).
  split; [exact H1|]. split; [exact H2 | exact H4].
Defined.

End Witnesses.

(** C5 (the claim fails on the code).  On an empty dataset the export's
    first frame divides zero by zero: the progress that [drawFrame]
    hands to [onProgress] is [NaN].  The rest is as claimed: no
    transition, the frame is drawn for step -1 without an exception, and
    the hold ends with one resolution. *)
Theorem empty_dataset_progress_is_NaN :
  VideoRenderer.totalItems Examples.emptyTable = 0
  /\ VideoRenderer.totalDuration Examples.emptyTable Examples.config = 0%Q
  /\ let s1 := VideoRenderer.drawFrame Examples.upper Examples.emptyTable
                 Examples.config 16 0 Examples.session0 in
     VideoRenderer.progressReports s1 = [JS.NaN]
     /\ map VideoRenderer.stepShown (VideoRenderer.frames s1) = [-1]
     /\ VideoRenderer.transitionCalls s1 = 0%nat
     /\ VideoRenderer.uncaught s1 = false
     /\ let s2 := VideoRenderer.run Examples.upper Examples.random
                    Examples.emptyTable Examples.config
                    [VideoRenderer.AnimationFrame 1016 1;
                     VideoRenderer.AnimationFrame 3017 3;
                     VideoRenderer.AnimationFrame 3033 3]%Q s1 in
        VideoRenderer.progressReports s2 = [JS.NaN; JS.Fin 1]
        /\ VideoRenderer.transitionCalls s2 = 0%nat
        /\ length (VideoRenderer.resolved s2) = 1%nat.
Proof. vm_compute. repeat split. Qed.

(** * Further properties of the code *)

(** ** The word wrap is greedy *)

Section WordWrapGreedy.
Import Canvas WordWrap.

Variable ctx : Context.
Variable maxWidth : Q.

Lemma split_app (sep : ascii) (a b : string) :
  JS.split sep (a ++ String sep b)%string = JS.split sep a ++ JS.split sep b.
Proof.
  induction a as [|ch a IH].
  - simpl. rewrite Ascii.eqb_refl. reflexivity.
  - rewrite string_app_cons. simpl. rewrite IH.
    destruct (Ascii.eqb ch sep); [reflexivity|].
    pose proof (split_nonempty sep a) as Hn.
    destruct (JS.split sep a) as [|w ws]; [contradiction | reflexivity].
Qed.

(** Appending a word to a line leaves its first word as it is. *)
Lemma firstWord_app (line word : string) :
  firstWord (line ++ " " ++ word)%string = firstWord line.
Proof.
  unfold firstWord.
  change (line ++ " " ++ word)%string with (line ++ String " " word)%string.
  rewrite split_app.
  pose proof (split_nonempty " " line) as Hn.
  destruct (JS.split " " line); [contradiction | reflexivity].
Qed.

Lemma firstWord_word (word : string) :
  JS.includes " " word = false -> firstWord word = word.
Proof. intros H. unfold firstWord. now rewrite split_single. Qed.

(** The break after [a] was forced: the first word of the next line
    did not fit on it. *)
Local Notation "'forced' a b" :=
  (maxWidth <= width ctx (a ++ " " ++ firstWord b)%string)%Q
  (at level 10, a at level 9, b at level 9).

Lemma last_case {A} (l : list A) : l = [] \/ exists l' x, l = l' ++ [x].
Proof. induction l using rev_ind; [left; reflexivity | right; eauto]. Qed.

Lemma getLines_loop_forced (ws : list string) :
  forall cur lines,
    Forall (fun w => JS.includes " " w = false) ws ->
    (forall pre a b post, lines ++ [cur] = pre ++ a :: b :: post -> forced a b) ->
    forall pre a b post,
      getLines_loop ctx maxWidth ws cur lines = pre ++ a :: b :: post ->
      forced a b.
Proof.
  induction ws as [|w ws IH]; intros cur lines Hws Hinv; simpl.
  - exact Hinv.
  - inversion Hws as [|? ? Hw Hrest]; subst.
    destruct (JS.Qltb _ maxWidth) eqn:E.
    + apply IH; [exact Hrest|].
      intros pre a b post Heq.
      destruct (last_case post) as [->|(post' & x & ->)].
      * replace (pre ++ [a; b]) with ((pre ++ [a]) ++ [b]) in Heq
          by (rewrite <- app_assoc; reflexivity).
        apply app_inj_tail in Heq as [Hl Hb]. subst b.
        rewrite firstWord_app. apply (Hinv pre a cur []).
        rewrite Hl, <- app_assoc. reflexivity.
      * replace (pre ++ a :: b :: post' ++ [x])
          with ((pre ++ a :: b :: post') ++ [x]) in Heq
          by (rewrite <- app_assoc; reflexivity).
        apply app_inj_tail in Heq as [Hl _].
        apply (Hinv pre a b (post' ++ [cur])).
        rewrite Hl, <- app_assoc. reflexivity.
    + apply IH; [exact Hrest|].
      intros pre a b post Heq.
      destruct (last_case post) as [->|(post' & x & ->)].
      * replace (pre ++ [a; b]) with ((pre ++ [a]) ++ [b]) in Heq
          by (rewrite <- app_assoc; reflexivity).
        apply app_inj_tail in Heq as [Hl Hb]. subst b.
        apply app_inj_tail in Hl as [_ Ha]. subst a.
        rewrite (firstWord_word w Hw). apply Qltb_ge. exact E.
      * replace (pre ++ a :: b :: post' ++ [x])
          with ((pre ++ a :: b :: post') ++ [x]) in Heq
          by (rewrite <- app_assoc; reflexivity).
        apply app_inj_tail in Heq as [Hl _].
        apply (Hinv pre a b post'). exact Hl.
Qed.

Lemma getLines_loop_length (ws : list string) :
  forall cur lines,
    (length lines < length (getLines_loop ctx maxWidth ws cur lines)
     <= length lines + 1 + length ws)%nat.
Proof.
  induction ws as [|w ws IH]; intros cur lines; simpl.
  - rewrite length_app. simpl. lia.
  - destruct (JS.Qltb _ maxWidth).
    + specialize (IH (cur ++ " " ++ w)%string lines). lia.
    + specialize (IH w (lines ++ [cur])). rewrite length_app in IH.
      simpl in IH. lia.
Qed.

End WordWrapGreedy.

(** X1.  [getLines] breaks a line only when it has to: wherever line
    [a] is followed by line [b], the first word of [b] appended to [a]
    with a space would have been at least [maxWidth] wide. *)
Theorem getLines_breaks_only_when_forced :
  forall (ctx : Canvas.Context) (text : string) (maxWidth : Q)
         (pre post : list string) (a b : string),
    WordWrap.getLines ctx text maxWidth = pre ++ a :: b :: post ->
    (maxWidth <= Canvas.width ctx (a ++ " " ++ WordWrap.firstWord b)%string)%Q.
Proof.
  intros ctx text maxWidth pre post a b. unfold WordWrap.getLines.
  pose proof (split_pieces " " text) as Hpieces.
  destruct (JS.split " " text) as [|w0 ws]; [now destruct pre|].
  inversion Hpieces as [|? ? _ Hws]; subst.
  apply getLines_loop_forced; [exact Hws|].
  intros pre' a' b' post' Heq. simpl in Heq.
  destruct pre' as [|? [|? ?]]; discriminate.
Qed.

Lemma getLines_breaks_only_when_forced_witness :
  let ctx := Canvas.newContext Examples.metrics in
  WordWrap.getLines ctx "aa bb cc" 40 = [] ++ "aa bb" :: "cc" :: []
  /\ (40 <= Canvas.width ctx ("aa bb" ++ " " ++ WordWrap.firstWord "cc")%string)%Q.
Proof.
  split; [vm_compute; reflexivity|].
  apply (getLines_breaks_only_when_forced
           (Canvas.newContext Examples.metrics) "aa bb cc" 40 [] [] "aa bb" "cc").
  vm_compute. reflexivity.
Defined.

(** X2.  [getLines] returns at least one line and at most one line per
    word; in particular the empty text gives the single empty line. *)
Theorem getLines_line_count :
  forall (ctx : Canvas.Context) (text : string) (maxWidth : Q),
    (1 <= length (WordWrap.getLines ctx text maxWidth)
       <= length (JS.split " " text))%nat
    /\ WordWrap.getLines ctx "" maxWidth = [""].
Proof.
  intros ctx text maxWidth. split; [|reflexivity].
  unfold WordWrap.getLines.
  pose proof (split_nonempty " " text) as Hne.
  destruct (JS.split " " text) as [|w0 ws]; [contradiction|].
  pose proof (getLines_loop_length ctx maxWidth ws w0 []) as H.
  simpl in *. lia.
Qed.

(** ** From the step to the cell on screen *)

Section StepCells.
Import Types VideoRenderer.

Variable d : TableData.

Lemma numAttributes_pos : 0 < numAttributes d.
Proof. unfold numAttributes. lia. Qed.

Lemma at_in_range {A} (l : list A) (i : Z) :
  0 <= i < Z.of_nat (length l) -> exists x, at_ l i = Some x.
Proof.
  intros H. unfold at_.
  destruct (Z.ltb_spec i 0) as [|_]; [lia|].
  destruct (nth_error l (Z.to_nat i)) as [x|] eqn:E; [now exists x|].
  apply nth_error_None in E. lia.
Qed.

Lemma step_split (cur : Z) :
  0 <= cur ->
  cur = rowIdx d cur * numAttributes d + attrIdx d cur
  /\ 0 <= attrIdx d cur < numAttributes d
  /\ 0 <= rowIdx d cur.
Proof.
  intros H. pose proof numAttributes_pos as Hpos.
  unfold rowIdx, attrIdx. rewrite Z.rem_mod_nonneg by lia.
  pose proof (Z.div_mod cur (numAttributes d) ltac:(lia)) as Hdm.
  pose proof (Z.mod_pos_bound cur (numAttributes d) Hpos) as Hb.
  pose proof (Z.div_pos cur (numAttributes d) H Hpos) as Hq.
  split; [|split]; lia.
Qed.

Lemma rowIdx_bound (cur : Z) :
  0 <= cur < totalItems d -> 0 <= rowIdx d cur < Z.of_nat (length (data d)).
Proof.
  intros [H0 H1]. pose proof numAttributes_pos as Hpos.
  split; [apply (step_split cur H0)|].
  unfold rowIdx. apply Z.div_lt_upper_bound; [exact Hpos|].
  unfold totalItems in H1. lia.
Qed.

Lemma colIdx_bound (cur : Z) :
  0 <= cur -> 1 < numCols d -> 1 <= colIdx d cur < numCols d.
Proof.
  intros H0 Hc. destruct (step_split cur H0) as (_ & Ha & _).
  unfold colIdx. destruct (Z.gtb_spec (numCols d) 1) as [_|]; [|lia].
  unfold numAttributes in Ha. lia.
Qed.

(** The step of a row and an attribute. *)
Lemma step_of_cell (r a : Z) :
  0 <= r -> 0 <= a < numAttributes d ->
  rowIdx d (r * numAttributes d + a) = r
  /\ attrIdx d (r * numAttributes d + a) = a.
Proof.
  intros Hr Ha. unfold rowIdx, attrIdx.
  assert (0 <= r * numAttributes d) by (apply Z.mul_nonneg_nonneg; lia).
  rewrite Z.rem_mod_nonneg by lia. split.
  - rewrite Z.add_comm, Z.div_add by lia. rewrite Z.div_small by lia. lia.
  - rewrite Z.add_comm, Z.mod_add by lia. apply Z.mod_small. lia.
Qed.

End StepCells.

(** X3.  For a table with at least one column, every step of the
    sequence addresses an existing row and an existing column: the row
    lookup [data.data[rowIdx]] and the header lookup
    [data.columns[colIdx]] are defined, and with more than one column
    the column shown is never the subject column 0. *)
Theorem step_addresses_existing_cell :
  forall (d : Types.TableData) (cur : Z),
    VideoRenderer.hasColumns d = true ->
    0 <= cur < VideoRenderer.totalItems d ->
    (exists row, Types.at_ (Types.data d) (VideoRenderer.rowIdx d cur) = Some row)
    /\ (exists header,
          Types.at_ (Types.columns d) (VideoRenderer.colIdx d cur) = Some header)
    /\ (1 < VideoRenderer.numCols d ->
        1 <= VideoRenderer.colIdx d cur < VideoRenderer.numCols d)
    /\ cur = VideoRenderer.rowIdx d cur * VideoRenderer.numAttributes d
             + VideoRenderer.attrIdx d cur.
Proof.
  intros d cur Hcols Hcur.
  split; [|split; [|split]].
  - apply at_in_range, rowIdx_bound, Hcur.
  - apply at_in_range.
    destruct (Z_lt_le_dec 1 (VideoRenderer.numCols d)) as [Hc|Hc].
    + pose proof (colIdx_bound d cur ltac:(lia) Hc) as H.
      unfold VideoRenderer.numCols in H. lia.
    + unfold VideoRenderer.colIdx.
      destruct (Z.gtb_spec (VideoRenderer.numCols d) 1); [lia|].
      unfold VideoRenderer.hasColumns in Hcols.
      destruct (Types.columns d); [discriminate | simpl; lia].
  - intros Hc. apply colIdx_bound; lia.
  - apply (step_split d cur). lia.
Qed.

Lemma step_addresses_existing_cell_witness :
  (exists row, Types.at_ (Types.data Examples.scenarioA)
                 (VideoRenderer.rowIdx Examples.scenarioA 1) = Some row)
  /\ (exists header,
        Types.at_ (Types.columns Examples.scenarioA)
          (VideoRenderer.colIdx Examples.scenarioA 1) = Some header)
  /\ (1 < VideoRenderer.numCols Examples.scenarioA ->
      1 <= VideoRenderer.colIdx Examples.scenarioA 1
        < VideoRenderer.numCols Examples.scenarioA)
  /\ 1 = VideoRenderer.rowIdx Examples.scenarioA 1
         * VideoRenderer.numAttributes Examples.scenarioA
         + VideoRenderer.attrIdx Examples.scenarioA 1.
Proof.
  apply (step_addresses_existing_cell Examples.scenarioA 1).
  - reflexivity.
  - vm_compute. split; [discriminate | reflexivity].
Defined.

(** X4.  With more than one column the steps enumerate the attribute
    cells row by row: every cell of row [r] and attribute column [j]
    (columns 1 and up) is the cell of exactly one step, the step
    [r * numAttributes + (j - 1)], and a later step shows a later cell
    in row-major order. *)
Theorem steps_enumerate_cells_row_major :
  forall (d : Types.TableData) (r j : Z),
    0 <= r < Z.of_nat (length (Types.data d)) ->
    1 <= j < VideoRenderer.numCols d ->
    let cur := r * VideoRenderer.numAttributes d + (j - 1) in
    0 <= cur < VideoRenderer.totalItems d
    /\ VideoRenderer.rowIdx d cur = r
    /\ VideoRenderer.colIdx d cur = j
    /\ (forall cur',
          0 <= cur' ->
          VideoRenderer.rowIdx d cur' = r -> VideoRenderer.colIdx d cur' = j ->
          cur' = cur)
    /\ (forall cur',
          cur < cur' ->
          r < VideoRenderer.rowIdx d cur'
          \/ (VideoRenderer.rowIdx d cur' = r /\ j < VideoRenderer.colIdx d cur')).
Proof.
  intros d r j Hr Hj cur.
  assert (HnA : VideoRenderer.numAttributes d = VideoRenderer.numCols d - 1).
  { unfold VideoRenderer.numAttributes. lia. }
  assert (Hgt : (VideoRenderer.numCols d >? 1) = true) by (apply Z.gtb_lt; lia).
  destruct (step_of_cell d r (j - 1) ltac:(lia) ltac:(lia)) as [Hrow Hattr].
  fold cur in Hrow, Hattr.
  assert (Hcur0 : 0 <= cur) by (subst cur; nia).
  split; [|split; [|split; [|split]]].
  - split; [exact Hcur0|]. unfold VideoRenderer.totalItems. subst cur. nia.
  - exact Hrow.
  - unfold VideoRenderer.colIdx. rewrite Hgt, Hattr. lia.
  - intros cur' H0 Hrow' Hcol'.
    destruct (step_split d cur' H0) as (Hsplit & _ & _).
    unfold VideoRenderer.colIdx in Hcol'. rewrite Hgt in Hcol'.
    rewrite Hsplit, Hrow'. subst cur. lia.
  - intros cur' Hlt.
    destruct (step_split d cur' ltac:(lia)) as (Hsplit & Ha & _).
    unfold VideoRenderer.colIdx. rewrite Hgt.
    destruct (Z_lt_le_dec r (VideoRenderer.rowIdx d cur')) as [|Hle]; [now left|].
    right.
    assert (VideoRenderer.rowIdx d cur' = r) by (subst cur; nia).
    split; [assumption|]. subst cur. nia.
Qed.

Lemma steps_enumerate_cells_row_major_witness :
  let d := Examples.scenarioA in
  let cur := 1 * VideoRenderer.numAttributes d + (1 - 1) in
  0 <= cur < VideoRenderer.totalItems d
  /\ VideoRenderer.rowIdx d cur = 1
  /\ VideoRenderer.colIdx d cur = 1
  /\ (forall cur',
        0 <= cur' ->
        VideoRenderer.rowIdx d cur' = 1 -> VideoRenderer.colIdx d cur' = 1 ->
        cur' = cur)
  /\ (forall cur',
        cur < cur' ->
        1 < VideoRenderer.rowIdx d cur'
        \/ (VideoRenderer.rowIdx d cur' = 1 /\ 1 < VideoRenderer.colIdx d cur')).
Proof.
  apply (steps_enumerate_cells_row_major Examples.scenarioA 1 1).
  - simpl. lia.
  - vm_compute. split; [discriminate | reflexivity].
Defined.

(** ** The fade envelope of a step *)

Section FadeEnvelope.
Import Types VideoRenderer.

Variable c : AnimationConfig.
Hypothesis duration_pos : (0 < durationPerItem c)%Q.

Lemma Qtrunc_nonneg (x : Q) : (0 <= x)%Q -> Qtrunc x = Qfloor x.
Proof.
  intros H. unfold Qtrunc.
  destruct (Qle_bool 0 x) eqn:E; [reflexivity|].
  apply Qle_bool_iff in H. congruence.
Qed.

(** [elapsed % durationPerItem] is the time spent in the current
    step. *)
Lemma Qrem_bounds (elapsed : Q) :
  (0 <= elapsed)%Q ->
  (0 <= Qrem elapsed (durationPerItemMs c) < durationPerItemMs c)%Q
  /\ (elapsed == inject_Z (rawStepIndex c elapsed) * durationPerItemMs c
                 + Qrem elapsed (durationPerItemMs c))%Q.
Proof.
  intros H. pose proof (durationMs_pos c duration_pos) as Hd.
  assert (Hq : (0 <= elapsed / durationPerItemMs c)%Q).
  { apply Qle_shift_div_l; [exact Hd | lra]. }
  unfold Qrem, rawStepIndex. rewrite (Qtrunc_nonneg _ Hq).
  pose proof (Qfloor_le (elapsed / durationPerItemMs c)) as Hlo.
  pose proof (Qlt_floor (elapsed / durationPerItemMs c)) as Hhi.
  set (q := (elapsed / durationPerItemMs c)%Q) in *.
  assert (He : (elapsed == q * durationPerItemMs c)%Q).
  { subst q. field. lra. }
  rewrite inject_Z_plus in Hhi. change (inject_Z 1) with 1%Q in Hhi.
  set (n := inject_Z (Qfloor q)) in *.
  split; [split|]; nra.
Qed.

Lemma opacityAt_bounds (stepTime : Q) :
  (0 <= stepTime <= durationPerItemMs c)%Q ->
  (0 <= opacityAt c stepTime <= 1)%Q.
Proof.
  intros [H0 H1]. unfold opacityAt, fadeTime.
  destruct (JS.Qltb (durationPerItemMs c - 300) stepTime) eqn:E2.
  - apply Qltb_lt in E2. split.
    + apply Qle_shift_div_l; lra.
    + apply Qle_shift_div_r; lra.
  - destruct (JS.Qltb stepTime 300) eqn:E1; [|lra].
    apply Qltb_lt in E1. split.
    + apply Qle_shift_div_l; lra.
    + apply Qle_shift_div_r; lra.
Qed.

End FadeEnvelope.

(** X5.  For a positive duration per item and [elapsed >= 0], the
    step time [elapsed % durationPerItem] lies in
    [[0, durationPerItem)], it is what remains of [elapsed] after the
    whole steps, and the opacity that the fade envelope gives the
    attribute block lies in [[0, 1]] (also when the step is shorter
    than the two fades of 300 ms together). *)
Theorem fade_opacity_within_unit_interval :
  forall (c : Types.AnimationConfig) (elapsed : Q),
    (0 < Types.durationPerItem c)%Q ->
    (0 <= elapsed)%Q ->
    let duration := VideoRenderer.durationPerItemMs c in
    let stepTime := VideoRenderer.Qrem elapsed duration in
    (0 <= stepTime < duration)%Q
    /\ (elapsed
        == inject_Z (VideoRenderer.rawStepIndex c elapsed) * duration + stepTime)%Q
    /\ (0 <= VideoRenderer.opacityAt c stepTime <= 1)%Q.
Proof.
  intros c elapsed Hd He duration stepTime.
  destruct (Qrem_bounds c Hd elapsed He) as [Hb Heq].
  split; [exact Hb|]. split; [exact Heq|].
  apply opacityAt_bounds. subst stepTime duration. lra.
Qed.

Lemma fade_opacity_within_unit_interval_witness :
  let duration := VideoRenderer.durationPerItemMs Examples.config in
  let stepTime := VideoRenderer.Qrem 4100 duration in
  (0 <= stepTime < duration)%Q
  /\ (4100 == inject_Z (VideoRenderer.rawStepIndex Examples.config 4100) * duration
              + stepTime)%Q
  /\ (0 <= VideoRenderer.opacityAt Examples.config stepTime <= 1)%Q.
Proof.
  apply (fade_opacity_within_unit_interval Examples.config 4100).
  - reflexivity.
  - discriminate.
Defined.

(** ** The alpha that drawing commands are issued with *)

Section DrawInvariant.
Import Canvas.

(** A property of alpha values, and the drawing code that keeps it:
    from a context whose current and saved states have it, the code
    ends in such a context and every command it issues has it. *)
Variable P : Q -> Prop.

Local Abbreviation okStyle st := (P (globalAlpha st)).
Local Abbreviation okCx cx := (okStyle (cur cx) /\ Forall (fun st => okStyle st) (saved cx)).
Local Abbreviation okLog log :=
  (Forall (fun cmd => okStyle (VideoRenderer.styleOf cmd)) log).
Local Abbreviation safe m :=
  (forall cx, okCx cx -> okCx (snd (fst (m cx))) /\ okLog (snd (m cx))).

Lemma safe_ret {A} (a : A) : safe (ret a).
Proof. intros cx H. simpl. split; [exact H | constructor]. Qed.

Lemma safe_bind {A B} (m : Draw A) (k : A -> Draw B) :
  safe m -> (forall a, safe (k a)) -> safe (bind m k).
Proof.
  intros Hm Hk cx Hcx. unfold bind.
  specialize (Hm cx Hcx). destruct (m cx) as [[a c1] l1]. simpl in Hm.
  destruct Hm as [Hc1 Hl1].
  specialize (Hk a c1 Hc1). destruct (k a c1) as [[b c2] l2]. simpl in *.
  destruct Hk as [Hc2 Hl2]. split; [exact Hc2|].
  apply Forall_app; split; assumption.
Qed.

Lemma safe_get : safe get.
Proof. intros cx H. simpl. split; [exact H | constructor]. Qed.

Lemma safe_modify (f : Style -> Style) :
  (forall st, okStyle st -> okStyle (f st)) -> safe (modify f).
Proof.
  intros Hf cx [Hc Hs]. simpl. split; [split|constructor]; auto.
Qed.

Lemma safe_emit (c : Style -> Cmd) :
  (forall st, VideoRenderer.styleOf (c st) = st) -> safe (emit c).
Proof.
  intros Hc cx [H Hs]. simpl. split; [split; assumption|].
  constructor; [|constructor]. now rewrite Hc.
Qed.

Lemma safe_when (b : bool) (m : Draw unit) : safe m -> safe (when b m).
Proof. intros Hm. destruct b; [exact Hm | exact (safe_ret tt)]. Qed.

Lemma safe_forEach_from {A} (xs : list A) (body : Z -> A -> Draw unit) :
  (forall i x, safe (body i x)) -> forall i, safe (forEach_from i xs body).
Proof.
  intros Hb. induction xs as [|x xs IH]; intros i; simpl.
  - exact (safe_ret tt).
  - apply safe_bind; [apply Hb | intros _; apply IH].
Qed.

Lemma safe_forEach {A} (xs : list A) (body : Z -> A -> Draw unit) :
  (forall i x, safe (body i x)) -> safe (forEach xs body).
Proof. intros Hb. now apply safe_forEach_from. Qed.

Lemma safe_save : safe save.
Proof.
  intros cx [H Hs]. simpl. split; [split|constructor]; auto.
Qed.

Lemma safe_restore : safe restore.
Proof.
  intros cx [H Hs]. unfold restore.
  destruct (saved cx) as [|st rest] eqn:E; simpl.
  - rewrite E. split; [split; [exact H | constructor] | constructor].
  - inversion Hs; subst. split; [split; assumption | constructor].
Qed.

Lemma safe_setGlobalAlpha (a : Q) : P a -> safe (setGlobalAlpha a).
Proof. intros Ha. apply safe_modify. intros st _. exact Ha. Qed.

Lemma safe_setFillStyle p : safe (setFillStyle p).
Proof. apply safe_modify. intros st H. exact H. Qed.
Lemma safe_setStrokeStyle s : safe (setStrokeStyle s).
Proof. apply safe_modify. intros st H. exact H. Qed.
Lemma safe_setLineWidth w : safe (setLineWidth w).
Proof. apply safe_modify. intros st H. exact H. Qed.
Lemma safe_setFont f : safe (setFont f).
Proof. apply safe_modify. intros st H. exact H. Qed.
Lemma safe_setTextAlign a : safe (setTextAlign a).
Proof. apply safe_modify. intros st H. exact H. Qed.
Lemma safe_setTextBaseline b : safe (setTextBaseline b).
Proof. apply safe_modify. intros st H. exact H. Qed.
Lemma safe_setShadowBlur b : safe (setShadowBlur b).
Proof. apply safe_modify. intros st H. exact H. Qed.
Lemma safe_setShadowColor s : safe (setShadowColor s).
Proof. apply safe_modify. intros st H. exact H. Qed.
Lemma safe_translate dx dy : safe (translate dx dy).
Proof. apply safe_modify. intros st H. exact H. Qed.
Lemma safe_scale sx sy : safe (scale sx sy).
Proof. apply safe_modify. intros st H. exact H. Qed.
Lemma safe_clipRoundedRect x y w h r : safe (clipRoundedRect x y w h r).
Proof. apply safe_modify. intros st H. exact H. Qed.
Lemma safe_fillRect x y w h : safe (fillRect x y w h).
Proof. apply safe_emit. reflexivity. Qed.
Lemma safe_fillText t x y : safe (fillText t x y).
Proof. apply safe_emit. reflexivity. Qed.
Lemma safe_strokeLine x0 y0 x1 y1 : safe (strokeLine x0 y0 x1 y1).
Proof. apply safe_emit. reflexivity. Qed.
Lemma safe_drawImage img x y w h : safe (drawImage img x y w h).
Proof. apply safe_emit. reflexivity. Qed.

Lemma safe_exec {A} (m : Draw A) (cx : Context) :
  safe m -> okCx cx ->
  okCx (fst (VideoRenderer.exec m cx)) /\ okLog (snd (VideoRenderer.exec m cx)).
Proof.
  intros Hm Hcx. specialize (Hm cx Hcx). unfold VideoRenderer.exec.
  destruct (m cx) as [[a c1] l1]. exact Hm.
Qed.

End DrawInvariant.

Create HintDb draw_safe.

#[local] Hint Resolve safe_ret safe_get safe_save safe_restore safe_setFillStyle
  safe_setStrokeStyle safe_setLineWidth safe_setFont safe_setTextAlign
  safe_setTextBaseline safe_setShadowBlur safe_setShadowColor safe_translate
  safe_scale safe_clipRoundedRect safe_fillRect safe_fillText safe_strokeLine
  safe_drawImage : draw_safe.

Ltac draw_safe :=
  repeat first
    [ apply safe_bind; [|intros ?]
    | apply safe_when
    | apply safe_forEach; intros ? ?
    | solve [auto with draw_safe] ].

Section FrameAlpha.
Import Canvas Types VideoRenderer.

Variable toUpperCase : string -> string.
Variable d : TableData.
Variable c : AnimationConfig.

Variable P : Q -> Prop.
Hypothesis P_1 : P 1.
Hypothesis P_06 : P (6 # 10).
Hypothesis P_08 : P (8 # 10).
Hypothesis P_09 : P (9 # 10).

Local Abbreviation okCx cx :=
  (P (globalAlpha (cur cx)) /\ Forall (fun st => P (globalAlpha st)) (saved cx)).
Local Abbreviation okLog log :=
  (Forall (fun cmd => P (globalAlpha (styleOf cmd))) log).
Local Abbreviation safe m :=
  (forall cx, okCx cx -> okCx (snd (fst (m cx))) /\ okLog (snd (m cx))).

Lemma drawBackground_safe bgImg elapsed :
  safe (drawBackground d c bgImg elapsed).
Proof.
  unfold drawBackground. draw_safe.
  destruct bgImg as [img|].
  - draw_safe.
  - unfold drawFallbackBackground. destruct (theme c); draw_safe.
    all: exact (safe_ret P tt).
Qed.

Lemma drawTitle_safe : safe (drawTitle toUpperCase d c).
Proof.
  unfold drawTitle. draw_safe. apply safe_setGlobalAlpha. exact P_08.
Qed.

Lemma subjectSetup_safe : safe (subjectSetup c).
Proof.
  unfold subjectSetup. destruct (Layout_eqb (layout c) SPLIT); draw_safe.
  all: apply safe_setGlobalAlpha; exact P_06.
Qed.

Lemma drawSubject_safe subjectLabel subject cur stepTime :
  (JS.Qltb stepTime 500 = true -> P (stepTime / 500)) ->
  safe (drawSubject toUpperCase d c subjectLabel subject cur stepTime).
Proof.
  intros Hp. unfold drawSubject.
  destruct (Layout_eqb (layout c) SPLIT); draw_safe.
  - apply safe_setGlobalAlpha. exact P_1.
  - apply safe_setGlobalAlpha.
    destruct (attrIdx d cur =? 0)%Z; simpl; [|exact P_1].
    destruct (JS.Qltb stepTime 500); [now apply Hp | exact P_1].
  - apply safe_setGlobalAlpha. exact P_1.
Qed.

Lemma drawAttribute_safe header value opacity :
  P opacity -> safe (drawAttribute c header value opacity).
Proof.
  intros Ho. unfold drawAttribute.
  destruct (Layout_eqb (layout c) SPLIT); draw_safe.
  all: apply safe_setGlobalAlpha; exact Ho.
Qed.

Lemma drawProgressBar_safe elapsed : safe (drawProgressBar d c elapsed).
Proof.
  unfold drawProgressBar. draw_safe.
  - apply safe_setGlobalAlpha. exact P_1.
  - destruct (JS.min_fin _ _); draw_safe. all: exact (safe_ret P tt).
Qed.

Lemma drawLogo_safe logoImg : safe (drawLogo logoImg).
Proof.
  unfold drawLogo. destruct logoImg as [img|]; [|exact (safe_ret P tt)].
  draw_safe. apply safe_setGlobalAlpha. exact P_09.
Qed.

Ltac split_execs :=
  repeat match goal with
         | |- context [exec ?m ?x] =>
             let cx := fresh "cx" in
             let log := fresh "log" in
             let E := fresh "E" in
             destruct (exec m x) as [cx log] eqn:E
         end.

(** One frame: its commands have the property, and so has the context
    it leaves for the next frame. *)
Lemma paintFrame_safe bgImg logoImg elapsed cur cx :
  let stepTime := Qrem elapsed (durationPerItemMs c) in
  P (opacityAt c stepTime) ->
  (JS.Qltb stepTime 500 = true -> P (stepTime / 500)) ->
  okCx cx ->
  let r := paintFrame toUpperCase d c bgImg logoImg elapsed cur cx in
  okCx (fst (fst r)) /\ okLog (commands (snd (fst r))).
Proof.
  intros stepTime Ho Hp Hcx. cbv zeta. unfold paintFrame.
  pose proof (safe_exec P _ cx (drawBackground_safe bgImg elapsed) Hcx) as H1.
  destruct (exec (drawBackground d c bgImg elapsed) cx) as [c1 bgLog].
  destruct H1 as [Hc1 Hl1]. simpl in Hc1, Hl1.
  pose proof (safe_exec P _ c1 drawTitle_safe Hc1) as H2.
  destruct (exec (drawTitle toUpperCase d c) c1) as [c2 titleLog].
  destruct H2 as [Hc2 Hl2]. simpl in Hc2, Hl2.
  pose proof (safe_exec P _ c2 subjectSetup_safe Hc2) as H3.
  destruct (exec (subjectSetup c) c2) as [c3 setupLog].
  destruct H3 as [Hc3 _]. simpl in Hc3.
  destruct (at_ (columns d) 0) as [subjectLabel|].
  - pose proof (safe_exec P _ c3
                  (drawSubject_safe subjectLabel
                     (cell (at_ (data d) (rowIdx d cur)) 0) cur stepTime Hp) Hc3)
      as H4.
    fold stepTime.
    destruct (exec (drawSubject toUpperCase d c subjectLabel _ cur stepTime) c3)
      as [c4 subjLog].
    destruct H4 as [Hc4 Hl4]. simpl in Hc4, Hl4.
    pose proof (safe_exec P _ c4
                  (safe_when P (numCols d >? 1)%Z _
                     (drawAttribute_safe
                        (orEmpty (at_ (columns d) (colIdx d cur)))
                        (cell (at_ (data d) (rowIdx d cur)) (colIdx d cur))
                        (opacityAt c stepTime) Ho)) Hc4) as H5.
    destruct (exec (when (numCols d >? 1)%Z _) c4) as [c5 attrLog].
    destruct H5 as [Hc5 Hl5]. simpl in Hc5, Hl5.
    pose proof (safe_exec P _ c5 (drawProgressBar_safe elapsed) Hc5) as H6.
    destruct (exec (drawProgressBar d c elapsed) c5) as [c6 barLog].
    destruct H6 as [Hc6 Hl6]. simpl in Hc6, Hl6.
    pose proof (safe_exec P _ c6 (drawLogo_safe logoImg) Hc6) as H7.
    destruct (exec (drawLogo logoImg) c6) as [c7 logoLog].
    destruct H7 as [Hc7 Hl7]. simpl in Hc7, Hl7.
    simpl. split; [exact Hc7|]. unfold commands. simpl.
    repeat (apply Forall_app; split); assumption.
  - simpl. split; [exact Hc3|]. unfold commands. simpl.
    repeat (apply Forall_app; split); try assumption; constructor.
Qed.

End FrameAlpha.

(** ** Runs whose frames arrive in the order of their timestamps *)

Section SortedRuns.
Import Canvas Types VideoRenderer.

Variable toUpperCase : string -> string.
Variable random : nat -> Q.
Variable d : TableData.
Variable c : AnimationConfig.

Local Abbreviation drawFrame := (VideoRenderer.drawFrame toUpperCase d c).
Local Abbreviation handle := (VideoRenderer.handle toUpperCase random d c).
Local Abbreviation run := (VideoRenderer.run toUpperCase random d c).

Lemma drawFrame_startTime t a s :
  startTime (drawFrame t a s) = Some (startOf s t).
Proof.
  destruct (drawFrame_cases toUpperCase d c t a s) as [(_ & Hsame & _)|(_ & H)].
  - destruct Hsame as (Hst & _). exact Hst.
  - destruct H as (cx' & fr & ok & H). intuition.
Qed.

(** The start of the clock once it is latched at a positive time. *)
Lemma startOf_latched s t v :
  startTime s = Some v -> (0 < v)%Q -> startOf s t = v.
Proof.
  intros Hs Hv. unfold startOf. rewrite Hs.
  destruct (Qeq_bool v 0) eqn:E; [|reflexivity].
  apply Qeq_bool_iff in E. lra.
Qed.

(** What the remaining timestamps have to satisfy: they are positive
    and ascending, and none lies before the start of the clock. *)
Local Abbreviation ahead s ts :=
  (Forall (fun t => 0 < t)%Q ts /\ StronglySorted Qle ts
   /\ match startTime s with
      | Some v => (0 < v)%Q /\ Forall (Qle v) ts
      | None => True
      end).

Lemma ahead_elapsed s t ts :
  ahead s (t :: ts) -> (0 <= elapsedAt s t)%Q.
Proof.
  intros (Hpos & _ & Hs). unfold elapsedAt.
  destruct (startTime s) as [v|] eqn:E.
  - destruct Hs as [Hv Hall]. rewrite (startOf_latched s t v E Hv).
    inversion Hall; subst. lra.
  - unfold startOf. rewrite E. lra.
Qed.

Lemma ahead_next s t a ts :
  ahead s (t :: ts) -> ahead (drawFrame t a s) ts.
Proof.
  intros (Hpos & Hsorted & Hs).
  inversion Hpos as [|? ? Ht Hpos']; subst.
  apply StronglySorted_inv in Hsorted as [Hsorted' Hle].
  split; [exact Hpos'|]. split; [exact Hsorted'|].
  rewrite drawFrame_startTime.
  destruct (startTime s) as [v|] eqn:E.
  - destruct Hs as [Hv Hall]. rewrite (startOf_latched s t v E Hv).
    inversion Hall; subst. split; assumption.
  - unfold startOf. rewrite E. split; assumption.
Qed.

Lemma ahead_skip s t ts : ahead s (t :: ts) -> ahead s ts.
Proof.
  intros (Hpos & Hsorted & Hs).
  inversion Hpos; subst. apply StronglySorted_inv in Hsorted as [Hsorted' _].
  split; [assumption|]. split; [assumption|].
  destruct (startTime s); [|exact I].
  destruct Hs as [Hv Hall]. inversion Hall; subst. split; assumption.
Qed.

(** An invariant of the session that depends on the timestamps still
    to come. *)
Lemma run_sorted_invariant (Inv : list Q -> Session -> Prop) :
  (forall id a ts s,
     Inv ts s -> Inv ts (handle (AudioTimeout id a) s)) ->
  (forall t a ts s,
     Inv (t :: ts) s -> ahead s (t :: ts) -> frameRequested s = true ->
     Inv ts (drawFrame t a s)) ->
  (forall t ts s,
     Inv (t :: ts) s -> frameRequested s = false -> Inv ts s) ->
  forall es s,
    Inv (stamps es) s -> ahead s (stamps es) -> Inv [] (run es s).
Proof.
  intros Htimeout Hframe Hskip. unfold VideoRenderer.run.
  induction es as [|e es IH]; intros s Hinv Hahead; [exact Hinv|].
  destruct e as [t a|id a].
  - cbn [stamps] in Hinv, Hahead. cbn [fold_left VideoRenderer.handle].
    destruct (frameRequested s) eqn:Hreq.
    + apply IH.
      * now apply Hframe.
      * now apply ahead_next.
    + apply IH.
      * now apply (Hskip t).
      * now apply (ahead_skip s t).
  - cbn [stamps] in Hinv, Hahead. cbn [fold_left].
    apply IH.
    + now apply Htimeout.
    + exact Hahead.
Qed.

End SortedRuns.

Section RunAlpha.
Import Canvas Types VideoRenderer.

Variable toUpperCase : string -> string.
Variable random : nat -> Q.
Variable d : TableData.
Variable c : AnimationConfig.
Hypothesis duration_pos : (0 < durationPerItem c)%Q.

Local Abbreviation inUnit := (fun a : Q => (0 <= a <= 1)%Q).
Local Abbreviation okCx cx :=
  (inUnit (globalAlpha (cur cx))
   /\ Forall (fun st => inUnit (globalAlpha st)) (saved cx)).
Local Abbreviation okFrame f :=
  (Forall (fun cmd => inUnit (globalAlpha (styleOf cmd))) (commands f)).

Lemma recorderStop_ctx s : ctx (recorderStop s) = ctx s.
Proof. unfold recorderStop. destruct (recorder s); reflexivity. Qed.

Lemma drawFrame_alpha t a s :
  (0 <= elapsedAt s t)%Q ->
  okCx (ctx s) -> Forall (fun f => okFrame f) (frames s) ->
  okCx (ctx (VideoRenderer.drawFrame toUpperCase d c t a s))
  /\ Forall (fun f => okFrame f)
       (frames (VideoRenderer.drawFrame toUpperCase d c t a s)).
Proof.
  intros Hel Hcx Hfr.
  destruct (JS.Qltb (totalRunTime d c) (elapsedAt s t)) eqn:Hlate.
  - rewrite (drawFrame_late toUpperCase d c t a s Hlate).
    rewrite recorderStop_ctx.
    destruct (recorderStop_fields
                (mkSession (ctx s) (bgImage s) (logoImage s) (audioSynth s)
                   (recorder s) (Some (startOf s t)) (lastStepIndex s) false
                   (frames s) (progressReports s) (transitionCalls s)
                   (resolved s) (uncaught s))) as (_ & _ & Hf & _).
    rewrite Hf. simpl. split; assumption.
  - pose proof (drawFrame_drawn toUpperCase d c t a s Hlate) as H.
    cbv zeta in H. rewrite H. clear H. cbn [ctx frames].
    destruct (Qrem_bounds c duration_pos _ Hel) as [Hst _].
    pose proof (paintFrame_safe toUpperCase d c inUnit
                  ltac:(simpl; lra) ltac:(simpl; lra) ltac:(simpl; lra)
                  ltac:(simpl; lra)
                  (bgImage s) (logoImage s) (elapsedAt s t)
                  (stepIndex d c (elapsedAt s t)) (ctx s)) as Hp.
    cbv zeta in Hp.
    destruct Hp as [Hc' Hl'].
    + apply opacityAt_bounds. lra.
    + intros Hlt. apply Qltb_lt in Hlt. split.
      * apply Qle_shift_div_l; lra.
      * apply Qle_shift_div_r; lra.
    + exact Hcx.
    + split; [exact Hc'|]. apply Forall_app; split; [exact Hfr|].
      constructor; [exact Hl' | constructor].
Qed.

End RunAlpha.

(** X6.  In an export whose frames arrive with positive, ascending
    timestamps, every drawing command of every frame is issued with a
    [globalAlpha] in [[0, 1]]: the title, subject, fade and logo alphas
    never leave the range in which the canvas accepts them. *)
Theorem frames_drawn_with_valid_alpha :
  forall (toUpperCase : string -> string) (random : nat -> Q)
         (metrics : Canvas.Font -> string -> Q)
         (d : Types.TableData) (c : Types.AnimationConfig)
         (es : list VideoRenderer.Event) (s : VideoRenderer.Session),
    (0 < Types.durationPerItem c)%Q ->
    VideoRenderer.fresh s ->
    VideoRenderer.ctx s = Canvas.newContext metrics ->
    Forall (fun t => 0 < t)%Q (VideoRenderer.stamps es) ->
    StronglySorted Qle (VideoRenderer.stamps es) ->
    Forall (fun f =>
              Forall (fun cmd =>
                        (0 <= Canvas.globalAlpha (VideoRenderer.styleOf cmd) <= 1)%Q)
                     (VideoRenderer.commands f))
           (VideoRenderer.frames (VideoRenderer.run toUpperCase random d c es s)).
Proof.
  intros toUpperCase random metrics d c es s Hd Hfresh Hctx Hpos Hsorted.
  destruct Hfresh as (Hstart & _ & _ & _ & Hframes & _).
  pose proof (run_sorted_invariant toUpperCase random d c
                (fun _ s =>
                   ((0 <= Canvas.globalAlpha (Canvas.cur (VideoRenderer.ctx s)) <= 1)%Q
                    /\ Forall (fun st => (0 <= Canvas.globalAlpha st <= 1)%Q)
                         (Canvas.saved (VideoRenderer.ctx s)))
                   /\ Forall (fun f =>
                                Forall (fun cmd =>
                                          (0 <= Canvas.globalAlpha
                                                  (VideoRenderer.styleOf cmd) <= 1)%Q)
                                       (VideoRenderer.commands f))
                             (VideoRenderer.frames s))) as Hrun.
  apply Hrun.
  - intros id a ts s0 H. exact H.
  - intros t a ts s0 [Hcx Hfr] Hahead _.
    apply (drawFrame_alpha toUpperCase d c Hd t a s0); try assumption.
    now apply (ahead_elapsed s0 t ts).
  - intros t ts s0 H _. exact H.
  - rewrite Hctx, Hframes. simpl. split; [split; [lra | constructor] | constructor].
  - rewrite Hstart. auto.
Qed.

Lemma frames_drawn_with_valid_alpha_witness :
  Forall (fun f =>
            Forall (fun cmd =>
                      (0 <= Canvas.globalAlpha (VideoRenderer.styleOf cmd) <= 1)%Q)
                   (VideoRenderer.commands f))
         (VideoRenderer.frames
            (VideoRenderer.run Examples.upper Examples.random Examples.scenarioA
               Examples.config Examples.playbackA Examples.session0)).
Proof.
  apply (frames_drawn_with_valid_alpha Examples.upper Examples.random
           Examples.metrics Examples.scenarioA Examples.config
           Examples.playbackA Examples.session0).
  - reflexivity.
  - unfold VideoRenderer.fresh. simpl. repeat split.
  - reflexivity.
  - simpl. repeat constructor.
  - simpl. repeat constructor; discriminate.
Defined.

(** ** The logo in its box *)

(** Runs straight-line drawing code on a symbolic context. *)
Ltac draw_compute :=
  cbv [Canvas.bind Canvas.ret Canvas.modify Canvas.emit Canvas.get
       Canvas.skip Canvas.when
       Canvas.setFillStyle Canvas.setStrokeStyle Canvas.setLineWidth
       Canvas.setGlobalAlpha Canvas.setFont Canvas.setTextAlign
       Canvas.setTextBaseline Canvas.setShadowBlur Canvas.setShadowColor
       Canvas.translate Canvas.scale Canvas.pushXform Canvas.clipRoundedRect
       Canvas.save Canvas.restore
       Canvas.fillRect Canvas.fillText Canvas.strokeLine Canvas.drawImage
       Canvas.cur Canvas.saved Canvas.measureText
       Canvas.fillStyle Canvas.strokeStyle Canvas.lineWidth Canvas.globalAlpha
       Canvas.font Canvas.textAlign Canvas.textBaseline Canvas.shadowBlur
       Canvas.shadowColor Canvas.transform Canvas.clipRounded snd fst].

Section Bitmaps.

Lemma contain_geometry (lx ly w h : Q) :
  (0 < w)%Q -> (0 < h)%Q ->
  let logoSize := 80%Q in
  let imgAspect := (w / h)%Q in
  let landscape := JS.Qltb 1 imgAspect in
  let drawW := (if landscape then logoSize else logoSize * imgAspect)%Q in
  let drawH := (if landscape then logoSize / imgAspect else logoSize)%Q in
  let dx := (if landscape then lx else lx + (logoSize - drawW) / 2)%Q in
  let dy := (if landscape then ly + (logoSize - drawH) / 2 else ly)%Q in
  (lx <= dx /\ dx + drawW <= lx + 80 /\ ly <= dy /\ dy + drawH <= ly + 80)%Q
  /\ (0 < drawW /\ 0 < drawH)%Q
  /\ ((drawW == 80 /\ dx == lx) \/ (drawH == 80 /\ dy == ly))%Q.
Proof.
  intros Hw Hh logoSize imgAspect landscape drawW drawH dx dy.
  assert (Ha : (0 < imgAspect)%Q) by (subst imgAspect; apply Qlt_shift_div_l; lra).
  subst dx dy drawW drawH landscape logoSize.
  destruct (JS.Qltb 1 imgAspect) eqn:Hl.
  - apply Qltb_lt in Hl.
    assert (E2 : (80 / imgAspect * imgAspect == 80)%Q) by (field; lra).
    assert (Hq : (0 < 80 / imgAspect)%Q) by (apply Qlt_shift_div_l; lra).
    set (q := (80 / imgAspect)%Q) in *. clearbody q. clearbody imgAspect.
    unfold Qdiv. change (/ 2)%Q with (1 # 2)%Q.
    split; [repeat split; nra|].
    split; [split; lra|].
    left. split; reflexivity.
  - apply Qltb_ge in Hl. clearbody imgAspect.
    unfold Qdiv. change (/ 2)%Q with (1 # 2)%Q.
    split; [repeat split; nra|].
    split; [split; nra|].
    right. split; reflexivity.
Qed.

End Bitmaps.

(** X8.  A logo with positive dimensions is drawn once, inside its
    80 by 80 box at the top right and clipped to the rounded box, at
    alpha 0.9: the rectangle of the [drawImage] has a positive width
    and height, lies inside the box, and fills the box in one
    direction from the edge of the box on (the full width from the
    left edge, or the full height from the top edge); afterwards the
    drawing state is what it was before. *)
Theorem logo_is_contained_in_its_box :
  forall (img : Canvas.Image) (cx : Canvas.Context),
    (0 < Canvas.imgWidth img)%Q ->
    (0 < Canvas.imgHeight img)%Q ->
    exists st dx dy w h,
      snd (VideoRenderer.exec (VideoRenderer.drawLogo (Some img)) cx)
      = [Canvas.DrawImage st img dx dy w h]
      /\ (970 <= dx /\ dx + w <= 970 + 80 /\ 30 <= dy /\ dy + h <= 30 + 80)%Q
      /\ (0 < w /\ 0 < h)%Q
      /\ ((w == 80 /\ dx == 970) \/ (h == 80 /\ dy == 30))%Q
      /\ Canvas.clipRounded st = Some (970, 30, 80, 80, 12)%Q
      /\ Canvas.globalAlpha st = (9 # 10)%Q
      /\ Canvas.cur (fst (VideoRenderer.exec (VideoRenderer.drawLogo (Some img)) cx))
         = Canvas.cur cx
      /\ Canvas.saved (fst (VideoRenderer.exec (VideoRenderer.drawLogo (Some img)) cx))
         = Canvas.saved cx.
Proof.
  intros img cx Hw Hh.
  pose proof (contain_geometry 970 30 (Canvas.imgWidth img)
                (Canvas.imgHeight img) Hw Hh) as (G1 & G2 & G3).
  cbv zeta in G1, G2, G3.
  do 5 eexists. split; [reflexivity|].
  split; [exact G1|]. split; [exact G2|]. split; [exact G3|].
  repeat split.
Qed.

Lemma logo_is_contained_in_its_box_witness :
  let img := Canvas.mkImage "logo.jpg" 400 200 in
  let cx := Canvas.newContext Examples.metrics in
  exists st dx dy w h,
    snd (VideoRenderer.exec (VideoRenderer.drawLogo (Some img)) cx)
    = [Canvas.DrawImage st img dx dy w h]
    /\ (970 <= dx /\ dx + w <= 970 + 80 /\ 30 <= dy /\ dy + h <= 30 + 80)%Q
    /\ (0 < w /\ 0 < h)%Q
    /\ ((w == 80 /\ dx == 970) \/ (h == 80 /\ dy == 30))%Q
    /\ Canvas.clipRounded st = Some (970, 30, 80, 80, 12)%Q
    /\ Canvas.globalAlpha st = (9 # 10)%Q
    /\ Canvas.cur (fst (VideoRenderer.exec (VideoRenderer.drawLogo (Some img)) cx))
       = Canvas.cur cx
    /\ Canvas.saved (fst (VideoRenderer.exec (VideoRenderer.drawLogo (Some img)) cx))
       = Canvas.saved cx.
Proof.
  apply (logo_is_contained_in_its_box (Canvas.mkImage "logo.jpg" 400 200)
           (Canvas.newContext Examples.metrics)); reflexivity.
Defined.

(** ** The alpha that a frame leaves behind *)

Section FrameExit.
Import Canvas Types VideoRenderer.

Variable toUpperCase : string -> string.
Variable random : nat -> Q.
Variable d : TableData.
Variable c : AnimationConfig.

Lemma drawProgressBar_exit elapsed cx :
  showProgressBar c = true ->
  globalAlpha (cur (fst (exec (drawProgressBar d c elapsed) cx))) = 1%Q.
Proof.
  intros Hshow. unfold drawProgressBar, exec. rewrite Hshow.
  destruct (JS.min_fin _ _); reflexivity.
Qed.

Lemma drawLogo_exit logoImg cx :
  cur (fst (exec (drawLogo logoImg) cx)) = cur cx.
Proof. destruct logoImg as [img|]; reflexivity. Qed.

(** With the progress bar on, a frame ends with [globalAlpha] back
    at 1. *)
Lemma paintFrame_exit_alpha bgImg logoImg elapsed cur0 cx :
  showProgressBar c = true -> hasColumns d = true ->
  globalAlpha
    (cur (fst (fst (paintFrame toUpperCase d c bgImg logoImg elapsed cur0 cx))))
  = 1%Q.
Proof.
  intros Hshow Hcols. unfold paintFrame.
  destruct (exec (drawBackground d c bgImg elapsed) cx) as [c1 bgLog].
  destruct (exec (drawTitle toUpperCase d c) c1) as [c2 titleLog].
  destruct (exec (subjectSetup c) c2) as [c3 setupLog].
  rewrite at_0_columns. unfold hasColumns in Hcols.
  destruct (columns d) as [|subjectLabel rest]; [discriminate|].
  destruct (exec (drawSubject toUpperCase d c subjectLabel _ cur0 _) c3)
    as [c4 subjLog].
  destruct (exec (when (numCols d >? 1)%Z _) c4) as [c5 attrLog].
  pose proof (drawProgressBar_exit elapsed c5 Hshow) as H6.
  destruct (exec (drawProgressBar d c elapsed) c5) as [c6 barLog].
  pose proof (drawLogo_exit logoImg c6) as H7.
  destruct (exec (drawLogo logoImg) c6) as [c7 logoLog].
  simpl in *. now rewrite H7.
Qed.

(** The first command of a frame clears the canvas with the theme
    color, at the alpha that the context came with. *)
Lemma drawBackground_head bgImg elapsed cx :
  exists st rest,
    snd (exec (drawBackground d c bgImg elapsed) cx)
    = FillRect st 0 0 canvasWidth canvasHeight :: rest
    /\ globalAlpha st = globalAlpha (cur cx)
    /\ fillStyle st = Color (bg (getThemeConfig (theme c))).
Proof.
  unfold drawBackground.
  rewrite exec_bind. cbv [setFillStyle modify].
  rewrite exec_bind. cbv [fillRect emit].
  destruct (exec _ _) as [cx2 log2].
  do 2 eexists. split; [reflexivity|]. split; reflexivity.
Qed.

Lemma handle_exit_alpha e s :
  showProgressBar c = true -> hasColumns d = true ->
  globalAlpha (cur (ctx s)) = 1%Q ->
  globalAlpha (cur (ctx (handle toUpperCase random d c e s))) = 1%Q.
Proof.
  intros Hshow Hcols Hs. destruct e as [t a|id a]; simpl; [|exact Hs].
  destruct (frameRequested s); [|exact Hs].
  destruct (JS.Qltb (totalRunTime d c) (elapsedAt s t)) eqn:Hlate.
  - rewrite (drawFrame_late toUpperCase d c t a s Hlate).
    rewrite recorderStop_ctx. exact Hs.
  - pose proof (drawFrame_drawn toUpperCase d c t a s Hlate) as H.
    cbv zeta in H. rewrite H. cbn [ctx].
    now apply paintFrame_exit_alpha.
Qed.

End FrameExit.

(** X9.  With the progress bar switched on, every frame of an export
    starts by filling the whole canvas with the theme color at
    [globalAlpha = 1]: the frame before ends by resetting the alpha for
    the bar, so no fade opacity is carried over and nothing of the
    previous frame shows through. *)
Theorem frames_start_with_opaque_background :
  forall (toUpperCase : string -> string) (random : nat -> Q)
         (d : Types.TableData) (c : Types.AnimationConfig)
         (es : list VideoRenderer.Event) (s : VideoRenderer.Session),
    Types.showProgressBar c = true ->
    VideoRenderer.hasColumns d = true ->
    VideoRenderer.fresh s ->
    Canvas.globalAlpha (Canvas.cur (VideoRenderer.ctx s)) = 1%Q ->
    Forall (fun f =>
              exists st rest,
                VideoRenderer.background f
                = Canvas.FillRect st 0 0 VideoRenderer.canvasWidth
                    VideoRenderer.canvasHeight :: rest
                /\ Canvas.globalAlpha st = 1%Q
                /\ Canvas.fillStyle st
                   = Canvas.Color
                       (VideoRenderer.bg
                          (VideoRenderer.getThemeConfig (Types.theme c))))
           (VideoRenderer.frames (VideoRenderer.run toUpperCase random d c es s)).
Proof.
  intros toUpperCase random d c es s Hshow Hcols Hfresh Halpha.
  apply (run_frames toUpperCase random d c _
           (fun s => Canvas.globalAlpha (Canvas.cur (VideoRenderer.ctx s)) = 1%Q)).
  - intros e s0 H0. now apply handle_exit_alpha.
  - intros s0 elapsed cur0 H0. rewrite paintFrame_background.
    destruct (drawBackground_head d c (VideoRenderer.bgImage s0) elapsed
                (VideoRenderer.ctx s0)) as (st & rest & Hlog & Ha & Hf).
    exists st, rest. split; [exact Hlog|]. split; [congruence | exact Hf].
  - exact Halpha.
  - destruct Hfresh as (_ & _ & _ & _ & Hf & _). rewrite Hf. constructor.
Qed.

Lemma frames_start_with_opaque_background_witness :
  Forall (fun f =>
            exists st rest,
              VideoRenderer.background f
              = Canvas.FillRect st 0 0 VideoRenderer.canvasWidth
                  VideoRenderer.canvasHeight :: rest
              /\ Canvas.globalAlpha st = 1%Q
              /\ Canvas.fillStyle st
                 = Canvas.Color
                     (VideoRenderer.bg
                        (VideoRenderer.getThemeConfig
                           (Types.theme Examples.config))))
         (VideoRenderer.frames
            (VideoRenderer.run Examples.upper Examples.random Examples.scenarioA
               Examples.config Examples.playbackA Examples.session0)).
Proof.
  apply (frames_start_with_opaque_background Examples.upper Examples.random
           Examples.scenarioA Examples.config Examples.playbackA
           Examples.session0).
  - reflexivity.
  - reflexivity.
  - unfold VideoRenderer.fresh. simpl. repeat split.
  - reflexivity.
Defined.

(** ** The progress that an export reports *)

Section Progress.
Import Canvas Types VideoRenderer.

Variable toUpperCase : string -> string.
Variable random : nat -> Q.
Variable d : TableData.
Variable c : AnimationConfig.
Hypothesis steps_pos : 0 < totalItems d.
Hypothesis duration_pos : (0 < durationPerItem c)%Q.

Lemma totalDuration_pos : (0 < totalDuration d c)%Q.
Proof.
  unfold totalDuration.
  pose proof (durationMs_pos c duration_pos) as Hd.
  assert (0 < inject_Z (totalItems d))%Q.
  { change 0%Q with (inject_Z 0). rewrite <- Zlt_Qlt. exact steps_pos. }
  nra.
Qed.

(** The progress of a frame at [elapsed]. *)
Local Abbreviation progressAt elapsed :=
  (JS.Qmin (elapsed / totalDuration d c) 1).

Lemma progress_value (elapsed : Q) :
  JS.min_fin (JS.div elapsed (totalDuration d c)) 1 = JS.Fin (progressAt elapsed).
Proof.
  unfold JS.div. pose proof totalDuration_pos as Hpos.
  destruct (Qeq_bool (totalDuration d c) 0) eqn:E; [|reflexivity].
  apply Qeq_bool_iff in E. lra.
Qed.

Lemma progressAt_bounds (elapsed : Q) :
  (0 <= elapsed)%Q -> (0 <= progressAt elapsed <= 1)%Q.
Proof.
  intros H. pose proof totalDuration_pos as Hpos. split.
  - apply Qmin_glb; [|lra]. apply Qle_shift_div_l; lra.
  - apply Qmin_le_r.
Qed.

Lemma progressAt_mono (e1 e2 : Q) :
  (e1 <= e2)%Q -> (progressAt e1 <= progressAt e2)%Q.
Proof.
  intros H. pose proof totalDuration_pos as Hpos.
  apply Qmin_glb; [|apply Qmin_le_r].
  eapply Qle_trans; [apply Qmin_le_l|].
  unfold Qdiv. apply Qmult_le_compat_r; [exact H|].
  apply Qlt_le_weak, Qinv_lt_0_compat, Hpos.
Qed.

Lemma sorted_snoc {A} (R : A -> A -> Prop) (l : list A) (x : A) :
  StronglySorted R l -> Forall (fun y => R y x) l ->
  StronglySorted R (l ++ [x]).
Proof.
  induction 1 as [|y l Hl IH Hy]; intros Hall; simpl.
  - constructor; constructor.
  - inversion Hall; subst. constructor; [now apply IH|].
    apply Forall_app; split; [exact Hy|]. constructor; [assumption|constructor].
Qed.

(** What is known of the reports so far, given the timestamps to
    come: they are values of [[0, 1]] in ascending order, none is
    above the progress of a frame to come, and there is none before
    the clock has started. *)
Local Abbreviation reportsOk ts s :=
  (exists ps,
     progressReports s = map JS.Fin ps
     /\ Forall (fun p => (0 <= p <= 1)%Q) ps
     /\ StronglySorted Qle ps
     /\ (startTime s = None -> ps = [])
     /\ (forall v, startTime s = Some v ->
           Forall (fun t => Forall (fun p => (p <= progressAt (t - v))%Q) ps) ts)).

Lemma reports_frame t a ts s :
  reportsOk (t :: ts) s ->
  Forall (fun t => 0 < t)%Q (t :: ts) /\ StronglySorted Qle (t :: ts)
  /\ match startTime s with
     | Some v => (0 < v)%Q /\ Forall (Qle v) (t :: ts)
     | None => True
     end ->
  reportsOk ts (VideoRenderer.drawFrame toUpperCase d c t a s).
Proof.
  intros (ps & Hrep & Hunit & Hsorted & Hnone & Hfuture) Hahead.
  pose proof (ahead_elapsed s t ts Hahead) as Hel.
  destruct Hahead as (Hpos & Hts & Hstart).
  apply StronglySorted_inv in Hts as [_ Hle].
  assert (Hold : Forall (fun p => (p <= progressAt (elapsedAt s t))%Q) ps).
  { destruct (startTime s) as [v|] eqn:E.
    - destruct Hstart as [Hv _]. specialize (Hfuture v eq_refl).
      inversion Hfuture; subst. unfold elapsedAt.
      now rewrite (startOf_latched s t v E Hv).
    - rewrite (Hnone eq_refl). constructor. }
  assert (Hnext : forall v',
             Some (startOf s t) = Some v' ->
             Forall (fun t' => Forall (fun p => (p <= progressAt (t' - v'))%Q) ps) ts).
  { intros v' Hv'. inversion Hv'; subst v'.
    destruct (startTime s) as [v|] eqn:E.
    - destruct Hstart as [Hv _]. specialize (Hfuture v eq_refl).
      inversion Hfuture; subst. now rewrite (startOf_latched s t v E Hv).
    - rewrite (Hnone eq_refl). apply List.Forall_forall. intros; constructor. }
  destruct (JS.Qltb (totalRunTime d c) (elapsedAt s t)) eqn:Hlate.
  - rewrite (drawFrame_late toUpperCase d c t a s Hlate).
    destruct (recorderStop_fields
                (mkSession (ctx s) (bgImage s) (logoImage s) (audioSynth s)
                   (recorder s) (Some (startOf s t)) (lastStepIndex s) false
                   (frames s) (progressReports s) (transitionCalls s)
                   (resolved s) (uncaught s))) as (_ & _ & _ & Hp & _ & Hst).
    exists ps. rewrite Hp, Hst. simpl.
    split; [exact Hrep|]. split; [exact Hunit|]. split; [exact Hsorted|].
    split; [discriminate | exact Hnext].
  - pose proof (drawFrame_drawn toUpperCase d c t a s Hlate) as H.
    cbv zeta in H. rewrite H. clear H. cbn [progressReports startTime].
    exists (ps ++ [progressAt (elapsedAt s t)]).
    split; [rewrite Hrep, progress_value, map_app; reflexivity|].
    split.
    { apply Forall_app; split; [exact Hunit|].
      constructor; [now apply progressAt_bounds | constructor]. }
    split; [now apply sorted_snoc|].
    split; [discriminate|].
    intros v' Hv'. specialize (Hnext v' Hv'). inversion Hv'; subst v'.
    rewrite List.Forall_forall in Hnext, Hle |- *.
    intros t' Ht'. apply Forall_app; split; [now apply Hnext|].
    constructor; [|constructor].
    apply progressAt_mono. unfold elapsedAt. specialize (Hle t' Ht'). lra.
Qed.

End Progress.

(** X10.  In an export of a table with at least one step, whose frames
    arrive with positive, ascending timestamps, every value handed to
    [onProgress] is a number in [[0, 1]], the values never decrease,
    and the percentage that the application shows for each,
    [Math.round(progress * 100)], is an integer from 0 to 100. *)
Theorem progress_reports_rise_within_unit_interval :
  forall (toUpperCase : string -> string) (random : nat -> Q)
         (d : Types.TableData) (c : Types.AnimationConfig)
         (es : list VideoRenderer.Event) (s : VideoRenderer.Session),
    0 < VideoRenderer.totalItems d ->
    (0 < Types.durationPerItem c)%Q ->
    VideoRenderer.fresh s ->
    Forall (fun t => 0 < t)%Q (VideoRenderer.stamps es) ->
    StronglySorted Qle (VideoRenderer.stamps es) ->
    exists ps,
      VideoRenderer.progressReports (VideoRenderer.run toUpperCase random d c es s)
      = map JS.Fin ps
      /\ Forall (fun p => (0 <= p <= 1)%Q) ps
      /\ StronglySorted Qle ps
      /\ Forall (fun p =>
                   exists n, App.exportPercent (JS.Fin p) = JS.Fin (inject_Z n)
                             /\ 0 <= n <= 100) ps.
Proof.
  intros toUpperCase random d c es s Hsteps Hd Hfresh Hpos Hsorted.
  destruct Hfresh as (Hstart & _ & _ & _ & _ & Hrep & _).
  pose proof (run_sorted_invariant toUpperCase random d c
                (fun ts s =>
                   exists ps,
                     VideoRenderer.progressReports s = map JS.Fin ps
                     /\ Forall (fun p => (0 <= p <= 1)%Q) ps
                     /\ StronglySorted Qle ps
                     /\ (VideoRenderer.startTime s = None -> ps = [])
                     /\ (forall v, VideoRenderer.startTime s = Some v ->
                           Forall (fun t =>
                                     Forall (fun p =>
                                               (p <= JS.Qmin
                                                       ((t - v)
                                                        / VideoRenderer.totalDuration d c)
                                                       1)%Q) ps) ts))) as Hrun.
  destruct (Hrun ltac:(intros id a ts s0 H; exact H)) with (es := es) (s := s)
    as (ps & Hps & Hunit & Hasc & _).
  - intros t a ts s0 Hinv Hahead _.
    now apply (reports_frame toUpperCase d c Hsteps Hd t a ts s0).
  - intros t ts s0 (ps & H1 & H2 & H3 & H4 & H5) _.
    exists ps. repeat (split; [assumption|]).
    intros v Hv. specialize (H5 v Hv). now inversion H5.
  - exists []. rewrite Hrep, Hstart. simpl.
    split; [reflexivity|]. split; [constructor|]. split; [constructor|].
    split; [reflexivity | discriminate].
  - rewrite Hstart. auto.
  - exists ps. split; [exact Hps|]. split; [exact Hunit|]. split; [exact Hasc|].
    eapply List.Forall_impl; [|exact Hunit].
    intros p [H0 H1]. exists (Qfloor (p * 100 + (1 # 2))). split; [reflexivity|].
    split.
    + assert (H : Qfloor 0 <= Qfloor (p * 100 + (1 # 2)))
        by (apply Qfloor_resp_le; lra).
      exact H.
    + assert (H : Qfloor (p * 100 + (1 # 2)) <= Qfloor (100 + (1 # 2)))
        by (apply Qfloor_resp_le; lra).
      exact H.
Qed.

Lemma progress_reports_rise_within_unit_interval_witness :
  exists ps,
    VideoRenderer.progressReports
      (VideoRenderer.run Examples.upper Examples.random Examples.scenarioA
         Examples.config Examples.playbackA Examples.session0)
    = map JS.Fin ps
    /\ Forall (fun p => (0 <= p <= 1)%Q) ps
    /\ StronglySorted Qle ps
    /\ Forall (fun p =>
                 exists n, App.exportPercent (JS.Fin p) = JS.Fin (inject_Z n)
                           /\ 0 <= n <= 100) ps.
Proof.
  apply (progress_reports_rise_within_unit_interval Examples.upper
           Examples.random Examples.scenarioA Examples.config
           Examples.playbackA Examples.session0).
  - reflexivity.
  - reflexivity.
  - unfold VideoRenderer.fresh. simpl. repeat split.
  - simpl. repeat constructor.
  - simpl. repeat constructor; discriminate.
Defined.

(** ** Randomizing the design *)

Section Randomize.
Import Types.

Lemma pick_in_range {A} (xs : list A) (r : Q) :
  xs <> [] -> (0 <= r < 1)%Q -> exists x, App.pick xs r = Some x /\ In x xs.
Proof.
  intros Hne [H0 H1]. unfold App.pick.
  set (n := Z.of_nat (length xs)).
  assert (Hn : 0 < n) by (subst n; destruct xs; [contradiction | simpl; lia]).
  assert (HnQ : (0 < inject_Z n)%Q).
  { change 0%Q with (inject_Z 0). now rewrite <- Zlt_Qlt. }
  assert (Hlo : 0 <= Qfloor (r * inject_Z n)).
  { assert (H : Qfloor 0 <= Qfloor (r * inject_Z n))
      by (apply Qfloor_resp_le; nra).
    exact H. }
  assert (Hhi : Qfloor (r * inject_Z n) < n).
  { pose proof (Qfloor_le (r * inject_Z n)) as Hle.
    rewrite Zlt_Qlt. nra. }
  destruct (at_in_range xs (Qfloor (r * inject_Z n)) ltac:(subst n; lia))
    as (x & Hx).
  exists x. split; [exact Hx|].
  unfold at_ in Hx. destruct (_ <? 0)%Z; [discriminate|].
  eapply nth_error_In. exact Hx.
Qed.

End Randomize.

(** X11.  [handleRandomizeDesign] always produces a defined design:
    for values of [Math.random()] in [[0, 1)] the three indices
    [Math.floor(r * length)] are inside their arrays, so theme, style
    and layout are members of their enums, and every other field of
    the configuration is carried over unchanged. *)
Theorem randomized_design_is_defined :
  forall (r1 r2 r3 : Q) (prev : Types.AnimationConfig),
    (0 <= r1 < 1)%Q -> (0 <= r2 < 1)%Q -> (0 <= r3 < 1)%Q ->
    exists cfg,
      App.handleRandomizeDesign r1 r2 r3 prev = Some cfg
      /\ In (Types.theme cfg) App.themes
      /\ In (Types.style cfg) App.styles
      /\ In (Types.layout cfg) App.layouts
      /\ Types.durationPerItem cfg = Types.durationPerItem prev
      /\ Types.showProgressBar cfg = Types.showProgressBar prev
      /\ Types.backgroundImage cfg = Types.backgroundImage prev
      /\ Types.backgroundImagePrompt cfg = Types.backgroundImagePrompt prev
      /\ Types.rowDelay cfg = Types.rowDelay prev
      /\ Types.highlightActive cfg = Types.highlightActive prev
      /\ Types.showAppName cfg = Types.showAppName prev
      /\ Types.showAiWatermark cfg = Types.showAiWatermark prev.
Proof.
  intros r1 r2 r3 prev H1 H2 H3. unfold App.handleRandomizeDesign.
  destruct (pick_in_range App.themes r1 ltac:(discriminate) H1) as (t & -> & Ht).
  destruct (pick_in_range App.styles r2 ltac:(discriminate) H2) as (s & -> & Hs).
  destruct (pick_in_range App.layouts r3 ltac:(discriminate) H3) as (l & -> & Hl).
  eexists. split; [reflexivity|]. simpl. repeat split; assumption.
Qed.

Lemma randomized_design_is_defined_witness :
  exists cfg,
    App.handleRandomizeDesign (1 # 4) (1 # 2) (9 # 10) Examples.config = Some cfg
    /\ In (Types.theme cfg) App.themes
    /\ In (Types.style cfg) App.styles
    /\ In (Types.layout cfg) App.layouts
    /\ Types.durationPerItem cfg = Types.durationPerItem Examples.config
    /\ Types.showProgressBar cfg = Types.showProgressBar Examples.config
    /\ Types.backgroundImage cfg = Types.backgroundImage Examples.config
    /\ Types.backgroundImagePrompt cfg
       = Types.backgroundImagePrompt Examples.config
    /\ Types.rowDelay cfg = Types.rowDelay Examples.config
    /\ Types.highlightActive cfg = Types.highlightActive Examples.config
    /\ Types.showAppName cfg = Types.showAppName Examples.config
    /\ Types.showAiWatermark cfg = Types.showAiWatermark Examples.config.
Proof.
  apply (randomized_design_is_defined (1 # 4) (1 # 2) (9 # 10) Examples.config);
    split; (discriminate || reflexivity).
Defined.

(** ** The audio engine: starting and scheduling *)

Section AudioStart.
Import AudioSynth.

Variable random : nat -> Q.
Variable decodePcm : string -> option (list Q).

Lemma ctxState_playRandomPianoNote (time : Q) (s : State) :
  ctxState (playRandomPianoNote random time s) = ctxState s.
Proof.
  unfold playRandomPianoNote, nextRandom.
  destruct (JS.Qltb _ _); [|reflexivity].
  destruct (_ <? 11)%Z; reflexivity.
Qed.

Lemma ctxState_noteLoop (fuel : nat) (now : Q) :
  forall s, ctxState (noteLoop random fuel now s) = ctxState s.
Proof.
  induction fuel as [|fuel IH]; intros s; simpl; [reflexivity|].
  destruct (JS.Qltb _ _); [|reflexivity].
  rewrite IH. unfold nextRandom. simpl. apply ctxState_playRandomPianoNote.
Qed.

Lemma scheduler_fields (now : Q) (s : State) :
  ctxState (scheduler random now s) = ctxState s
  /\ isPlaying (scheduler random now s) = isPlaying s.
Proof.
  unfold scheduler. destruct (isPlaying s) eqn:Hp; [|auto].
  destruct (sameTimers_noteLoop random (loopFuel now s) now s) as (_ & _ & C).
  unfold setTimeout.
  cbn [ctxState isPlaying set_timerID set_nextTimer set_timers fst snd].
  rewrite ctxState_noteLoop, C. auto.
Qed.

Lemma start_fields (now : Q) (s : State) :
  isPlaying (start random now s) = true
  /\ ctxState (start random now s)
     = match ctxState s with Suspended => Running | other => other end.
Proof.
  unfold start.
  set (s1 := match ctxState s with Suspended => _ | _ => s end).
  assert (Hc : ctxState s1
               = match ctxState s with Suspended => Running | other => other end)
    by (subst s1; destruct (ctxState s) eqn:E; simpl; rewrite ?E; reflexivity).
  destruct (isPlaying s1) eqn:Hp; [auto|].
  destruct (scheduler_fields now
              (set_nextNoteTime (now + (1 # 2))%Q (set_isPlaying true s1)))
    as [A B].
  rewrite A, B. simpl. auto.
Qed.

(** While it plays, the engine has the timeout of its scheduler
    pending. *)
Local Abbreviation alive s :=
  (isPlaying s = true -> exists id, timerID s = Some id /\ id ∈ timers s).

Lemma alive_same (s s' : State) : sameTimers s s' -> alive s -> alive s'.
Proof. intros (A & B & C) H. rewrite A, B, C. exact H. Qed.

Lemma alive_scheduler (now : Q) (s : State) : alive (scheduler random now s).
Proof.
  unfold scheduler. destruct (isPlaying s) eqn:Hp; [|congruence].
  intros _. unfold setTimeout. simpl. eexists. split; [reflexivity|].
  set_solver.
Qed.

Lemma alive_perform (s : State) (call : Call) :
  alive s -> alive (perform random decodePcm s call).
Proof.
  intros H. destruct call; simpl.
  - unfold start.
    set (s1 := match ctxState s with Suspended => _ | _ => s end).
    assert (Hs1 : sameTimers s s1)
      by (subst s1; destruct (ctxState s); repeat split).
    destruct (isPlaying s1) eqn:Hp.
    + exact (alive_same s s1 Hs1 H).
    + apply alive_scheduler.
  - destruct (stop_fields s) as (_ & _ & Hp & _). congruence.
  - exact (alive_same s _ (sameTimers_playSpeech decodePcm base64Pcm now s) H).
  - exact (alive_same s _ (sameTimers_triggerTransition now s) H).
  - unfold timerFires. case_decide; [apply alive_scheduler | exact H].
Qed.

Lemma after_alive (forExport : bool) (initial : CtxState) (history : list Call) :
  alive (after random decodePcm forExport initial history).
Proof.
  unfold after.
  assert (H : forall s, alive s ->
              alive (fold_left (perform random decodePcm) history s)).
  { induction history as [|call history IH]; intros s Hs; [exact Hs|].
    simpl. apply IH. now apply alive_perform. }
  apply H.
  destruct (create_fields forExport initial) as (_ & _ & _ & _ & _ & _ & Hp & _).
  congruence.
Qed.

End AudioStart.

(** X12.  A second [start()] changes nothing: once the engine plays,
    [start] neither runs the scheduler again nor resets the time of
    the next note, whatever the audio clock reads. *)
Theorem start_twice_is_start_once :
  forall (random : nat -> Q) (now now' : Q) (s : AudioSynth.State),
    AudioSynth.start random now' (AudioSynth.start random now s)
    = AudioSynth.start random now s.
Proof.
  intros random now now' s.
  destruct (start_fields random now s) as [Hp Hc].
  set (t := AudioSynth.start random now s) in *.
  unfold AudioSynth.start at 1.
  assert (E : match AudioSynth.ctxState t with
              | AudioSynth.Suspended =>
                  AudioSynth.set_ctxState AudioSynth.Running t
              | _ => t
              end = t).
  { rewrite Hc. destruct (AudioSynth.ctxState s); reflexivity. }
  rewrite E, Hp. reflexivity.
Qed.

(** X13.  After every history of calls and timeouts the engine has
    exactly one timeout pending while it plays, the one recorded in
    [timerID], and none while it does not play: the scheduler chain is
    neither lost nor doubled. *)
Theorem one_scheduler_timeout_while_playing :
  forall (random : nat -> Q) (decodePcm : string -> option (list Q))
         (forExport : bool) (initial : AudioSynth.CtxState)
         (history : list AudioSynth.Call),
    let s := AudioSynth.after random decodePcm forExport initial history in
    if AudioSynth.isPlaying s
    then exists id, AudioSynth.timers s = {[id]}
                    /\ AudioSynth.timerID s = Some id
    else AudioSynth.timers s = ∅.
Proof.
  intros random decodePcm forExport initial history s.
  destruct (after_tracked random decodePcm forExport initial history)
    as [_ [Hone Hnone]].
  pose proof (after_alive random decodePcm forExport initial history) as Halive.
  fold s in Hone, Hnone, Halive.
  destruct (AudioSynth.isPlaying s) eqn:Hp.
  - destruct (Halive eq_refl) as (id & Hid & Hin).
    exists id. split; [|exact Hid].
    apply set_eq. intros e. rewrite elem_of_singleton. split.
    + intros He. specialize (Hone e He). congruence.
    + intros ->. exact Hin.
  - now apply Hnone.
Qed.

(** X14.  The scheduler callback, run while the engine plays at audio
    time [now] with random values that are not negative, ends with the
    next note at least one second ahead; it only ever moves the time
    of the next note forward; and when that time was already a second
    ahead it creates no node at all. *)
Theorem scheduler_fills_the_lookahead :
  forall (random : nat -> Q) (now : Q) (s : AudioSynth.State),
    (forall n, 0 <= random n)%Q ->
    AudioSynth.isPlaying s = true ->
    let s' := AudioSynth.scheduler random now s in
    (now + 1 <= AudioSynth.nextNoteTime s')%Q
    /\ (AudioSynth.nextNoteTime s <= AudioSynth.nextNoteTime s')%Q
    /\ ((now + 1 <= AudioSynth.nextNoteTime s)%Q ->
        AudioSynth.heap s' = AudioSynth.heap s
        /\ AudioSynth.nodes s' = AudioSynth.nodes s
        /\ AudioSynth.nextNoteTime s' = AudioSynth.nextNoteTime s).
Proof.
  intros random now s Hrand Hp s'. subst s'. unfold AudioSynth.scheduler.
  rewrite Hp. cbn [AudioSynth.setTimeout AudioSynth.set_timerID
                   AudioSynth.set_nextTimer AudioSynth.set_timers
                   AudioSynth.nextNoteTime AudioSynth.heap AudioSynth.nodes
                   fst snd].
  split; [apply (loopFuel_enough random Hrand)|]. split.
  - generalize (AudioSynth.loopFuel now s). intros fuel. revert s Hp.
    induction fuel as [|fuel IH]; intros s Hp; cbn [AudioSynth.noteLoop].
    + lra.
    + destruct (JS.Qltb _ _); [|lra].
      eapply Qle_trans; [|apply IH].
      * unfold AudioSynth.nextRandom.
        cbn [AudioSynth.nextNoteTime AudioSynth.set_nextNoteTime
             AudioSynth.set_rngPos fst snd].
        rewrite playRandomPianoNote_time.
        pose proof (Hrand (AudioSynth.rngPos
                             (AudioSynth.playRandomPianoNote random
                                (AudioSynth.nextNoteTime s) s))).
        lra.
      * unfold AudioSynth.nextRandom. cbn [AudioSynth.isPlaying
          AudioSynth.set_nextNoteTime AudioSynth.set_rngPos fst snd].
        destruct (sameTimers_playRandomPianoNote random
                    (AudioSynth.nextNoteTime s) s) as (_ & _ & C).
        now rewrite C.
  - intros Hahead.
    assert (E : AudioSynth.noteLoop random (AudioSynth.loopFuel now s) now s = s).
    { unfold AudioSynth.loopFuel. cbn [AudioSynth.noteLoop].
      apply Qltb_ge in Hahead. now rewrite Hahead. }
    rewrite E. auto.
Qed.

Lemma scheduler_fills_the_lookahead_witness :
  let s := AudioSynth.start Examples.random 0
             (AudioSynth.create true AudioSynth.Running) in
  let s' := AudioSynth.scheduler Examples.random (1 # 10) s in
  ((1 # 10) + 1 <= AudioSynth.nextNoteTime s')%Q
  /\ (AudioSynth.nextNoteTime s <= AudioSynth.nextNoteTime s')%Q
  /\ (((1 # 10) + 1 <= AudioSynth.nextNoteTime s)%Q ->
      AudioSynth.heap s' = AudioSynth.heap s
      /\ AudioSynth.nodes s' = AudioSynth.nodes s
      /\ AudioSynth.nextNoteTime s' = AudioSynth.nextNoteTime s).
Proof.
  apply (scheduler_fills_the_lookahead Examples.random (1 # 10)
           (AudioSynth.start Examples.random 0
              (AudioSynth.create true AudioSynth.Running))).
  - intros n. discriminate.
  - reflexivity.
Defined.

(** ** The audio engine: every source is scheduled to end *)

Section AudioSources.
Import AudioSynth.

Variable random : nat -> Q.
Variable decodePcm : string -> option (list Q).

Lemma sources_same (s s' : State) :
  heap s' = heap s -> voiceSource s' = voiceSource s ->
  sourcesScheduled s -> sourcesScheduled s'.
Proof. intros Hh Hv H id n. rewrite Hh, Hv. apply H. Qed.

Lemma scheduled_halt vs id (n : Node) :
  sourceScheduled vs id n -> sourceScheduled vs id (halt n).
Proof.
  unfold sourceScheduled, halt.
  destruct (hasStop (kind n)) eqn:Hh; [|intros H; exact H].
  destruct (startAt n) as [t|] eqn:Hs; [|intros H; rewrite ?Hs; exact H].
  cbn [kind startAt stopAt]. destruct (kind n); intros H; auto.
  exists t. split; [reflexivity | left; reflexivity].
Qed.

Lemma sources_update (id : nat) (f : Node -> Node) (s : State) :
  (forall vs j n, sourceScheduled vs j n -> sourceScheduled vs j (f n)) ->
  sourcesScheduled s -> sourcesScheduled (update id f s).
Proof.
  intros Hf H j n'. rewrite lookup_update.
  change (voiceSource (update id f s)) with (voiceSource s).
  case_decide; subst.
  - destruct (heap s !! j) as [n|] eqn:E; simpl; [|discriminate].
    intros [= <-]. apply Hf. now apply H.
  - apply H.
Qed.

Lemma sources_try_stop (id : nat) (s : State) :
  sourcesScheduled s -> sourcesScheduled (try_stop id s).
Proof. apply sources_update. intros vs j n. apply scheduled_halt. Qed.

Lemma sources_disconnect (id : nat) (s : State) :
  sourcesScheduled s -> sourcesScheduled (disconnect id s).
Proof. apply sources_update. intros vs j n H. exact H. Qed.

Lemma sources_sweep (l : list nat) :
  forall s, sourcesScheduled s ->
            sourcesScheduled
              (fold_left (fun st id => disconnect id (try_stop id st)) l s).
Proof.
  induction l as [|id l IH]; intros s H; simpl; [exact H|].
  apply IH, sources_disconnect, sources_try_stop, H.
Qed.

(** Stopping the current narration and forgetting it. *)
Lemma sources_forget (v : nat) (s : State) :
  voiceSource s = Some v -> sourcesScheduled s ->
  sourcesScheduled (set_voiceSource None (try_stop v s)).
Proof.
  intros Hv H j n'. cbn [voiceSource set_voiceSource heap].
  unfold try_stop. rewrite lookup_update. case_decide; subst.
  - destruct (heap s !! j) as [n|] eqn:E; simpl; [|discriminate].
    intros [= <-]. specialize (H j n E). rewrite Hv in H.
    pose proof (scheduled_halt (Some j) j n H) as Hh.
    unfold sourceScheduled in *.
    destruct (kind (halt n)) eqn:Hk; auto.
    rewrite halt_kind_eq in Hk. rewrite Hk in H.
    destruct H as ([t Ht] & _). split; [apply Hh|]. right.
    unfold halt. rewrite Hk, Ht. reflexivity.
  - intros Hl. specialize (H j n' Hl). rewrite Hv in H.
    unfold sourceScheduled in *. destruct (kind n'); auto.
    destruct H as (Hs & [Heq|Hstop]); [congruence|]. auto.
Qed.

Lemma sources_playPianoTone (freq time : Q) (s : State) :
  sourcesScheduled s -> sourcesScheduled (playPianoTone freq time s).
Proof.
  intros H j n'.
  unfold playPianoTone, alloc, connect, update;
    cbn [nextId masterGain voiceGain heap nodes set_nodes set_heap
         set_nextId voiceSource fst snd].
  rewrite !lookup_alter, !lookup_insert.
  repeat case_decide; subst; try lia; simpl;
    try (intros [= <-]; unfold sourceScheduled; simpl; eauto).
  apply H.
Qed.

Lemma sources_triggerTransition (t : Q) (s : State) :
  sourcesScheduled s -> sourcesScheduled (triggerTransition t s).
Proof.
  intros H j n'.
  unfold triggerTransition, alloc, connect, update;
    cbn [nextId masterGain voiceGain heap nodes set_nodes set_heap
         set_nextId voiceSource fst snd].
  rewrite !lookup_alter, !lookup_insert.
  repeat case_decide; subst; try lia; simpl;
    try (intros [= <-]; unfold sourceScheduled; simpl; eauto).
  apply H.
Qed.

Lemma sources_playRandomPianoNote (time : Q) (s : State) :
  sourcesScheduled s -> sourcesScheduled (playRandomPianoNote random time s).
Proof.
  intros H. unfold playRandomPianoNote, nextRandom.
  assert (H0 : sourcesScheduled (set_rngPos (S (rngPos s)) s))
    by (now apply (sources_same s)).
  pose proof (sources_playPianoTone
                (scaleAt (Qfloor (random (rngPos s) * 11))) time _ H0) as H1.
  remember (playPianoTone (scaleAt (Qfloor (random (rngPos s) * 11))) time
              (set_rngPos (S (rngPos s)) s)) as s2 eqn:E2.
  assert (H3 : sourcesScheduled (set_rngPos (S (rngPos s2)) s2))
    by (now apply (sources_same s2)).
  destruct (JS.Qltb _ _); [|exact H3].
  destruct (_ <? 11)%Z; [|exact H3].
  now apply sources_playPianoTone.
Qed.

Lemma sources_noteLoop (fuel : nat) (now : Q) :
  forall s, sourcesScheduled s -> sourcesScheduled (noteLoop random fuel now s).
Proof.
  induction fuel as [|fuel IH]; intros s H; cbn [noteLoop]; [exact H|].
  destruct (JS.Qltb _ _); [|exact H].
  apply IH. unfold nextRandom.
  pose proof (sources_playRandomPianoNote (nextNoteTime s) s H) as H1.
  remember (playRandomPianoNote random (nextNoteTime s) s) as s1 eqn:E1.
  now apply (sources_same s1).
Qed.

Lemma sources_scheduler (now : Q) (s : State) :
  sourcesScheduled s -> sourcesScheduled (scheduler random now s).
Proof.
  intros H. unfold scheduler. destruct (isPlaying s); [|exact H].
  pose proof (sources_noteLoop (loopFuel now s) now s H) as H1.
  remember (noteLoop random (loopFuel now s) now s) as s1 eqn:E1.
  now apply (sources_same s1).
Qed.

Lemma sources_start (now : Q) (s : State) :
  sourcesScheduled s -> sourcesScheduled (start random now s).
Proof.
  intros H. unfold start.
  assert (H1 : sourcesScheduled
                 match ctxState s with
                 | Suspended => set_ctxState Running s
                 | _ => s
                 end).
  { destruct (ctxState s); exact H. }
  remember (match ctxState s with Suspended => _ | _ => s end) as s1 eqn:E1.
  destruct (isPlaying s1); [exact H1|].
  apply sources_scheduler. now apply (sources_same s1).
Qed.

Lemma sources_timerFires (id : positive) (now : Q) (s : State) :
  sourcesScheduled s -> sourcesScheduled (timerFires random id now s).
Proof.
  intros H. unfold timerFires. case_decide; [|exact H].
  apply sources_scheduler. now apply (sources_same s).
Qed.

Lemma sources_playSpeech (b : string) (now : Q) (s : State) :
  sourcesScheduled s -> sourcesScheduled (playSpeech decodePcm b now s).
Proof.
  intros H. unfold playSpeech. destruct (String.eqb b ""); [exact H|].
  assert (H1 : sourcesScheduled
                 match voiceSource s with
                 | Some v => set_voiceSource None (try_stop v s)
                 | None => s
                 end
               /\ voiceSource
                    match voiceSource s with
                    | Some v => set_voiceSource None (try_stop v s)
                    | None => s
                    end = None).
  { destruct (voiceSource s) as [v|] eqn:Hv.
    - split; [now apply sources_forget | reflexivity].
    - split; [exact H | exact Hv]. }
  remember (match voiceSource s with Some v => _ | None => s end) as s1 eqn:E1.
  destruct H1 as [H1 Hnone].
  destruct (decodePcm b) as [[|x samples]|]; try exact H1.
  intros j n'.
  unfold alloc, connect, update;
    cbn [nextId masterGain voiceGain heap nodes set_voiceSource set_heap
         set_nextId voiceSource fst snd].
  rewrite !lookup_alter, !lookup_insert.
  repeat case_decide; try subst j; try lia; simpl;
    try (intros [= <-]; unfold sourceScheduled; simpl;
         split; [eexists; reflexivity | left; reflexivity]).
  intros Hl. specialize (H1 j n' Hl). rewrite Hnone in H1.
  unfold sourceScheduled in *. destruct (kind n'); auto.
  destruct H1 as (Hs & [Heq|Hstop]); [discriminate|]. auto.
Qed.

Lemma sources_stopVoice (s : State) :
  sourcesScheduled s -> sourcesScheduled (stopVoice s).
Proof.
  intros H. unfold stopVoice.
  destruct (voiceSource s) as [v|] eqn:Hv; [|exact H].
  pose proof (sources_disconnect v _ (sources_forget v s Hv H)) as Hf.
  now apply (sources_same (disconnect v (set_voiceSource None (try_stop v s)))).
Qed.

Lemma sources_stop (s : State) : sourcesScheduled s -> sourcesScheduled (stop s).
Proof.
  intros H. unfold stop.
  assert (H1 : sourcesScheduled (stopTimer (set_isPlaying false s))).
  { destruct (stopTimer_fields (set_isPlaying false s)) as (Hh & _ & Hv & _).
    now apply (sources_same s). }
  remember (stopTimer (set_isPlaying false s)) as s1 eqn:E1.
  assert (H2 : sourcesScheduled (stopNodes s1)).
  { unfold stopNodes.
    apply (sources_same (fold_left (fun st id => disconnect id (try_stop id st))
                           (nodes s1) s1)); try reflexivity.
    now apply sources_sweep. }
  remember (stopNodes s1) as s2 eqn:E2.
  pose proof (sources_stopVoice s2 H2) as H3.
  remember (stopVoice s2) as s3 eqn:E3.
  assert (H4 : sourcesScheduled (stopBuses s3)).
  { unfold stopBuses. now apply sources_disconnect, sources_disconnect. }
  destruct (closeContext_fields (stopBuses s3)) as (Hh & _ & Hv & _).
  now apply (sources_same (stopBuses s3)).
Qed.

Lemma sources_perform (s : State) (call : Call) :
  sourcesScheduled s -> sourcesScheduled (perform random decodePcm s call).
Proof.
  destruct call; simpl.
  - apply sources_start.
  - apply sources_stop.
  - apply sources_playSpeech.
  - apply sources_triggerTransition.
  - apply sources_timerFires.
Qed.

Lemma after_sources (forExport : bool) (initial : CtxState) (history : list Call) :
  sourcesScheduled (after random decodePcm forExport initial history).
Proof.
  unfold after.
  assert (H : forall s, sourcesScheduled s ->
              sourcesScheduled (fold_left (perform random decodePcm) history s)).
  { induction history as [|call history IH]; intros s Hs; [exact Hs|].
    simpl. apply IH. now apply sources_perform. }
  apply H. intros id n. rewrite create_heap, !lookup_alter.
  destruct forExport; cbv zeta; rewrite !lookup_insert;
    repeat case_decide; subst; simpl;
    try (intros [= <-]; exact I);
    try (rewrite lookup_empty; discriminate).
Qed.

End AudioSources.

(** X15.  Narrations never overlap: after every history of calls and
    timeouts, every narration source that was ever created has been
    started, and each one other than the current [voiceSource] has
    been told to stop at once. *)
Theorem narrations_never_overlap :
  forall (random : nat -> Q) (decodePcm : string -> option (list Q))
         (forExport : bool) (initial : AudioSynth.CtxState)
         (history : list AudioSynth.Call) (id : nat) (n : AudioSynth.Node)
         (samples : list Q),
    let s := AudioSynth.after random decodePcm forExport initial history in
    AudioSynth.heap s !! id = Some n ->
    AudioSynth.kind n = AudioSynth.AudioBufferSourceNode samples ->
    is_Some (AudioSynth.startAt n)
    /\ (AudioSynth.voiceSource s = Some id
        \/ AudioSynth.stopAt n = Some 0%Q).
Proof.
  intros random decodePcm forExport initial history id n samples s Hl Hk.
  pose proof (after_sources random decodePcm forExport initial history id n Hl)
    as H.
  unfold AudioSynth.sourceScheduled in H. rewrite Hk in H. exact H.
Qed.

(** X16.  Every tone ends: after every history of calls and timeouts,
    each oscillator in the store has been started at some time [t] and
    told to stop, either at once (by [stop()]), 4.5 seconds after [t]
    (a piano tone) or 0.4 seconds after [t] (a transition stinger). *)
Theorem every_oscillator_is_scheduled_to_stop :
  forall (random : nat -> Q) (decodePcm : string -> option (list Q))
         (forExport : bool) (initial : AudioSynth.CtxState)
         (history : list AudioSynth.Call) (id : nat) (n : AudioSynth.Node)
         (waveform : string),
    let s := AudioSynth.after random decodePcm forExport initial history in
    AudioSynth.heap s !! id = Some n ->
    AudioSynth.kind n = AudioSynth.OscillatorNode waveform ->
    exists t,
      AudioSynth.startAt n = Some t
      /\ (AudioSynth.stopAt n = Some 0%Q
          \/ AudioSynth.stopAt n = Some (t + (45 # 10))%Q
          \/ AudioSynth.stopAt n = Some (t + (4 # 10))%Q).
Proof.
  intros random decodePcm forExport initial history id n waveform s Hl Hk.
  pose proof (after_sources random decodePcm forExport initial history id n Hl)
    as H.
  unfold AudioSynth.sourceScheduled in H. rewrite Hk in H. exact H.
Qed.

Lemma narrations_never_overlap_witness :
  let s := AudioSynth.after Examples.random Examples.decodeTwo true
             AudioSynth.Running Examples.narrated in
  exists n,
    AudioSynth.heap s !! 9%nat = Some n
    /\ AudioSynth.kind n = AudioSynth.AudioBufferSourceNode [0; 1 # 2]%Q
    /\ is_Some (AudioSynth.startAt n)
    /\ (AudioSynth.voiceSource s = Some 9%nat
        \/ AudioSynth.stopAt n = Some 0%Q).
Proof.
  eexists. split; [vm_compute; reflexivity|]. split; [reflexivity|].
  apply (narrations_never_overlap Examples.random Examples.decodeTwo true
           AudioSynth.Running Examples.narrated 9%nat _ [0; 1 # 2]%Q).
  - vm_compute. reflexivity.
  - reflexivity.
Defined.

Lemma every_oscillator_is_scheduled_to_stop_witness :
  let s := AudioSynth.after Examples.random Examples.decodeTwo true
             AudioSynth.Running Examples.narrated in
  exists n,
    AudioSynth.heap s !! 3%nat = Some n
    /\ AudioSynth.kind n = AudioSynth.OscillatorNode "triangle"
    /\ exists t,
         AudioSynth.startAt n = Some t
         /\ (AudioSynth.stopAt n = Some 0%Q
             \/ AudioSynth.stopAt n = Some (t + (45 # 10))%Q
             \/ AudioSynth.stopAt n = Some (t + (4 # 10))%Q).
Proof.
  eexists. split; [vm_compute; reflexivity|]. split; [reflexivity|].
  apply (every_oscillator_is_scheduled_to_stop Examples.random
           Examples.decodeTwo true AudioSynth.Running Examples.narrated
           3%nat _ "triangle").
  - vm_compute. reflexivity.
  - reflexivity.
Defined.

(** ** Drawing the table image *)

Section DrawLoops.
Import Canvas.

(** A loop whose body keeps an invariant [J] of the context and
    issues commands with the property [P]. *)
Lemma forEach_from_spec {A} (J : Context -> Prop) (P : Cmd -> Prop)
    (xs : list A) (body : Z -> A -> Draw unit) :
  forall i,
    (forall (k : nat) x cx,
       nth_error xs k = Some x -> J cx ->
       J (snd (fst (body (i + Z.of_nat k) x cx)))
       /\ Forall P (snd (body (i + Z.of_nat k) x cx))) ->
    forall cx,
      J cx ->
      J (snd (fst (forEach_from i xs body cx)))
      /\ Forall P (snd (forEach_from i xs body cx)).
Proof.
  induction xs as [|x xs IH]; intros i Hbody cx Hcx; simpl.
  - split; [exact Hcx | constructor].
  - unfold bind.
    pose proof (Hbody 0%nat x cx eq_refl Hcx) as H0.
    rewrite Z.add_0_r in H0.
    destruct (body i x cx) as [[u c1] l1]. simpl in H0. destruct H0 as [Hc1 Hl1].
    assert (Hbody' : forall (k : nat) y cx0,
               nth_error xs k = Some y -> J cx0 ->
               J (snd (fst (body (i + 1 + Z.of_nat k) y cx0)))
               /\ Forall P (snd (body (i + 1 + Z.of_nat k) y cx0))).
    { intros k y cx0 Hk Hj.
      replace (i + 1 + Z.of_nat k) with (i + Z.of_nat (S k)) by lia.
      now apply Hbody. }
    pose proof (IH (i + 1) Hbody' c1 Hc1) as H1.
    destruct (forEach_from (i + 1) xs body c1) as [[u2 c2] l2]. simpl in *.
    destruct H1 as [Hc2 Hl2]. split; [exact Hc2|].
    apply Forall_app; split; assumption.
Qed.

Lemma exec_seq {A B} (J1 J2 J3 : Context -> Prop) (P : Cmd -> Prop)
    (m : Draw A) (k : A -> Draw B) (cx : Context) :
  J1 cx ->
  (forall cx0, J1 cx0 -> J2 (snd (fst (m cx0))) /\ Forall P (snd (m cx0))) ->
  (forall a cx0, J2 cx0 ->
                 J3 (snd (fst (k a cx0))) /\ Forall P (snd (k a cx0))) ->
  J3 (snd (fst (bind m k cx))) /\ Forall P (snd (bind m k cx)).
Proof.
  intros Hcx Hm Hk. unfold bind.
  specialize (Hm cx Hcx). destruct (m cx) as [[a c1] l1]. simpl in Hm.
  destruct Hm as [Hc1 Hl1]. specialize (Hk a c1 Hc1).
  destruct (k a c1) as [[b c2] l2]. simpl in *. destruct Hk as [Hc2 Hl2].
  split; [exact Hc2|]. apply Forall_app; split; assumption.
Qed.

End DrawLoops.

Section ImageDrawing.
Import Canvas Types ImageRenderer.

Variable metrics : Font -> string -> Q.
Variable toUpperCase : string -> string.
Variable d : TableData.
Variable c : AnimationConfig.

Local Abbreviation drawLines := (ImageRenderer.drawLines).
Local Abbreviation drawCellLines := (ImageRenderer.drawCellLines).

Lemma len_cons {A} (x : A) (l : list A) : len (x :: l) = len l + 1.
Proof. unfold len. simpl length. lia. Qed.

(** The place of a block may be given by any rational equal to it. *)
Lemma linesAt_shift (f : Font) (x step : Q) (lines : list string) :
  forall (y y' : Q) (log : list Cmd),
    (y == y')%Q -> linesAt f x step lines y log -> linesAt f x step lines y' log.
Proof.
  induction lines as [|line rest IH]; intros y y' log Hy; destruct log as [|cmd log];
    simpl; auto.
  destruct cmd as [| st text x' y0 | |]; auto.
  intros (Ht & Hf & Hx & Hy0 & Hrest).
  split; [exact Ht|]. split; [exact Hf|]. split; [exact Hx|].
  split; [rewrite Hy0; exact Hy|].
  apply (IH (y + step)%Q); [rewrite Hy; reflexivity | exact Hrest].
Qed.

(** [drawLines] writes its lines as a block in the current font and
    leaves the context as it was. *)
Lemma drawLines_at (lines : list string) (x step : Q) (f : Font) :
  forall drawY cx,
    font (cur cx) = f ->
    let r := drawLines lines x drawY step cx in
    (fst (fst r) == drawY + inject_Z (len lines) * step)%Q
    /\ snd (fst r) = cx
    /\ linesAt f x step lines drawY (snd r).
Proof.
  induction lines as [|line rest IH]; intros drawY cx Hf; cbv zeta.
  - simpl. split; [unfold len; simpl; ring|]. split; [reflexivity | exact I].
  - cbn [ImageRenderer.drawLines]. unfold bind, fillText, emit.
    specialize (IH (drawY + step)%Q cx Hf). cbv zeta in IH.
    destruct (drawLines rest x (drawY + step) step cx) as [[v c1] l1].
    cbn [fst snd app] in *. destruct IH as (Hv & Hc & Hat).
    split.
    { rewrite Hv, len_cons, inject_Z_plus. change (inject_Z 1) with 1%Q. ring. }
    split; [exact Hc|].
    cbn [linesAt]. split; [reflexivity|]. split; [exact Hf|].
    split; [reflexivity|]. split; [reflexivity | exact Hat].
Qed.

End ImageDrawing.

(** X17.  The title and the summary are drawn exactly as they were
    measured.  The commands of the header block are the title lines
    followed by the summary lines and nothing else: the title lines in
    the bold 100px header font that [titleLines] was wrapped with,
    centred at [width / 2], the first at the margin and every next one
    120 below the one before; the summary lines (none without a
    summary) in the italic 40px font that [summaryLines] was wrapped
    with, the first 20 below the end of the title and every next one
    50 below the one before.  The running [drawY] ends at
    [margin + titleHeight + summaryHeight], exactly 60 above the start
    of the table area. *)
Theorem header_block_is_drawn_as_measured :
  forall (metrics : Canvas.Font -> string -> Q) (toUpperCase : string -> string)
         (d : Types.TableData) (c : Types.AnimationConfig) (cx : Canvas.Context),
    let r := ImageRenderer.drawHeaderBlock metrics toUpperCase d c cx in
    let themeStyle := VideoRenderer.getThemeConfig (Types.theme c) in
    let titleLines := ImageRenderer.titleLines metrics toUpperCase d c in
    let summaryLines := ImageRenderer.summaryLines metrics d c in
    let titleHeight := ImageRenderer.titleHeight metrics toUpperCase d c in
    (exists titleLog summaryLog,
       snd r = titleLog ++ summaryLog
       /\ ImageRenderer.linesAt
            (Canvas.mkFont "bold" 100 (VideoRenderer.fontHeader themeStyle))
            (ImageRenderer.width / 2) 120 titleLines
            ImageRenderer.margin titleLog
       /\ ImageRenderer.linesAt
            (Canvas.mkFont "italic" 40 (VideoRenderer.fontMain themeStyle))
            (ImageRenderer.width / 2) 50 summaryLines
            (ImageRenderer.margin + titleHeight + 20) summaryLog)
    /\ (fst (fst r)
        == ImageRenderer.margin + titleHeight
           + ImageRenderer.summaryHeight metrics d c)%Q
    /\ (fst (fst r) + 60 == ImageRenderer.tableStartY metrics toUpperCase d c)%Q.
Proof.
  intros metrics toUpperCase d c cx. cbv zeta.
  unfold ImageRenderer.drawHeaderBlock, ImageRenderer.tableStartY,
    ImageRenderer.headerBlockHeight, ImageRenderer.titleHeight,
    ImageRenderer.summaryHeight, ImageRenderer.summaryLines.
  cbv [Canvas.bind Canvas.setTextAlign Canvas.setShadowBlur Canvas.setFont
       Canvas.setFillStyle Canvas.modify Canvas.ret].
  match goal with
  | |- context [ImageRenderer.drawLines ?l ?x ?y ?s ?cx0] =>
      pose proof (drawLines_at l x s (Canvas.font (Canvas.cur cx0)) y cx0
                    eq_refl) as H1;
      cbv zeta in H1;
      destruct (ImageRenderer.drawLines l x y s cx0) as [[v c1] l1]
  end.
  cbn [fst snd Canvas.cur Canvas.font] in H1. destruct H1 as (Hv & Hc & Hat).
  destruct (Types.truthy (Types.summary d)).
  - match goal with
    | |- context [ImageRenderer.drawLines ?l ?x ?y ?s ?cx0] =>
        pose proof (drawLines_at l x s (Canvas.font (Canvas.cur cx0)) y cx0
                      eq_refl) as H2;
        cbv zeta in H2;
        destruct (ImageRenderer.drawLines l x y s cx0) as [[v2 c2] l2]
    end.
    cbn [fst snd Canvas.cur Canvas.font] in H2 |- *.
    destruct H2 as (Hv2 & Hc2 & Hat2).
    split; [|split; [rewrite Hv2, Hv; ring | rewrite Hv2, Hv; ring]].
    exists l1, l2. split; [reflexivity|]. split; [exact Hat|].
    eapply linesAt_shift; [|exact Hat2]. rewrite Hv. reflexivity.
  - cbn [fst snd]. split; [|split; [rewrite Hv; ring | rewrite Hv; ring]].
    exists l1, []. split; [cbn [app]; now rewrite !app_nil_r|].
    split; [exact Hat | exact I].
Qed.

Section TableCells.
Import Canvas Types ImageRenderer.

Variable metrics : Font -> string -> Q.
Variable toUpperCase : string -> string.
Variable d : TableData.
Variable c : AnimationConfig.

(** Every line of a wrapped text is narrower than the limit or is a
    single word. *)
Lemma getLines_fits (ctx : Context) (text : string) (maxWidth : Q) :
  Forall (fun l => (Canvas.width ctx l < maxWidth)%Q \/ JS.includes " " l = false)
         (WordWrap.getLines ctx text maxWidth).
Proof.
  unfold WordWrap.getLines.
  pose proof (split_pieces " " text) as Hpieces.
  destruct (JS.split " " text) as [|w0 ws]; [constructor|].
  inversion Hpieces as [|? ? H0 Hrest]; subst.
  apply (getLines_loop_lines ctx maxWidth
           (fun l => JS.includes " " l = false) ws w0 []);
    [exact Hrest | right; exact H0 | constructor].
Qed.

Lemma linesIn_fits (f : Font) (text : string) (maxWidth : Q) :
  Forall (fun l => (metrics f l < maxWidth)%Q \/ JS.includes " " l = false)
         (linesIn metrics f text maxWidth).
Proof.
  unfold linesIn.
  eapply List.Forall_impl; [|apply getLines_fits]. intros l H. exact H.
Qed.

Lemma lineHeightOf_nonneg (size : Z) : 0 <= size -> 0 <= lineHeightOf size.
Proof.
  intros H. unfold lineHeightOf.
  assert (H0 : Qfloor 0 <= Qfloor (inject_Z size * (13 # 10))).
  { apply Qfloor_resp_le.
    assert (0 <= inject_Z size)%Q
      by (change 0%Q with (inject_Z 0); now rewrite <- Zle_Qle).
    nra. }
  exact H0.
Qed.

(** The texts of one cell. *)
Lemma drawCellLines_spec (lines : list string) (x startY : Q) (lH : Z)
    (cx : Context) :
  0 <= lH ->
  snd (fst (drawCellLines lines x startY lH cx)) = cx
  /\ Forall (fun cmd =>
               exists line y,
                 cmd = FillText (cur cx) line x y /\ In line lines
                 /\ (startY <= y
                     /\ y + inject_Z lH <= startY + inject_Z (len lines * lH))%Q)
            (snd (drawCellLines lines x startY lH cx)).
Proof.
  intros HlH. unfold ImageRenderer.drawCellLines, forEach.
  apply (forEach_from_spec (fun cx0 => cx0 = cx)); [|reflexivity].
  intros k line cx0 Hk ->. cbn [fillText emit fst snd].
  split; [reflexivity|]. constructor; [|constructor].
  exists line, (startY + inject_Z ((0 + Z.of_nat k) * lH))%Q.
  split; [reflexivity|]. split; [eapply nth_error_In; exact Hk|].
  assert (Hlt : (k < length lines)%nat)
    by (apply nth_error_Some; congruence).
  assert (H1 : (0 <= inject_Z ((0 + Z.of_nat k) * lH))%Q).
  { change 0%Q with (inject_Z 0). rewrite <- Zle_Qle. nia. }
  assert (H2 : (inject_Z ((0 + Z.of_nat k) * lH) + inject_Z lH
                <= inject_Z (len lines * lH))%Q).
  { rewrite <- inject_Z_plus, <- Zle_Qle. unfold len. nia. }
  split; lra.
Qed.

(** One cell of a row: its lines are drawn in the font of the cell,
    at the left edge of its column, inside the band of the row. *)
Lemma drawCell_spec (z : Sizing) (tableY h : Q) (cIdx : Z)
    (lines : list string) (cx : Context) :
  0 <= fontSize z ->
  (inject_Z (len lines * lineHeightOf (fontSize z)) <= h)%Q ->
  Forall (fun cmd =>
            exists st line y,
              cmd = FillText st line (cellX d cIdx) y
              /\ font st = cellFont c z cIdx /\ In line lines
              /\ inBand (inject_Z (lineHeightOf (fontSize z)))
                   tableY (tableY + h) cmd)
         (snd (drawCell d c z tableY h cIdx lines cx)).
Proof.
  intros Hf Hh. unfold ImageRenderer.drawCell.
  cbv [bind setFillStyle setFont modify].
  match goal with
  | |- context [ImageRenderer.drawCellLines ?l ?x ?y ?lh ?cx0] =>
      pose proof (drawCellLines_spec l x y lh cx0
                    (lineHeightOf_nonneg _ Hf)) as [_ H];
      destruct (ImageRenderer.drawCellLines l x y lh cx0) as [[u c1] l1]
  end.
  cbn [fst snd app] in *.
  eapply List.Forall_impl; [|exact H].
  intros cmd (line & y & -> & Hin & Hy0 & Hy1).
  eexists _, line, y. split; [reflexivity|]. split; [reflexivity|].
  split; [exact Hin|]. unfold inBand. cbn [top bottom].
  set (t := inject_Z (len lines * lineHeightOf (fontSize z))) in *.
  assert (E : ((h - t) / 2 == (h - t) * (1 # 2))%Q) by field.
  rewrite E in Hy0, Hy1. split; lra.
Qed.

(** The lines of the cells of a row, as [calculateLayout] keeps
    them. *)
Lemma rowCellLines_lookup (fSize : Z) (row : list string) :
  forall i0 (k : nat) lines,
    nth_error (rowCellLines metrics d c fSize i0 row) k = Some lines ->
    exists cell,
      nth_error row k = Some cell
      /\ lines
         = linesIn metrics
             (if (i0 + Z.of_nat k =? 0)%Z
              then mkFont "bold" fSize
                     (VideoRenderer.fontMain (VideoRenderer.getThemeConfig (theme c)))
              else mkFont "" fSize
                     (VideoRenderer.fontMain (VideoRenderer.getThemeConfig (theme c))))
             cell (textWidth d).
Proof.
  induction row as [|cell rest IH]; intros i0 k lines; simpl.
  - destruct k; discriminate.
  - destruct k as [|k]; simpl.
    + intros [= <-]. exists cell. rewrite Z.add_0_r. auto.
    + intros H. destruct (IH (i0 + 1) k lines H) as (cell' & Hc & Hl).
      exists cell'. split; [exact Hc|].
      replace (i0 + Z.of_nat (S k)) with (i0 + 1 + Z.of_nat k) by lia.
      exact Hl.
Qed.

Lemma rowCellLines_length (fSize : Z) (row : list string) :
  forall i0, length (rowCellLines metrics d c fSize i0 row) = length row.
Proof. induction row as [|cell rest IH]; intros i0; simpl; auto. Qed.

Lemma maxLinesOf_fold (cells : list (list string)) :
  forall m,
    m <= fold_left (fun m lines => if (len lines >? m)%Z then len lines else m)
           cells m
    /\ Forall (fun lines =>
                 len lines
                 <= fold_left (fun m lines =>
                                 if (len lines >? m)%Z then len lines else m)
                      cells m) cells.
Proof.
  induction cells as [|l cells IH]; intros m; simpl.
  - split; [lia | constructor].
  - destruct (IH (if (len l >? m)%Z then len l else m)) as [H1 H2].
    destruct (Z.gtb_spec (len l) m); split; try lia;
      constructor; try lia; exact H2.
Qed.

Lemma maxLinesOf_ge (cells : list (list string)) (lines : list string) :
  In lines cells -> len lines <= maxLinesOf cells.
Proof.
  intros Hin. destruct (maxLinesOf_fold cells 1) as [_ H].
  rewrite List.Forall_forall in H. now apply H.
Qed.

Lemma maxLinesOf_pos (cells : list (list string)) : 1 <= maxLinesOf cells.
Proof. apply (maxLinesOf_fold cells 1). Qed.

End TableCells.

Section DrawLogs.
Import Canvas.

(** Code all of whose commands have the property [P], whatever the
    context it starts in. *)
Variable P : Cmd -> Prop.

Local Abbreviation always m := (forall cx, Forall P (snd (m cx))).

Lemma always_bind {A B} (m : Draw A) (k : A -> Draw B) :
  always m -> (forall a, always (k a)) -> always (bind m k).
Proof.
  intros Hm Hk cx. unfold bind. specialize (Hm cx).
  destruct (m cx) as [[a c1] l1]. specialize (Hk a c1).
  destruct (k a c1) as [[b c2] l2]. simpl in *.
  apply Forall_app; split; assumption.
Qed.

Lemma always_modify (f : Style -> Style) : always (modify f).
Proof. intros cx. constructor. Qed.

Lemma always_ret {A} (a : A) : always (ret a).
Proof. intros cx. constructor. Qed.

Lemma always_when (b : bool) (m : Draw unit) : always m -> always (when b m).
Proof. intros Hm. destruct b; [exact Hm | exact (always_ret tt)]. Qed.

Lemma always_emit (f : Style -> Cmd) :
  (forall st, P (f st)) -> always (emit f).
Proof. intros Hf cx. constructor; [apply Hf | constructor]. Qed.

Lemma always_forEach {A} (xs : list A) (body : Z -> A -> Draw unit) :
  (forall (k : nat) x, nth_error xs k = Some x -> always (body (Z.of_nat k) x)) ->
  always (forEach xs body).
Proof.
  intros Hb cx. unfold forEach.
  apply (forEach_from_spec (fun _ => True) P xs body 0); [|exact I].
  intros k x cx0 Hk _. split; [exact I|]. now apply Hb.
Qed.

End DrawLogs.

Section TableRows.
Import Canvas Types ImageRenderer.

Variable metrics : Font -> string -> Q.
Variable toUpperCase : string -> string.
Variable d : TableData.
Variable c : AnimationConfig.
Variable z : Sizing.
Hypothesis font_nonneg : 0 <= fontSize z.
Hypothesis padding_nonneg : (0 <= rowPadding z)%Q.

Local Abbreviation L := (layoutOf metrics toUpperCase d c z).
Local Abbreviation lH := (lineHeightOf (fontSize z)).

Lemma at_map {A B} (f : A -> B) (l : list A) (i : Z) :
  at_ (map f l) i = option_map f (at_ l i).
Proof.
  unfold at_. destruct (i <? 0)%Z; [reflexivity|].
  apply nth_error_map.
Qed.

(** The grid of lines and the height that the layout keeps for a
    row. *)
Local Abbreviation gridOf row := (rowCellLines metrics d c (fontSize z) 0 row).
Local Abbreviation heightOf row :=
  (JS.Qmax (inject_Z (maxLinesOf (gridOf row) * lH) + rowPadding z) 80).

Lemma layout_row (r : Z) (row : list string) :
  at_ (data d) r = Some row ->
  at_ (rowHeights L) r = Some (heightOf row)
  /\ at_ (rowLines L) r = Some (gridOf row).
Proof.
  intros Hr. unfold layoutOf, calculateLayout. cbn [rowHeights rowLines].
  rewrite !at_map, Hr. split; reflexivity.
Qed.

Lemma heightOf_bounds (row : list string) :
  (80 <= heightOf row)%Q
  /\ Forall (fun lines => (inject_Z (len lines * lH) <= heightOf row)%Q)
            (gridOf row).
Proof.
  split; [apply Qmax_le_r|].
  apply List.Forall_forall. intros lines Hin.
  pose proof (maxLinesOf_ge _ _ Hin) as Hle.
  pose proof (lineHeightOf_nonneg _ font_nonneg) as HlH.
  eapply Qle_trans; [|apply Qmax_le_l].
  assert (inject_Z (len lines * lH) <= inject_Z (maxLinesOf (gridOf row) * lH))%Q
    by (rewrite <- Zle_Qle; nia).
  lra.
Qed.

(** What holds of every command of a row that starts at [tableY]. *)
Local Abbreviation rowCmd row tableY :=
  (fun cmd =>
   inBand (inject_Z lH) tableY (tableY + heightOf row) cmd
   /\ match cmd with
      | FillRect _ x _ w _ => x = margin /\ w = contentWidth
      | FillText st line x _ =>
          exists cIdx,
            0 <= cIdx < len row /\ x = cellX d cIdx
            /\ font st = cellFont c z cIdx
            /\ ((metrics (font st) line < textWidth d)%Q
                \/ JS.includes " " line = false)
      | _ => False
      end).

Lemma drawRow_spec (r : Z) (row : list string) (tableY : Q) (cx : Context) :
  Forall (rowCmd row tableY)
         (snd (drawRow d c z r row tableY (heightOf row) (gridOf row) cx)).
Proof.
  destruct (heightOf_bounds row) as [H80 Hgrid].
  revert cx. unfold drawRow.
  apply always_bind.
  { apply always_when. apply always_bind; [apply always_modify|].
    intros _. apply always_emit. intros st. unfold inBand. cbn [top bottom].
    repeat split; lra. }
  intros _. apply always_bind; [apply always_modify|].
  intros _. apply always_bind.
  { apply always_emit. intros st. unfold inBand. cbn [top bottom].
    repeat split; lra. }
  intros _. apply always_forEach. intros k cell Hk cx.
  assert (Hlen : (k < length (gridOf row))%nat).
  { rewrite rowCellLines_length. apply nth_error_Some. congruence. }
  destruct (nth_error (gridOf row) k) as [lines|] eqn:Hl;
    [|apply nth_error_None in Hl; lia].
  assert (Hat : at_ (gridOf row) (Z.of_nat k) = Some lines).
  { unfold at_. destruct (Z.ltb_spec (Z.of_nat k) 0); [lia|].
    now rewrite Nat2Z.id. }
  rewrite Hat.
  destruct (rowCellLines_lookup metrics d c (fontSize z) row 0 k lines Hl)
    as (cell' & Hcell & Hlines).
  assert (Hfit : (inject_Z (len lines * lH) <= heightOf row)%Q).
  { rewrite List.Forall_forall in Hgrid. apply Hgrid.
    eapply nth_error_In. exact Hl. }
  pose proof (drawCell_spec d c z tableY (heightOf row) (Z.of_nat k) lines cx
                font_nonneg Hfit) as Hcell_spec.
  eapply List.Forall_impl; [|exact Hcell_spec].
  intros cmd (st & line & y & -> & Hfont & Hin & Hband).
  split; [exact Hband|].
  exists (Z.of_nat k). split.
  { split; [lia|]. unfold len. apply Nat2Z.inj_lt. apply nth_error_Some.
    congruence. }
  split; [reflexivity|]. split; [exact Hfont|].
  rewrite Hfont.
  pose proof (linesIn_fits metrics (cellFont c z (Z.of_nat k)) cell'
                (textWidth d)) as Hw.
  rewrite List.Forall_forall in Hw. apply Hw.
  rewrite Hlines in Hin. exact Hin.
Qed.


(** *** The rows below one another *)

Lemma within_widen (lo hi lo' hi' : Q) (cmd : Cmd) :
  (lo' <= lo)%Q -> (hi <= hi')%Q -> within lo hi cmd -> within lo' hi' cmd.
Proof. unfold within, inBand. intros H1 H2 [H3 H4]. split; lra. Qed.

Lemma rowCmd_within (row : list string) (tableY : Q) (cmd : Cmd) :
  rowCmd row tableY cmd -> within tableY (tableY + heightOf row) cmd.
Proof.
  unfold within, lineHeightIn. intros [Hband Hcmd].
  destruct cmd as [st x y w h|st line x y|st x0 y0 x1 y1|st img x y w h];
    try contradiction; [exact Hband|].
  destruct Hcmd as (cIdx & _ & _ & Hfont & _).
  cbn [VideoRenderer.styleOf]. rewrite Hfont.
  unfold cellFont. destruct (cIdx =? 0)%Z; exact Hband.
Qed.

Lemma at_of_nat {A} (l : list A) (k : nat) :
  at_ l (Z.of_nat k) = nth_error l k.
Proof.
  unfold at_. destruct (Z.ltb_spec (Z.of_nat k) 0); [lia|].
  now rewrite Nat2Z.id.
Qed.

Lemma skipn_cons_inv {A} (l : list A) :
  forall k x t,
    skipn k l = x :: t -> nth_error l k = Some x /\ skipn (S k) l = t.
Proof.
  induction l as [|y l IH]; intros k x t.
  - destruct k; discriminate.
  - destruct k as [|k].
    + intros [= -> ->]. split; reflexivity.
    + intros H. apply (IH k x t H).
Qed.

Lemma skipn_nth {A} (l : list A) :
  forall k x, nth_error l k = Some x -> skipn k l = x :: skipn (S k) l.
Proof.
  induction l as [|y l IH]; intros k x.
  - destruct k; discriminate.
  - destruct k as [|k].
    + intros [= ->]. reflexivity.
    + intros H. apply (IH k x H).
Qed.

Lemma rowHeights_nonneg : Forall (fun h => (0 <= h)%Q) (rowHeights L).
Proof.
  unfold layoutOf, calculateLayout. cbn [rowHeights].
  apply List.Forall_forall. intros h Hin.
  apply in_map_iff in Hin. destruct Hin as (cells & <- & _).
  eapply Qle_trans; [|apply Qmax_le_r]. lra.
Qed.

Lemma rowHeights_length : length (rowHeights L) = length (data d).
Proof.
  unfold layoutOf, calculateLayout. cbn [rowHeights].
  now rewrite !List.length_map.
Qed.

(** The rows from row [k] on, the first of them starting at
    [tableY]: they end where the heights of the layout add up to,
    and every command lies in between. *)
Lemma drawRows_spec (rows : list (list string)) :
  forall (k : nat) (tableY : Q) (cx : Context),
    skipn k (data d) = rows ->
    (fst (fst (drawRows d c z L (Z.of_nat k) rows tableY cx))
     == tableY + sum (skipn k (rowHeights L)))%Q
    /\ Forall (within tableY (tableY + sum (skipn k (rowHeights L))))
              (snd (drawRows d c z L (Z.of_nat k) rows tableY cx)).
Proof.
  induction rows as [|row rest IH]; intros k tableY cx Hrows.
  - assert (Hk : (length (data d) <= k)%nat).
    { pose proof (List.length_skipn k (data d)) as Hl.
      rewrite Hrows in Hl. simpl in Hl. lia. }
    rewrite List.skipn_all2 by (rewrite rowHeights_length; exact Hk).
    cbn [drawRows ret fst snd]. split; [|constructor].
    unfold sum. simpl. ring.
  - destruct (skipn_cons_inv _ _ _ _ Hrows) as [Hrow Hrest].
    assert (Hat : at_ (data d) (Z.of_nat k) = Some row)
      by (now rewrite at_of_nat).
    destruct (layout_row _ _ Hat) as [Hh Hg].
    assert (Hskip : skipn k (rowHeights L)
                    = heightOf row :: skipn (S k) (rowHeights L)).
    { apply skipn_nth. rewrite <- at_of_nat. exact Hh. }
    rewrite Hskip.
    assert (Hsum : (0 <= sum (skipn (S k) (rowHeights L)))%Q).
    { apply sum_nonneg. apply Forall_drop. exact rowHeights_nonneg. }
    destruct (heightOf_bounds row) as [H80 _].
    cbn [drawRows]. rewrite Hh, Hg. unfold bind.
    pose proof (drawRow_spec (Z.of_nat k) row tableY cx) as Hr.
    destruct (drawRow d c z (Z.of_nat k) row tableY (heightOf row)
                (gridOf row) cx) as [[u c1] l1].
    replace (Z.of_nat k + 1) with (Z.of_nat (S k)) by lia.
    specialize (IH (S k) (tableY + heightOf row)%Q c1 Hrest).
    destruct (drawRows d c z L (Z.of_nat (S k)) rest
                (tableY + heightOf row) c1) as [[v c2] l2].
    cbn [fst snd] in *. destruct IH as [Hv Hl2].
    pose proof (sum_cons (heightOf row) (skipn (S k) (rowHeights L))) as Hsc.
    set (total := sum (heightOf row :: skipn (S k) (rowHeights L))) in *.
    set (below := sum (skipn (S k) (rowHeights L))) in *.
    clearbody total below.
    split; [lra|].
    apply Forall_app; split.
    + eapply List.Forall_impl; [|exact Hr]. intros cmd Hcmd.
      apply (within_widen tableY (tableY + heightOf row));
        [lra | lra | now apply rowCmd_within].
    + eapply List.Forall_impl; [|exact Hl2]. intros cmd Hcmd.
      eapply within_widen; [| |exact Hcmd]; lra.
Qed.

(** *** The header band *)

Hypothesis headerFont_nonneg : 0 <= headerFontSize z.

Local Abbreviation hLH := (lineHeightOf (headerFontSize z)).

Lemma fold_max_ge (l : list Z) :
  forall a,
    a <= fold_left Z.max l a
    /\ Forall (fun x => x <= fold_left Z.max l a) l.
Proof.
  induction l as [|y l IH]; intros a; simpl.
  - split; [lia | constructor].
  - destruct (IH (Z.max a y)) as [H1 H2]. split; [lia|].
    constructor; [lia | exact H2].
Qed.

Lemma maxOf_ge (xs : list Z) (x : Z) : In x xs -> x <= maxOf xs.
Proof.
  destruct xs as [|x0 rest]; [contradiction|]. unfold maxOf.
  destruct (fold_max_ge rest x0) as [H1 H2].
  intros [<-|Hin]; [exact H1|].
  rewrite List.Forall_forall in H2. now apply H2.
Qed.

Lemma headerHeight_bounds :
  (0 <= headerHeight L)%Q
  /\ Forall (fun lines => (inject_Z (len lines * hLH) <= headerHeight L)%Q)
            (headerLines L).
Proof.
  pose proof (lineHeightOf_nonneg _ headerFont_nonneg) as HlH.
  unfold layoutOf, calculateLayout. cbn [headerHeight headerLines].
  change (Qfloor (inject_Z (headerFontSize z) * (13 # 10))) with hLH.
  set (hLines := map _ (columns d)).
  assert (H0 : 0 <= maxOf (map len hLines)).
  { apply maxOf_nonneg. apply List.Forall_forall. intros x Hx.
    apply in_map_iff in Hx. destruct Hx as (l & <- & _). unfold len. lia. }
  split.
  - assert (0 <= inject_Z (maxOf (map len hLines) * hLH))%Q
      by (change 0%Q with (inject_Z 0); rewrite <- Zle_Qle; nia).
    lra.
  - apply List.Forall_forall. intros lines Hin.
    assert (Hle : len lines <= maxOf (map len hLines))
      by (apply maxOf_ge; now apply in_map).
    assert (inject_Z (len lines * hLH)
            <= inject_Z (maxOf (map len hLines) * hLH))%Q
      by (rewrite <- Zle_Qle; nia).
    lra.
Qed.

Lemma drawTableHeader_spec (tableY : Q) (cx : Context) :
  Forall (within tableY (tableY + headerHeight L))
         (snd (drawTableHeader d c z L tableY cx)).
Proof.
  destruct headerHeight_bounds as [HhH Hlines].
  pose proof (lineHeightOf_nonneg _ headerFont_nonneg) as HlH.
  unfold drawTableHeader.
  cbv [bind setFillStyle fillRect setTextAlign setFont modify emit].
  cbn [fst snd]. cbv zeta. unfold forEach.
  match goal with
  | |- context [forEach_from 0 ?xs ?body ?cx0] =>
      generalize
        (forEach_from_spec
           (fun cx1 => fontPx (font (cur cx1)) = headerFontSize z)
           (within tableY (tableY + headerHeight L)) xs body 0);
      intros Hloop; specialize (fun H => Hloop H cx0);
      destruct (forEach_from 0 xs body cx0) as [[u c1] l1]
  end.
  cbn [fst snd app] in Hloop |- *.
  constructor.
  { unfold within, inBand. cbn [top bottom]. split; lra. }
  apply Hloop; [|reflexivity].
  intros k col cx1 Hk Hfont. rewrite Z.add_0_l.
  assert (Hlen : (k < length (headerLines L))%nat).
  { unfold layoutOf, calculateLayout. cbn [headerLines].
    rewrite List.length_map. apply nth_error_Some. congruence. }
  destruct (nth_error (headerLines L) k) as [lines|] eqn:Hl;
    [|apply nth_error_None in Hl; lia].
  rewrite at_of_nat, Hl.
  destruct (drawCellLines_spec lines (cellX d (Z.of_nat k))
              (tableY + (headerHeight L - inject_Z (len lines * hLH)) / 2)
              hLH cx1 HlH) as [Hcx Hcmds].
  split; [rewrite Hcx; exact Hfont|].
  assert (Hfit : (inject_Z (len lines * hLH) <= headerHeight L)%Q).
  { rewrite List.Forall_forall in Hlines. apply Hlines.
    eapply nth_error_In. exact Hl. }
  eapply List.Forall_impl; [|exact Hcmds].
  intros cmd (line & y & -> & _ & Hy0 & Hy1).
  unfold within, lineHeightIn, inBand.
  cbn [VideoRenderer.styleOf top bottom]. rewrite Hfont.
  set (t := inject_Z (len lines * hLH)) in *.
  assert (E : ((headerHeight L - t) / 2 == (headerHeight L - t) * (1 # 2))%Q)
    by field.
  rewrite E in Hy0, Hy1. split; lra.
Qed.

(** *** The table *)

Lemma totalHeight_sum :
  totalHeight L = (headerHeight L + sum (rowHeights L))%Q.
Proof. reflexivity. Qed.

Lemma drawTable_spec (avail : Q) (cx : Context) :
  let T := tableTop metrics toUpperCase d c avail L in
  (fst (fst (drawTable metrics toUpperCase d c avail z cx))
   == T + totalHeight L)%Q
  /\ Forall (within T (T + totalHeight L))
            (snd (drawTable metrics toUpperCase d c avail z cx)).
Proof.
  intros T. destruct headerHeight_bounds as [HhH _].
  assert (Hsum : (0 <= sum (rowHeights L))%Q)
    by (apply sum_nonneg, rowHeights_nonneg).
  unfold drawTable. cbv zeta. fold T. unfold bind.
  pose proof (drawTableHeader_spec T cx) as Hh.
  destruct (drawTableHeader d c z L T cx) as [[u c1] l1].
  pose proof (drawRows_spec (data d) 0 (T + headerHeight L)%Q c1 eq_refl)
    as [Hv Hr].
  change (Z.of_nat 0) with 0 in Hv, Hr.
  change (skipn 0 (rowHeights L)) with (rowHeights L) in Hv, Hr.
  destruct (drawRows d c z L 0 (data d) (T + headerHeight L) c1)
    as [[v c2] l2].
  cbn [fst snd] in *. rewrite totalHeight_sum.
  set (rows := sum (rowHeights L)) in *. clearbody rows.
  split; [lra|].
  apply Forall_app; split.
  - eapply List.Forall_impl; [|exact Hh]. intros cmd Hcmd.
    eapply within_widen; [| |exact Hcmd]; lra.
  - eapply List.Forall_impl; [|exact Hr]. intros cmd Hcmd.
    eapply within_widen; [| |exact Hcmd]; lra.
Qed.

Lemma tableTop_centred (avail : Q) :
  let T := tableTop metrics toUpperCase d c avail L in
  let S := tableStartY metrics toUpperCase d c in
  ((totalHeight L <= avail ->
    S <= T /\ T + totalHeight L <= S + avail
    /\ T - S == (S + avail) - (T + totalHeight L))
   /\ (avail < totalHeight L -> T == S))%Q.
Proof.
  intros T S. unfold T, tableTop. fold S.
  destruct (JS.Qltb (totalHeight L) avail) eqn:E.
  - apply Qltb_lt in E.
    assert (E2 : ((avail - totalHeight L) / 2
                  == (avail - totalHeight L) * (1 # 2))%Q) by field.
    split; intros H; [|lra]. rewrite E2. repeat split; lra.
  - apply Qltb_ge in E. split; intros H; [|reflexivity].
    repeat split; lra.
Qed.

End TableRows.

Section SolvedSizing.
Import Canvas Types ImageRenderer.

Variable metrics : Font -> string -> Q.
Variable toUpperCase : string -> string.
Variable d : TableData.
Variable c : AnimationConfig.

(** The sizing that the solver ends with: fonts of at least 25 and a
    padding of at least 20. *)
Lemma solveFor_sizing (avail : Q) :
  let z := fst (solveFor metrics toUpperCase d c avail) in
  25 <= fontSize z /\ 25 <= headerFontSize z /\ (20 <= rowPadding z)%Q.
Proof.
  unfold solveFor. cbn [fst].
  destruct (shrink_exit metrics toUpperCase d c avail) as (j & Hj & -> & _ & _).
  destruct (upscale_fonts metrics toUpperCase d c avail (scheduleAt j))
    as (Hf & Hh & _).
  rewrite Hf, Hh, schedule_fontSize.
  split; [lia|]. split; [apply schedule_headerFontSize|].
  pose proof (schedule_rowPadding j) as Hp.
  pose proof (schedule_headerFontSize j) as Hhf.
  unfold upscale.
  destruct (mustUpscale metrics toUpperCase d c avail (scheduleAt j)) eqn:Hup;
    [|exact Hp].
  cbn [rowPadding].
  unfold mustUpscale in Hup. apply Qltb_lt in Hup.
  fold (tableHeight metrics toUpperCase d c (scheduleAt j)) in Hup.
  assert (Hpos : (0 < tableHeight metrics toUpperCase d c (scheduleAt j))%Q)
    by (apply tableHeight_pos; [lia | lra]).
  assert (Hfit : (tableHeight metrics toUpperCase d c (scheduleAt j) <= avail)%Q)
    by lra.
  destruct (extraPadding_bounds metrics toUpperCase d c avail (scheduleAt j) Hfit)
    as (H0 & _).
  lra.
Qed.

End SolvedSizing.

(** X18.  In the table image of a table with at least one column,
    when the solver distributes no surplus (the table that the shrink
    loop ends with is not below 85% of the area, so the padding stays
    one of the whole numbers 40, 36, ..., 20 and every height is a
    whole or half number), the table is drawn inside its own extent:
    from the top [T] that the function computes, every command of the
    header band and of the rows lies between [T] and [T] plus the
    total height of the solved layout (a text counted with the line
    height of its font), and the rows end exactly at that height.
    When the solved layout fits the table area, the extent is centred
    in the area, which ends where the footer block begins; when it
    does not fit, the table starts at the top of the area. *)
Theorem table_is_drawn_inside_its_centred_extent :
  forall (metrics : Canvas.Font -> string -> Q) (toUpperCase : string -> string)
         (d : Types.TableData) (c : Types.AnimationConfig)
         (cx : Canvas.Context),
    Types.columns d <> [] ->
    let avail := ImageRenderer.availableTableHeight metrics toUpperCase d c in
    ImageRenderer.mustUpscale metrics toUpperCase d c avail
      (ImageRenderer.shrink metrics toUpperCase d c avail) = false ->
    let z := fst (ImageRenderer.solve metrics toUpperCase d c) in
    let L := snd (ImageRenderer.solve metrics toUpperCase d c) in
    let S := ImageRenderer.tableStartY metrics toUpperCase d c in
    let T := ImageRenderer.tableTop metrics toUpperCase d c avail L in
    let res := ImageRenderer.drawTable metrics toUpperCase d c avail z cx in
    z = ImageRenderer.shrink metrics toUpperCase d c avail
    /\ (fst (fst res) == T + ImageRenderer.totalHeight L)%Q
    /\ Forall (ImageRenderer.within T (T + ImageRenderer.totalHeight L))
              (snd res)
    /\ (S + avail
        == ImageRenderer.height - ImageRenderer.margin
           - ImageRenderer.footerHeight)%Q
    /\ ((ImageRenderer.totalHeight L <= avail)%Q ->
        (S <= T /\ T + ImageRenderer.totalHeight L <= S + avail
         /\ T - S == (S + avail) - (T + ImageRenderer.totalHeight L))%Q)
    /\ ((avail < ImageRenderer.totalHeight L)%Q -> (T == S)%Q).
Proof.
  intros metrics toUpperCase d c cx _ avail Hno z L S T res.
  assert (Hz : z = ImageRenderer.shrink metrics toUpperCase d c avail).
  { unfold z, ImageRenderer.solve, ImageRenderer.solveFor. cbn [fst].
    fold avail. unfold ImageRenderer.upscale. now rewrite Hno. }
  destruct (solveFor_sizing metrics toUpperCase d c avail) as (Hf & Hh & Hp).
  change (25 <= ImageRenderer.fontSize z) in Hf.
  change (25 <= ImageRenderer.headerFontSize z) in Hh.
  change (20 <= ImageRenderer.rowPadding z)%Q in Hp.
  assert (Hf0 : 0 <= ImageRenderer.fontSize z) by lia.
  assert (Hh0 : 0 <= ImageRenderer.headerFontSize z) by lia.
  assert (Hp0 : (0 <= ImageRenderer.rowPadding z)%Q) by lra.
  assert (Harea : (S + avail
                   == ImageRenderer.height - ImageRenderer.margin
                      - ImageRenderer.footerHeight)%Q).
  { unfold S, avail, ImageRenderer.tableStartY,
      ImageRenderer.availableTableHeight. ring. }
  assert (HL : L = ImageRenderer.layoutOf metrics toUpperCase d c z)
    by reflexivity.
  split; [exact Hz|].
  clear Hz Hno. clearbody L z avail. subst L.
  destruct (drawTable_spec metrics toUpperCase d c z Hf0 Hp0 Hh0 avail cx)
    as [Hv Hcmds].
  destruct (tableTop_centred metrics toUpperCase d c z avail) as [Hfit Hover].
  split; [exact Hv|]. split; [exact Hcmds|]. split; [exact Harea|].
  split; [exact Hfit | exact Hover].
Qed.

Lemma table_is_drawn_inside_its_centred_extent_witness :
  let metrics := Examples.metrics in
  let upper := Examples.upper in
  let d := Examples.twentyFiveRows in
  let c := Examples.config in
  let cx := Canvas.newContext Examples.metrics in
  let avail := ImageRenderer.availableTableHeight metrics upper d c in
  let z := fst (ImageRenderer.solve metrics upper d c) in
  let L := snd (ImageRenderer.solve metrics upper d c) in
  let S := ImageRenderer.tableStartY metrics upper d c in
  let T := ImageRenderer.tableTop metrics upper d c avail L in
  let res := ImageRenderer.drawTable metrics upper d c avail z cx in
  z = ImageRenderer.shrink metrics upper d c avail
  /\ (fst (fst res) == T + ImageRenderer.totalHeight L)%Q
  /\ Forall (ImageRenderer.within T (T + ImageRenderer.totalHeight L))
            (snd res)
  /\ (S + avail
      == ImageRenderer.height - ImageRenderer.margin
         - ImageRenderer.footerHeight)%Q
  /\ ((ImageRenderer.totalHeight L <= avail)%Q ->
      (S <= T /\ T + ImageRenderer.totalHeight L <= S + avail
       /\ T - S == (S + avail) - (T + ImageRenderer.totalHeight L))%Q)
  /\ ((avail < ImageRenderer.totalHeight L)%Q -> (T == S)%Q).
Proof.
  apply (table_is_drawn_inside_its_centred_extent Examples.metrics
           Examples.upper Examples.twentyFiveRows Examples.config
           (Canvas.newContext Examples.metrics)).
  - discriminate.
  - vm_compute. reflexivity.
Defined.

(** X19.  In the table image every command of a body row stays
    inside the band of the row, for a table with at least one column
    and the sizing that the solver ends with: the row is at least 80
    high, the zebra stripe and the separator span the content width
    between the top and the bottom of the row, and every line of a
    cell is drawn with its full line height inside the band, at the
    left edge of the column of its cell, in the font it was measured
    with (bold for the first column), and is narrower than the text
    width of the column unless it is a single word that cannot be
    wrapped. *)
Theorem row_commands_stay_in_band_and_column :
  forall (metrics : Canvas.Font -> string -> Q) (toUpperCase : string -> string)
         (d : Types.TableData) (c : Types.AnimationConfig)
         (r : Z) (row : list string) (tableY : Q) (cx : Canvas.Context),
    Types.columns d <> [] ->
    Types.at_ (Types.data d) r = Some row ->
    let z := fst (ImageRenderer.solve metrics toUpperCase d c) in
    let L := snd (ImageRenderer.solve metrics toUpperCase d c) in
    let lH := inject_Z (ImageRenderer.lineHeightOf (ImageRenderer.fontSize z)) in
    exists h grid,
      Types.at_ (ImageRenderer.rowHeights L) r = Some h
      /\ Types.at_ (ImageRenderer.rowLines L) r = Some grid
      /\ (80 <= h)%Q
      /\ Forall (fun cmd =>
                   ImageRenderer.inBand lH tableY (tableY + h) cmd
                   /\ match cmd with
                      | Canvas.FillRect _ x _ w _ =>
                          x = ImageRenderer.margin
                          /\ w = ImageRenderer.contentWidth
                      | Canvas.FillText st line x _ =>
                          exists cIdx,
                            0 <= cIdx < ImageRenderer.len row
                            /\ x = ImageRenderer.cellX d cIdx
                            /\ Canvas.font st = ImageRenderer.cellFont c z cIdx
                            /\ ((metrics (Canvas.font st) line
                                 < ImageRenderer.textWidth d)%Q
                                \/ JS.includes " " line = false)
                      | _ => False
                      end)
                (snd (ImageRenderer.drawRow d c z r row tableY h grid cx)).
Proof.
  intros metrics toUpperCase d c r row tableY cx _ Hr z L lH.
  destruct (solveFor_sizing metrics toUpperCase d c
              (ImageRenderer.availableTableHeight metrics toUpperCase d c))
    as (Hf & _ & Hp).
  change (25 <= ImageRenderer.fontSize z) in Hf.
  change (20 <= ImageRenderer.rowPadding z)%Q in Hp.
  assert (Hf0 : 0 <= ImageRenderer.fontSize z) by lia.
  assert (Hp0 : (0 <= ImageRenderer.rowPadding z)%Q) by lra.
  destruct (layout_row metrics toUpperCase d c z r row Hr) as [Hh Hg].
  destruct (heightOf_bounds metrics d c z Hf0 Hp0 row) as [H80 _].
  eexists _, _. split; [exact Hh|]. split; [exact Hg|]. split; [exact H80|].
  apply (drawRow_spec metrics d c z Hf0 Hp0 r row tableY cx).
Qed.

Lemma row_commands_stay_in_band_and_column_witness :
  let metrics := Examples.metrics in
  let d := Examples.scenarioA in
  let c := Examples.config in
  let row := ["a"; "1"] in
  let tableY := 1000%Q in
  let z := fst (ImageRenderer.solve metrics Examples.upper d c) in
  let L := snd (ImageRenderer.solve metrics Examples.upper d c) in
  let lH := inject_Z (ImageRenderer.lineHeightOf (ImageRenderer.fontSize z)) in
  exists h grid,
    Types.at_ (ImageRenderer.rowHeights L) 0 = Some h
    /\ Types.at_ (ImageRenderer.rowLines L) 0 = Some grid
    /\ (80 <= h)%Q
    /\ Forall (fun cmd =>
                 ImageRenderer.inBand lH tableY (tableY + h) cmd
                 /\ match cmd with
                    | Canvas.FillRect _ x _ w _ =>
                        x = ImageRenderer.margin
                        /\ w = ImageRenderer.contentWidth
                    | Canvas.FillText st line x _ =>
                        exists cIdx,
                          0 <= cIdx < ImageRenderer.len row
                          /\ x = ImageRenderer.cellX d cIdx
                          /\ Canvas.font st = ImageRenderer.cellFont c z cIdx
                          /\ ((metrics (Canvas.font st) line
                               < ImageRenderer.textWidth d)%Q
                              \/ JS.includes " " line = false)
                    | _ => False
                    end)
              (snd (ImageRenderer.drawRow d c z 0 row tableY h grid
                      (Canvas.newContext Examples.metrics))).
Proof.
  apply (row_commands_stay_in_band_and_column Examples.metrics Examples.upper
           Examples.scenarioA Examples.config 0 ["a"; "1"] 1000%Q
           (Canvas.newContext Examples.metrics)).
  - discriminate.
  - reflexivity.
Defined.

(** ** What a frame of the export writes *)

Section FrameTexts.
Import Canvas Types VideoRenderer.

Variable toUpperCase : string -> string.
Variable random : nat -> Q.
Variable d : TableData.
Variable c : AnimationConfig.

Lemma texts_app (l1 l2 : list Cmd) : texts (l1 ++ l2) = texts l1 ++ texts l2.
Proof.
  induction l1 as [|cmd l1 IH]; [reflexivity|].
  destruct cmd; simpl; rewrite IH; reflexivity.
Qed.

(** A loop that writes each of its items once writes the items. *)
Lemma forEach_from_texts (xs : list string) (body : Z -> string -> Draw unit) :
  (forall i line cx, texts (snd (body i line cx)) = [line]) ->
  forall i cx, texts (snd (forEach_from i xs body cx)) = xs.
Proof.
  intros Hbody. induction xs as [|x xs IH]; intros i cx; simpl; [reflexivity|].
  unfold bind. specialize (Hbody i x cx).
  destruct (body i x cx) as [[u c1] l1]. specialize (IH (i + 1) c1).
  destruct (forEach_from (i + 1) xs body c1) as [[u2 c2] l2].
  simpl in *. rewrite texts_app, Hbody, IH. reflexivity.
Qed.

Lemma getLines_join (ctx : Context) (text : string) (maxWidth : Q) :
  JS.join " " (WordWrap.getLines ctx text maxWidth) = text.
Proof.
  unfold WordWrap.getLines.
  pose proof (split_nonempty " " text) as Hne.
  pose proof (join_split " " text) as Hjoin.
  destruct (JS.split " " text) as [|w0 ws]; [contradiction|].
  rewrite getLines_loop_join. exact Hjoin.
Qed.

Lemma drawTitle_texts (cx : Context) :
  texts (snd (exec (drawTitle toUpperCase d c) cx))
  = if truthy (title d) then [toUpperCase (orEmpty (title d))] else [].
Proof.
  unfold drawTitle, truthy.
  destruct (negb (String.eqb (orEmpty (title d)) "")); reflexivity.
Qed.

Lemma drawSubject_texts (subjectLabel subject : string) (cur : Z)
    (stepTime : Q) (cx : Context) :
  texts (snd (exec (drawSubject toUpperCase d c subjectLabel subject cur stepTime) cx))
  = [toUpperCase subjectLabel; subject].
Proof.
  unfold drawSubject. destruct (Layout_eqb (layout c) SPLIT); reflexivity.
Qed.

Lemma drawAttribute_texts (header value : string) (opacity : Q) (cx : Context) :
  exists lines,
    texts (snd (exec (drawAttribute c header value opacity) cx)) = header :: lines
    /\ JS.join " " lines = value.
Proof.
  unfold drawAttribute.
  destruct (Layout_eqb (layout c) SPLIT);
    cbv [exec]; draw_compute; unfold forEach;
    match goal with
    | |- context [forEach_from 0 ?xs ?body ?cx0] =>
        generalize (forEach_from_texts xs body (fun _ _ _ => eq_refl) 0 cx0);
        intros Hloop;
        destruct (forEach_from 0 xs body cx0) as [[u c1] l1];
        exists xs
    end;
    cbn [fst snd app texts] in Hloop |- *;
    (split; [now rewrite Hloop | apply getLines_join]).
Qed.

Lemma paintFrame_texts bgImg logoImg elapsed cur cx :
  showsCell toUpperCase d
    (snd (fst (paintFrame toUpperCase d c bgImg logoImg elapsed cur cx))).
Proof.
  unfold showsCell, paintFrame.
  destruct (exec (drawBackground d c bgImg elapsed) cx) as [c1 bgLog].
  pose proof (drawTitle_texts c1) as Ht.
  destruct (exec (drawTitle toUpperCase d c) c1) as [c2 titleLog].
  destruct (exec (subjectSetup c) c2) as [c3 setupLog].
  destruct (at_ (columns d) 0) as [subjectLabel|] eqn:Hcol0.
  - pose proof (drawSubject_texts subjectLabel
                  (cell (at_ (data d) (rowIdx d cur)) 0) cur
                  (Qrem elapsed (durationPerItemMs c)) c3) as Hs.
    destruct (exec (drawSubject toUpperCase d c subjectLabel _ cur _) c3)
      as [c4 subjLog].
    destruct (drawAttribute_texts
                (orEmpty (at_ (columns d) (colIdx d cur)))
                (cell (at_ (data d) (rowIdx d cur)) (colIdx d cur))
                (opacityAt c (Qrem elapsed (durationPerItemMs c))) c4)
      as (lines & Ha & Hj).
    destruct (Z.gtb_spec (numCols d) 1) as [Hc|Hc].
    + cbn [when].
      destruct (exec (drawAttribute c _ _ _) c4) as [c5 attrLog].
      destruct (exec (drawProgressBar d c elapsed) c5) as [c6 barLog].
      destruct (exec (drawLogo logoImg) c6) as [c7 logoLog].
      cbn [fst snd stepShown titleBand subjectBlock attributeBlock] in *.
      split; [exact Ht|]. split; [intros label [= <-]; exact Hs|].
      intros _. exists lines. split; assumption.
    + destruct (exec (when false _) c4) as [c5 attrLog].
      destruct (exec (drawProgressBar d c elapsed) c5) as [c6 barLog].
      destruct (exec (drawLogo logoImg) c6) as [c7 logoLog].
      cbn [fst snd stepShown titleBand subjectBlock attributeBlock] in *.
      split; [exact Ht|]. split; [intros label [= <-]; exact Hs|].
      intros H. lia.
  - cbn [fst snd stepShown titleBand subjectBlock attributeBlock] in *.
    split; [exact Ht|]. split; [intros label H; discriminate H|].
    intros H. exfalso. unfold numCols in H. unfold at_ in Hcol0.
    destruct (columns d); [simpl in H; lia | discriminate Hcol0].
Qed.

End FrameTexts.

(** X20.  Every frame of an export writes the texts of the cell of
    its step and nothing else in its text blocks: the title band holds
    the title in upper case (or nothing without a title), the subject
    block the label of column 0 in upper case and the first cell of
    the row of the step, and with more than one column the attribute
    block holds the header of the column of the step followed by the
    wrapped lines of its cell, which joined by single spaces are the
    cell again. *)
Theorem frames_write_the_cell_of_their_step :
  forall (toUpperCase : string -> string) (random : nat -> Q)
         (d : Types.TableData) (c : Types.AnimationConfig)
         (es : list VideoRenderer.Event) (s : VideoRenderer.Session),
    VideoRenderer.fresh s ->
    Forall (fun f =>
              let cur := VideoRenderer.stepShown f in
              let row := Types.at_ (Types.data d) (VideoRenderer.rowIdx d cur) in
              VideoRenderer.texts (VideoRenderer.titleBand f)
              = (if Types.truthy (Types.title d)
                 then [toUpperCase (Types.orEmpty (Types.title d))] else [])
              /\ (forall label,
                    Types.at_ (Types.columns d) 0 = Some label ->
                    VideoRenderer.texts (VideoRenderer.subjectBlock f)
                    = [toUpperCase label; VideoRenderer.cell row 0])
              /\ (1 < VideoRenderer.numCols d ->
                  exists lines,
                    VideoRenderer.texts (VideoRenderer.attributeBlock f)
                    = Types.orEmpty
                        (Types.at_ (Types.columns d) (VideoRenderer.colIdx d cur))
                      :: lines
                    /\ JS.join " " lines
                       = VideoRenderer.cell row (VideoRenderer.colIdx d cur)))
           (VideoRenderer.frames (VideoRenderer.run toUpperCase random d c es s)).
Proof.
  intros toUpperCase random d c es s Hfresh.
  apply (run_frames toUpperCase random d c
           (VideoRenderer.showsCell toUpperCase d) (fun _ => True)); auto.
  - intros s0 elapsed cur _. apply paintFrame_texts.
  - destruct Hfresh as (_ & _ & _ & _ & Hf & _). rewrite Hf. constructor.
Qed.

Lemma frames_write_the_cell_of_their_step_witness :
  Forall (fun f =>
            let cur := VideoRenderer.stepShown f in
            let row := Types.at_ (Types.data Examples.scenarioA)
                         (VideoRenderer.rowIdx Examples.scenarioA cur) in
            VideoRenderer.texts (VideoRenderer.titleBand f)
            = (if Types.truthy (Types.title Examples.scenarioA)
               then [Examples.upper (Types.orEmpty (Types.title Examples.scenarioA))]
               else [])
            /\ (forall label,
                  Types.at_ (Types.columns Examples.scenarioA) 0 = Some label ->
                  VideoRenderer.texts (VideoRenderer.subjectBlock f)
                  = [Examples.upper label; VideoRenderer.cell row 0])
            /\ (1 < VideoRenderer.numCols Examples.scenarioA ->
                exists lines,
                  VideoRenderer.texts (VideoRenderer.attributeBlock f)
                  = Types.orEmpty
                      (Types.at_ (Types.columns Examples.scenarioA)
                         (VideoRenderer.colIdx Examples.scenarioA cur))
                    :: lines
                  /\ JS.join " " lines
                     = VideoRenderer.cell row
                         (VideoRenderer.colIdx Examples.scenarioA cur)))
         (VideoRenderer.frames
            (VideoRenderer.run Examples.upper Examples.random
               Examples.scenarioA Examples.config Examples.playbackA
               Examples.session0)).
Proof.
  apply (frames_write_the_cell_of_their_step Examples.upper Examples.random
           Examples.scenarioA Examples.config Examples.playbackA
           Examples.session0).
  exact session0_fresh.
Defined.

(** ** The preview *)

Section PreviewSteps.
Import Types.

Variable d : TableData.

Local Abbreviation total := (Preview.totalSteps d).
Local Abbreviation last := (Z.max 0 (Preview.totalSteps d - 1)).

Lemma totalSteps_nonneg : 0 <= total.
Proof.
  unfold Preview.totalSteps, VideoRenderer.totalItems,
    VideoRenderer.numAttributes.
  apply Z.mul_nonneg_nonneg; lia.
Qed.

Lemma totalSteps_pos : data d <> [] -> 0 < total.
Proof.
  intros Hne. unfold Preview.totalSteps, VideoRenderer.totalItems,
    VideoRenderer.numAttributes.
  destruct (data d); [contradiction|]. simpl length.
  apply Z.mul_pos_pos; lia.
Qed.

(** The playback after [k] periods. *)
Lemma ticks_spec (k : nat) :
  let p := Preview.ticks d k in
  Preview.currentStep p = Z.min (Z.of_nat k) last
  /\ Preview.interval p = (Z.of_nat k <=? last)%Z
  /\ Preview.completions p = (if (Z.of_nat k <=? last)%Z then 0 else 1)%nat
  /\ Z.of_nat (Preview.transitions p) = Preview.currentStep p.
Proof.
  pose proof totalSteps_nonneg as Htot.
  induction k as [|k IH].
  - change (Preview.ticks d 0) with Preview.play.
    change (Z.of_nat 0) with 0.
    cbn [Preview.play Preview.currentStep Preview.interval
         Preview.completions Preview.transitions].
    destruct (Z.leb_spec 0 last); repeat split; lia.
  - unfold Preview.ticks in *. rewrite Nat.iter_succ.
    cbv zeta in IH. destruct IH as (Hs & Hi & Hc & Ht).
    destruct (Nat.iter k (Preview.tick d) Preview.play)
      as [step live done played].
    cbn [Preview.currentStep Preview.interval Preview.completions
         Preview.transitions] in *.
    unfold Preview.tick.
    cbn [Preview.currentStep Preview.interval Preview.completions
         Preview.transitions].
    rewrite Nat2Z.inj_succ.
    destruct (Z.leb_spec (Z.of_nat k) last) as [Hk|Hk]; subst live.
    + destruct (Z.geb_spec (step + 1) total) as [Hn|Hn];
        cbn [Preview.currentStep Preview.interval Preview.completions
             Preview.transitions].
      * destruct (Z.leb_spec (Z.succ (Z.of_nat k)) last);
          repeat split; lia.
      * destruct (Z.leb_spec (Z.succ (Z.of_nat k)) last);
          destruct (Z.gtb_spec (step + 1) 0); repeat split; lia.
    + cbn [Preview.currentStep Preview.interval Preview.completions
           Preview.transitions].
      destruct (Z.leb_spec (Z.succ (Z.of_nat k)) last); repeat split; lia.
Qed.

(** The fraction [(a + 1) / b] of two integers. *)
Lemma ratio_bounds (a b : Z) :
  0 <= a < b ->
  (0 < inject_Z (a + 1) / inject_Z b <= 1)%Q
  /\ ((inject_Z (a + 1) / inject_Z b == 1)%Q <-> a = b - 1).
Proof.
  intros [H0 H1]. destruct b as [|p|p]; try lia.
  rewrite <- Qmake_Qdiv. unfold Qlt, Qle, Qeq. simpl. split; [lia|].
  split; lia.
Qed.

Lemma activeInfo_spec (step : Z) :
  0 <= step ->
  match Preview.activeInfo d step with
  | None => data d = []
  | Some info =>
      data d <> []
      /\ Preview.rowIdx info = VideoRenderer.rowIdx d (Z.min step (total - 1))
      /\ Preview.colIdx info = VideoRenderer.colIdx d (Z.min step (total - 1))
      /\ Preview.subject info
         = VideoRenderer.cell (at_ (data d) (Preview.rowIdx info)) 0
      /\ Preview.header info
         = orEmpty (at_ (columns d) (Preview.colIdx info))
      /\ Preview.value info
         = VideoRenderer.cell (at_ (data d) (Preview.rowIdx info))
             (Preview.colIdx info)
      /\ 0 <= Preview.rowIdx info < Z.of_nat (length (data d))
      /\ (VideoRenderer.hasColumns d = true ->
          0 <= Preview.colIdx info < VideoRenderer.numCols d)
      /\ (0 < Preview.progress info <= 1)%Q
      /\ ((Preview.progress info == 1)%Q <-> total - 1 <= step)
  end.
Proof.
  intros Hstep. unfold Preview.activeInfo.
  destruct (Z.eqb_spec (Z.of_nat (length (data d))) 0) as [He|Hne].
  { destruct (data d); [reflexivity | discriminate]. }
  assert (Hdata : data d <> []) by (intros E; rewrite E in Hne; now apply Hne).
  pose proof (totalSteps_pos Hdata) as Hpos.
  cbv zeta.
  cbn [Preview.rowIdx Preview.colIdx Preview.subject Preview.header
       Preview.value Preview.progress].
  set (safe := Z.min step (total - 1)).
  assert (Hsafe : 0 <= safe < total) by (unfold safe; lia).
  fold (VideoRenderer.rowIdx d safe). fold (VideoRenderer.attrIdx d safe).
  fold (VideoRenderer.colIdx d safe).
  split; [exact Hdata|]. do 5 (split; [reflexivity|]).
  split; [apply rowIdx_bound; exact Hsafe|].
  split.
  { intros Hcols. unfold VideoRenderer.colIdx.
    destruct (Z.gtb_spec (VideoRenderer.numCols d) 1) as [Hc|Hc].
    - pose proof (colIdx_bound d safe ltac:(lia) Hc) as Hb.
      unfold VideoRenderer.colIdx in Hb.
      destruct (Z.gtb_spec (VideoRenderer.numCols d) 1); lia.
    - unfold VideoRenderer.hasColumns in Hcols.
      unfold VideoRenderer.numCols in *.
      destruct (columns d); [discriminate|]. simpl length in *. lia. }
  destruct (ratio_bounds safe total Hsafe) as [Hr Hone].
  split; [exact Hr|]. rewrite Hone. unfold safe. lia.
Qed.

End PreviewSteps.

(** X21.  The preview steps once through the table: after [k]
    periods of its interval it shows step [min(k, totalSteps - 1)]
    (step 0 for a table without rows), so never a step beyond the
    last; the interval is still set exactly as long as [k] is not
    beyond the last step, the callback that follows the last step
    clears it and schedules [onAnimationComplete], once and never
    again; and the transition sound has played once for every step
    after step 0, [totalSteps - 1] times in all, as in the export. *)
Theorem preview_steps_once_through_the_table :
  forall (d : Types.TableData) (k : nat),
    let last := Z.max 0 (Preview.totalSteps d - 1) in
    let p := Preview.ticks d k in
    Preview.currentStep p = Z.min (Z.of_nat k) last
    /\ (Preview.interval p = true <-> Z.of_nat k <= last)
    /\ Preview.completions p = (if Preview.interval p then 0 else 1)%nat
    /\ Preview.transitions p = Z.to_nat (Z.min (Z.of_nat k) last).
Proof.
  intros d k last p.
  destruct (ticks_spec d k) as (Hs & Hi & Hc & Ht).
  fold p in Hs, Hi, Hc, Ht. fold last in Hs, Hi, Hc.
  split; [exact Hs|]. split.
  { rewrite Hi. apply Z.leb_le. }
  split; [rewrite Hi; exact Hc|].
  rewrite <- Hs, <- Ht. now rewrite Nat2Z.id.
Qed.

(** X22.  What the preview shows is always defined and in range: for
    a step that is not negative, [activeInfo] is [null] exactly for a
    table without rows; otherwise its row index addresses a row of the
    table, its column index a column (for a table with columns), and
    its progress lies in [(0, 1]] and is 1 exactly from the last step
    on. *)
Theorem preview_info_is_defined_and_in_range :
  forall (d : Types.TableData) (step : Z),
    0 <= step ->
    match Preview.activeInfo d step with
    | None => Types.data d = []
    | Some info =>
        Types.data d <> []
        /\ 0 <= Preview.rowIdx info < Z.of_nat (length (Types.data d))
        /\ (VideoRenderer.hasColumns d = true ->
            0 <= Preview.colIdx info < VideoRenderer.numCols d)
        /\ (0 < Preview.progress info <= 1)%Q
        /\ ((Preview.progress info == 1)%Q
            <-> Preview.totalSteps d - 1 <= step)
    end.
Proof.
  intros d step Hstep. pose proof (activeInfo_spec d step Hstep) as H.
  destruct (Preview.activeInfo d step) as [info|]; [|exact H].
  destruct H as (H1 & _ & _ & _ & _ & _ & H2 & H3 & H4 & H5).
  split; [exact H1|]. split; [exact H2|]. split; [exact H3|].
  split; [exact H4 | exact H5].
Qed.

Lemma preview_info_is_defined_and_in_range_witness :
  match Preview.activeInfo Examples.scenarioA 5 with
  | None => Types.data Examples.scenarioA = []
  | Some info =>
      Types.data Examples.scenarioA <> []
      /\ 0 <= Preview.rowIdx info
         < Z.of_nat (length (Types.data Examples.scenarioA))
      /\ (VideoRenderer.hasColumns Examples.scenarioA = true ->
          0 <= Preview.colIdx info < VideoRenderer.numCols Examples.scenarioA)
      /\ (0 < Preview.progress info <= 1)%Q
      /\ ((Preview.progress info == 1)%Q
          <-> Preview.totalSteps Examples.scenarioA - 1 <= 5)
  end.
Proof.
  apply (preview_info_is_defined_and_in_range Examples.scenarioA 5). lia.
Defined.

(** X23.  Preview and export agree: for a table with at least one
    step and a positive duration per item, the step that the export
    draws at [elapsed] milliseconds is the step that the preview
    shows after as many periods of its interval as fit into
    [elapsed], and the preview shows the row, the column, the subject,
    the header and the value that the export computes for that
    step. *)
Theorem preview_and_export_show_the_same_cell :
  forall (d : Types.TableData) (c : Types.AnimationConfig) (elapsed : Q),
    0 < VideoRenderer.totalItems d ->
    (0 < Types.durationPerItem c)%Q ->
    (0 <= elapsed)%Q ->
    let cur := VideoRenderer.stepIndex d c elapsed in
    let k := Z.to_nat (VideoRenderer.rawStepIndex c elapsed) in
    let row := Types.at_ (Types.data d) (VideoRenderer.rowIdx d cur) in
    Preview.currentStep (Preview.ticks d k) = cur
    /\ exists info,
         Preview.activeInfo d (Preview.currentStep (Preview.ticks d k))
         = Some info
         /\ Preview.rowIdx info = VideoRenderer.rowIdx d cur
         /\ Preview.colIdx info = VideoRenderer.colIdx d cur
         /\ Preview.subject info = VideoRenderer.cell row 0
         /\ Preview.header info
            = Types.orEmpty
                (Types.at_ (Types.columns d) (VideoRenderer.colIdx d cur))
         /\ Preview.value info
            = VideoRenderer.cell row (VideoRenderer.colIdx d cur).
Proof.
  intros d c elapsed Htot Hdur Hel cur k row.
  pose proof (rawStepIndex_nonneg c Hdur elapsed Hel) as Hraw.
  destruct (ticks_spec d k) as (Hs & _).
  assert (Hcur : Preview.currentStep (Preview.ticks d k) = cur).
  { rewrite Hs. unfold cur, VideoRenderer.stepIndex.
    rewrite clampStep_min. unfold k, Preview.totalSteps.
    rewrite Z2Nat.id by exact Hraw. lia. }
  split; [exact Hcur|]. rewrite Hcur.
  assert (Hrange : 0 <= cur < VideoRenderer.totalItems d).
  { unfold cur, VideoRenderer.stepIndex. rewrite clampStep_min. lia. }
  pose proof (activeInfo_spec d cur ltac:(lia)) as H.
  destruct (Preview.activeInfo d cur) as [info|].
  - exists info. destruct H as (_ & Hr & Hc & Hsub & Hh & Hv & _).
    unfold Preview.totalSteps in Hr, Hc.
    rewrite Z.min_l in Hr, Hc by lia.
    split; [reflexivity|]. split; [exact Hr|]. split; [exact Hc|].
    unfold row. rewrite <- Hr, <- Hc. repeat split; assumption.
  - exfalso. unfold VideoRenderer.totalItems in Htot. rewrite H in Htot.
    simpl in Htot. lia.
Qed.

Lemma preview_and_export_show_the_same_cell_witness :
  let d := Examples.scenarioA in
  let c := Examples.config in
  let cur := VideoRenderer.stepIndex d c 2500 in
  let k := Z.to_nat (VideoRenderer.rawStepIndex c 2500) in
  let row := Types.at_ (Types.data d) (VideoRenderer.rowIdx d cur) in
  Preview.currentStep (Preview.ticks d k) = cur
  /\ exists info,
       Preview.activeInfo d (Preview.currentStep (Preview.ticks d k))
       = Some info
       /\ Preview.rowIdx info = VideoRenderer.rowIdx d cur
       /\ Preview.colIdx info = VideoRenderer.colIdx d cur
       /\ Preview.subject info = VideoRenderer.cell row 0
       /\ Preview.header info
          = Types.orEmpty
              (Types.at_ (Types.columns d) (VideoRenderer.colIdx d cur))
       /\ Preview.value info
          = VideoRenderer.cell row (VideoRenderer.colIdx d cur).
Proof.
  apply (preview_and_export_show_the_same_cell Examples.scenarioA
           Examples.config 2500).
  - reflexivity.
  - reflexivity.
  - vm_compute. discriminate.
Defined.
